(** * gallery.js: preload cache and preview overlay

    A shallow embedding of [src/gallery.js].  The script owns three things:
    the [PreloadManager] object (a [Map] from source identifier to a loaded
    media element), the preview overlay built by [showPreview], and the
    navigation entry point [showProjectImages].  Browser objects that the
    script creates (media elements, promises, overlay nodes) live in an
    explicit store indexed by a fresh identifier; closures are represented
    by data carrying the variables they capture. *)

From Stdlib Require Import ZArith Lia Ascii String.
From stdpp Require Import gmap strings list fin_maps sorting.

(** ** JavaScript primitives used by the script *)

Module Js.

(** Numbers that reach an array index: an integer, or [NaN] (the value of
    [x % 0]). *)
Inductive Num := Int (z : Z) | NaN.

Definition add (a : Num) (b : Z) : Num :=
  match a with Int z => Int (z + b) | NaN => NaN end.

(** [a % n]: the remainder takes the sign of the dividend; [x % 0] is
    [NaN]. *)
Definition rem (a : Num) (n : Z) : Num :=
  match a with
  | Int z => if (n =? 0)%Z then NaN else Int (Z.rem z n)
  | NaN => NaN
  end.

(** [a !== b]: [NaN] differs from everything, itself included. *)
Definition strict_neq (a b : Num) : bool :=
  match a, b with
  | Int x, Int y => negb (x =? y)%Z
  | _, _ => true
  end.

(** [s.endsWith(t)] *)
Definition endsWith (s t : string) : bool :=
  let n := String.length s in
  let m := String.length t in
  if m <=? n then String.eqb (substring (n - m) m s) t else false.

(** [arr.indexOf(x)]: first position holding [x], or [-1]. *)
Fixpoint indexOf_from (arr : list string) (x : string) (i : Z) : Z :=
  match arr with
  | [] => (-1)%Z
  | y :: rest => if String.eqb y x then i else indexOf_from rest x (i + 1)
  end.

Definition indexOf (arr : list string) (x : string) : Z := indexOf_from arr x 0.

(** [arr[i]]: [None] stands for [undefined] (negative, too large, [NaN]). *)
Definition index (arr : list string) (i : Num) : option string :=
  match i with
  | Int z => if (0 <=? z)%Z then arr !! Z.to_nat z else None
  | NaN => None
  end.

Definition len (arr : list string) : Z := Z.of_nat (length arr).

Record Error := mkError { e_name : string; e_message : string }.

End Js.

(** ** Objects created by the script *)

Inductive MediaKind := Img | Video.

(** A media element ([new Image()], [createElement('video')], or
    [createElement('img')]); [el_id] is its identity. *)
Record Element := mkElement { el_id : nat; el_kind : MediaKind; el_src : string }.

Inductive Settled :=
| Pending
| Fulfilled (h : Element)
| Rejected (e : Js.Error).

(** [p_handled]: a rejection handler has been attached ([catch],
    [Promise.allSettled]); a rejection of an unhandled promise is reported
    as uncaught. *)
Record Promise := mkPromise { p_state : Settled; p_handled : bool }.

(** The handlers wired on a media element, with the variables they capture:
    [PreloadOf pid src] are the [onload]/[onloadeddata]/[onerror] closures
    of [PreloadManager.preload] (they capture [src] and [resolve], [reject]
    of promise [pid]); [ContentOf oid src] are [loadHandler] and [content.onerror] of
    [showPreview] (they capture [overlay] and [src]). *)
Inductive Owner := PreloadOf (pid : nat) (src : string) | ContentOf (oid : nat) (src : string).

Inductive Phase := Loading | Loaded | Failed.

Record Loader := mkLoader { l_elem : Element; l_owner : Owner; l_phase : Phase }.

Inductive Signal := SigLoad | SigLoadedData | SigError.

(** Document-level keydown listeners: [overlay.escHandler] and
    [overlay.keyNavHandler] (the latter captures [src]). *)
Inductive Listener :=
| EscHandler (oid : nat)
| KeyNavHandler (oid : nat) (src : string).

#[global] Instance Listener_eq_dec : EqDecision Listener.
Proof. solve_decision. Defined.

Inductive Child := LoaderDiv | Content (el : Element).

Inductive Inner := Children (cs : list Child) | Html (html : string).

Record Overlay := mkOverlay {
  o_classes : list string;
  o_inner : Inner;
  o_escHandler : Listener;
  o_keyNavHandler : Listener }.

Inductive TimerAction :=
| TCleanup (oid : nat)
| TShow (newIndex : Js.Num).

(** ** Program state *)

Record State := mkState {
  cache : gmap string Element;          (* PreloadManager.cache *)
  promises : gmap nat Promise;          (* promises made by preload *)
  catches : list (nat * string);        (* pending [.catch] of showProjectImages *)
  thens : list (list nat * list string);(* pending [.then] of initializeProjectGallery *)
  loaders : gmap nat Loader;            (* media elements with handlers *)
  requests : list string;               (* every [element.src = src] *)
  nodes : gmap nat Overlay;             (* overlay objects, attached or not *)
  body : list nat;                      (* overlay nodes under document.body *)
  listeners : list Listener;            (* keydown listeners on document *)
  timers : list (nat * TimerAction);    (* setTimeout queue: due time, callback *)
  now : nat;                            (* clock, ms *)
  console : list string;                (* console.warn output *)
  uncaught : list Js.Error;             (* exceptions nobody caught *)
  next_id : nat }.

Definition set_cache v s :=
  mkState v (promises s) (catches s) (thens s) (loaders s) (requests s) (nodes s)
    (body s) (listeners s) (timers s) (now s) (console s) (uncaught s) (next_id s).
Definition set_promises v s :=
  mkState (cache s) v (catches s) (thens s) (loaders s) (requests s) (nodes s)
    (body s) (listeners s) (timers s) (now s) (console s) (uncaught s) (next_id s).
Definition set_catches v s :=
  mkState (cache s) (promises s) v (thens s) (loaders s) (requests s) (nodes s)
    (body s) (listeners s) (timers s) (now s) (console s) (uncaught s) (next_id s).
Definition set_thens v s :=
  mkState (cache s) (promises s) (catches s) v (loaders s) (requests s) (nodes s)
    (body s) (listeners s) (timers s) (now s) (console s) (uncaught s) (next_id s).
Definition set_loaders v s :=
  mkState (cache s) (promises s) (catches s) (thens s) v (requests s) (nodes s)
    (body s) (listeners s) (timers s) (now s) (console s) (uncaught s) (next_id s).
Definition set_requests v s :=
  mkState (cache s) (promises s) (catches s) (thens s) (loaders s) v (nodes s)
    (body s) (listeners s) (timers s) (now s) (console s) (uncaught s) (next_id s).
Definition set_nodes v s :=
  mkState (cache s) (promises s) (catches s) (thens s) (loaders s) (requests s) v
    (body s) (listeners s) (timers s) (now s) (console s) (uncaught s) (next_id s).
Definition set_body v s :=
  mkState (cache s) (promises s) (catches s) (thens s) (loaders s) (requests s) (nodes s)
    v (listeners s) (timers s) (now s) (console s) (uncaught s) (next_id s).
Definition set_listeners v s :=
  mkState (cache s) (promises s) (catches s) (thens s) (loaders s) (requests s) (nodes s)
    (body s) v (timers s) (now s) (console s) (uncaught s) (next_id s).
Definition set_timers v s :=
  mkState (cache s) (promises s) (catches s) (thens s) (loaders s) (requests s) (nodes s)
    (body s) (listeners s) v (now s) (console s) (uncaught s) (next_id s).
Definition set_now v s :=
  mkState (cache s) (promises s) (catches s) (thens s) (loaders s) (requests s) (nodes s)
    (body s) (listeners s) (timers s) v (console s) (uncaught s) (next_id s).
Definition set_console v s :=
  mkState (cache s) (promises s) (catches s) (thens s) (loaders s) (requests s) (nodes s)
    (body s) (listeners s) (timers s) (now s) v (uncaught s) (next_id s).
Definition set_uncaught v s :=
  mkState (cache s) (promises s) (catches s) (thens s) (loaders s) (requests s) (nodes s)
    (body s) (listeners s) (timers s) (now s) (console s) v (next_id s).
Definition set_next_id v s :=
  mkState (cache s) (promises s) (catches s) (thens s) (loaders s) (requests s) (nodes s)
    (body s) (listeners s) (timers s) (now s) (console s) (uncaught s) v.

(** The page before the script has done anything. *)
Definition empty_state : State :=
  mkState ∅ ∅ [] [] ∅ [] ∅ [] [] [] 0 [] [] 0.

(** ** Promises *)

Definition console_warn (msg : string) (s : State) : State :=
  set_console (console s ++ [msg]) s.

Definition report_uncaught (e : Js.Error) (s : State) : State :=
  set_uncaught (uncaught s ++ [e]) s.

(** [Promise.resolve(h)] *)
Definition Promise_resolve (h : Element) (s : State) : nat * State :=
  let pid := next_id s in
  (pid, set_next_id (S pid) (set_promises (<[pid := mkPromise (Fulfilled h) false]> (promises s)) s)).

(** [new Promise(...)], not yet settled *)
Definition Promise_new (s : State) : nat * State :=
  let pid := next_id s in
  (pid, set_next_id (S pid) (set_promises (<[pid := mkPromise Pending false]> (promises s)) s)).

Definition drop_catches (pid : nat) (s : State) : State :=
  set_catches (filter (fun c => c.1 ≠ pid) (catches s)) s.

(** The [resolve] function of promise [pid]: a settled promise stays as it
    is. *)
Definition resolve (pid : nat) (h : Element) (s : State) : State :=
  match promises s !! pid with
  | Some (mkPromise Pending hd) =>
      drop_catches pid (set_promises (<[pid := mkPromise (Fulfilled h) hd]> (promises s)) s)
  | _ => s
  end.

(** The callback given to [.catch] in [showProjectImages]. *)
Definition warn_preload (nextSrc : string) (s : State) : State :=
  console_warn ("Failed to preload: " +:+ nextSrc) s.

(** The [reject] function of promise [pid]; the [.catch] callbacks
    registered on it run, and a rejection nobody handles is reported. *)
Definition reject (pid : nat) (e : Js.Error) (s : State) : State :=
  match promises s !! pid with
  | Some (mkPromise Pending hd) =>
      let s1 := set_promises (<[pid := mkPromise (Rejected e) hd]> (promises s)) s in
      let mine := filter (fun c => c.1 = pid) (catches s1) in
      let s2 := foldl (fun acc c => warn_preload c.2 acc) (drop_catches pid s1) mine in
      if hd then s2 else report_uncaught e s2
  | _ => s
  end.

Definition mark_handled (pid : nat) (s : State) : State :=
  match promises s !! pid with
  | Some p => set_promises (<[pid := mkPromise (p_state p) true]> (promises s)) s
  | None => s
  end.

(** [p.catch(() => console.warn(`Failed to preload: ${nextSrc}`))] *)
Definition catch_warn (pid : nat) (nextSrc : string) (s : State) : State :=
  let s1 := mark_handled pid s in
  match promises s1 !! pid with
  | Some (mkPromise Pending _) => set_catches (catches s1 ++ [(pid, nextSrc)]) s1
  | Some (mkPromise (Rejected _) _) => warn_preload nextSrc s1
  | _ => s1
  end.

(** ** PreloadManager *)

Module PreloadManager.

Definition get (src : string) (s : State) : option Element := cache s !! src.

Definition isCached (src : string) (s : State) : bool :=
  bool_decide (is_Some (cache s !! src)).

(** [preload(src)]: returns the promise. *)
Definition preload (src : string) (s : State) : nat * State :=
  match cache s !! src with
  | Some h => Promise_resolve h s
  | None =>
      let '(pid, s1) := Promise_new s in
      let isVideo := Js.endsWith src ".mp4" || Js.endsWith src ".webm" in
      let el := mkElement (next_id s1) (if isVideo then Video else Img) src in
      (pid,
       set_next_id (S (next_id s1))
         (set_loaders (<[el_id el := mkLoader el (PreloadOf pid src) Loading]> (loaders s1))
            (set_requests (requests s1 ++ [src]) s1)))
  end.

(** [sources.map(src => this.preload(src))] *)
Fixpoint map_preload (sources : list string) (s : State) : list nat * State :=
  match sources with
  | [] => ([], s)
  | src :: rest =>
      let '(pid, s1) := preload src s in
      let '(pids, s2) := map_preload rest s1 in
      (pid :: pids, s2)
  end.

(** [preloadAll(sources)]: the aggregate promise is represented by the
    promises it waits for; its value is [allSettled_value]. *)
Definition preloadAll (sources : list string) (s : State) : list nat * State :=
  let '(pids, s1) := map_preload sources s in
  (pids, foldr mark_handled s1 pids).

End PreloadManager.

(** Entries of the array [Promise.allSettled] fulfils with. *)
Inductive Outcome :=
| OFulfilled (value : Element)
| ORejected (reason : Js.Error).

Definition outcome_of (s : State) (pid : nat) : option Outcome :=
  match promises s !! pid with
  | Some (mkPromise (Fulfilled h) _) => Some (OFulfilled h)
  | Some (mkPromise (Rejected e) _) => Some (ORejected e)
  | _ => None
  end.

(** The value of [Promise.allSettled(pids)]: [None] while some input is
    pending, otherwise one outcome per input, in input order. *)
Definition allSettled_value (s : State) (pids : list nat) : option (list Outcome) :=
  mapM (outcome_of s) pids.

(** ** The document *)

Definition has_class (c : string) (o : Overlay) : bool := bool_decide (c ∈ o_classes o).

Definition classList_remove (c : string) (o : Overlay) : Overlay :=
  mkOverlay (filter (fun x => x ≠ c) (o_classes o)) (o_inner o) (o_escHandler o) (o_keyNavHandler o).

Definition classList_add (c : string) (o : Overlay) : Overlay :=
  if bool_decide (c ∈ o_classes o) then o
  else mkOverlay (o_classes o ++ [c]) (o_inner o) (o_escHandler o) (o_keyNavHandler o).

Definition set_innerHTML (html : string) (o : Overlay) : Overlay :=
  mkOverlay (o_classes o) (Html html) (o_escHandler o) (o_keyNavHandler o).

Definition update_node (oid : nat) (f : Overlay -> Overlay) (s : State) : State :=
  match nodes s !! oid with
  | Some o => set_nodes (<[oid := f o]> (nodes s)) s
  | None => s
  end.

(** [document.querySelector('.preview-overlay')]: the first node of the
    document carrying the class. *)
Definition is_preview_overlay (s : State) (oid : nat) : bool :=
  match nodes s !! oid with
  | Some o => has_class "preview-overlay" o
  | None => false
  end.

Definition querySelector_preview_overlay (s : State) : option nat :=
  List.find (is_preview_overlay s) (body s).

(** [document.addEventListener('keydown', h)]: a listener already
    registered is not registered twice. *)
Definition addEventListener (h : Listener) (s : State) : State :=
  if bool_decide (h ∈ listeners s) then s else set_listeners (listeners s ++ [h]) s.

(** [document.removeEventListener('keydown', h)] *)
Definition removeEventListener (h : Listener) (s : State) : State :=
  set_listeners (filter (fun x => x ≠ h) (listeners s)) s.

(** [node.remove()] *)
Definition node_remove (oid : nat) (s : State) : State :=
  set_body (filter (fun x => x ≠ oid) (body s)) s.

(** [setTimeout(callback, delay)]: callbacks run in order of due time,
    equal due times in order of registration. *)
Fixpoint enqueue (due : nat) (a : TimerAction) (q : list (nat * TimerAction))
  : list (nat * TimerAction) :=
  match q with
  | [] => [(due, a)]
  | (t, b) :: rest => if t <=? due then (t, b) :: enqueue due a rest else (due, a) :: q
  end.

Definition setTimeout (a : TimerAction) (delay : nat) (s : State) : State :=
  set_timers (enqueue (now s + delay) a (timers s)) s.

(** ** showPreview *)

Definition dq : string := String "034"%char EmptyString.
Definition nl : string := String "010"%char EmptyString.

(** The template literal assigned to [overlay.innerHTML] on a load error. *)
Definition error_html (src : string) : string :=
  nl +:+ "            <div style=" +:+ dq +:+ "color: white; text-align: center;" +:+ dq +:+ ">" +:+
  nl +:+ "                加载失败，请重试<br>" +:+
  nl +:+ "                <small style=" +:+ dq +:+ "opacity: 0.7;" +:+ dq +:+ ">Failed to load: " +:+ src +:+ "</small>" +:+
  nl +:+ "            </div>" +:+
  nl +:+ "        ".

(** [cleanup] of the overlay [oid] *)
Definition cleanup (oid : nat) (s : State) : State :=
  match nodes s !! oid with
  | Some o =>
      node_remove oid
        (removeEventListener (o_keyNavHandler o) (removeEventListener (o_escHandler o) s))
  | None => s
  end.

(** [closePreview] *)
Definition closePreview (oid : nat) (s : State) : State :=
  setTimeout (TCleanup oid) 300 (update_node oid (classList_remove "active") s).

(** [loadHandler] *)
Definition loadHandler (oid : nat) (s : State) : State :=
  update_node oid (fun o => classList_add "active" (classList_remove "loading" o)) s.

(** [content.onerror] *)
Definition content_onerror (oid : nat) (src : string) (s : State) : State :=
  setTimeout (TCleanup oid) 2000 (update_node oid (set_innerHTML (error_html src)) s).

(** [overlay.onclick]; [onBackdrop] is [e.target === overlay]. *)
Definition overlay_onclick (oid : nat) (onBackdrop : bool) (s : State) : State :=
  if onBackdrop then closePreview oid s else s.

(** [overlay.escHandler] *)
Definition escHandler (oid : nat) (key : string) (s : State) : State :=
  if String.eqb key "Escape" then closePreview oid s else s.

Definition showPreview (src : string) (isVideo : bool) (s : State) : State :=
  (* remove a previous preview and its listeners *)
  let s1 :=
    match querySelector_preview_overlay s with
    | Some existing =>
        match nodes s !! existing with
        | Some o =>
            node_remove existing
              (removeEventListener (o_keyNavHandler o)
                 (removeEventListener (o_escHandler o) s))
        | None => s
        end
    | None => s
    end in
  let oid := next_id s1 in
  let content := mkElement (S oid) (if isVideo then Video else Img) src in
  let overlay :=
    mkOverlay ["preview-overlay"; "loading"] (Children [LoaderDiv])
      (EscHandler oid) (KeyNavHandler oid src) in
  let s2 :=
    set_next_id (S (S oid))
      (set_loaders (<[S oid := mkLoader content (ContentOf oid src) Loading]> (loaders s1))
         (set_nodes (<[oid := overlay]> (nodes s1)) s1)) in
  let s3 := addEventListener (KeyNavHandler oid src) (addEventListener (EscHandler oid) s2) in
  (* content.src = src; overlay.appendChild(content); body.appendChild(overlay) *)
  let s4 := set_requests (requests s3 ++ [src]) s3 in
  let s5 :=
    update_node oid
      (fun o => mkOverlay (o_classes o) (Children [LoaderDiv; Content content])
                  (o_escHandler o) (o_keyNavHandler o)) s4 in
  set_body (filter (fun x => x ≠ oid) (body s5) ++ [oid]) s5.

(** ** showProjectImages *)

Inductive Result :=
| Ok (s : State)
| Throw (e : Js.Error) (s : State).

Definition TypeError_endsWith : Js.Error :=
  Js.mkError "TypeError" "Cannot read properties of undefined (reading 'endsWith')".

Definition showProjectImages (index : Js.Num) (images : list string) (s : State) : Result :=
  match Js.index images index with
  | None => Throw TypeError_endsWith s
  | Some src =>
      let isVideo := Js.endsWith src ".mp4" || Js.endsWith src ".webm" in
      let s1 := showPreview src isVideo s in
      let nextIndex := Js.rem (Js.add index 1) (Js.len images) in
      if Js.strict_neq nextIndex index then
        match Js.index images nextIndex with
        | Some nextSrc =>
            let '(p, s2) := PreloadManager.preload nextSrc s1 in
            Ok (catch_warn p nextSrc s2)
        | None =>
            (* preload(undefined): the executor throws, the promise is
               rejected, the catch callback logs *)
            Ok (warn_preload "undefined" s1)
        end
      else Ok s1
  end.

(** [initializeProjectGallery(images)]: the [.then] callback is kept until
    the first batch has settled. *)
Definition initializeProjectGallery (images : list string) (s : State) : State :=
  let visibleImages := take 5 images in
  let '(pids, s1) := PreloadManager.preloadAll visibleImages s in
  set_thens (thens s1 ++ [(pids, drop 5 images)]) s1.

Definition then_callback (remainingImages : list string) (s : State) : State :=
  if 0 <? length remainingImages then (PreloadManager.preloadAll remainingImages s).2 else s.

Definition is_settled (s : State) (pid : nat) : bool :=
  match outcome_of s pid with Some _ => true | None => false end.

(** Microtask checkpoint: the [.then] callbacks whose aggregate has settled
    run. *)
Definition checkpoint (s : State) : State :=
  let ready := filter (fun t => forallb (is_settled s) t.1 = true) (thens s) in
  let waiting := filter (fun t => forallb (is_settled s) t.1 ≠ true) (thens s) in
  foldl (fun acc t => then_callback t.2 acc) (set_thens waiting s) ready.

(** ** Handlers of the preload elements *)

(** [img.onload] / [video.onloadeddata] of [preload] *)
Definition preload_onload (pid : nat) (src : string) (el : Element) (s : State) : State :=
  resolve pid el (set_cache (<[src := el]> (cache s)) s).

(** [img.onerror] / [video.onerror] of [preload] *)
Definition preload_onerror (pid : nat) (src : string) (k : MediaKind) (s : State) : State :=
  let msg :=
    match k with
    | Video => "Failed to load video: " +:+ src
    | Img => "Failed to load image: " +:+ src
    end in
  reject pid (Js.mkError "Error" msg) s.

(** What the browser may signal on a media element once its [src] is set:
    an image ends in [load] or in [error]; a video reaches [loadeddata] or
    [error], and may still fail after [loadeddata]. *)
Definition next_phase (k : MediaKind) (ph : Phase) (sig : Signal) : option Phase :=
  match k, ph, sig with
  | Img, Loading, SigLoad => Some Loaded
  | Video, Loading, SigLoadedData => Some Loaded
  | _, Loading, SigError => Some Failed
  | Video, Loaded, SigError => Some Failed
  | _, _, _ => None
  end.

(** The handler the script wired for [sig] on the element, if any. *)
Definition run_handler (l : Loader) (sig : Signal) (s : State) : State :=
  match l_owner l, el_kind (l_elem l), sig with
  | PreloadOf pid src, Img, SigLoad => preload_onload pid src (l_elem l) s
  | PreloadOf pid src, Video, SigLoadedData => preload_onload pid src (l_elem l) s
  | PreloadOf pid src, k, SigError => preload_onerror pid src k s
  | PreloadOf _ _, _, _ => s
  | ContentOf oid _, _, SigLoad => loadHandler oid s
  | ContentOf oid _, _, SigLoadedData => loadHandler oid s
  | ContentOf oid src, _, SigError => content_onerror oid src s
  end.

Definition fire_signal (el : nat) (sig : Signal) (s : State) : State :=
  match loaders s !! el with
  | None => s
  | Some l =>
      match next_phase (el_kind (l_elem l)) (l_phase l) sig with
      | None => s
      | Some ph =>
          run_handler l sig
            (set_loaders (<[el := mkLoader (l_elem l) (l_owner l) ph]> (loaders s)) s)
      end
  end.

(** ** The page as a transition system *)

Inductive Event :=
| EvDOMContentLoaded
| EvShowArch (index : Z)
| EvKeyDown (key : string)
| EvClick (oid : nat) (onBackdrop : bool)
| EvSignal (el : nat) (sig : Signal)
| EvAdvance (d : nat).

Section Gallery.

(** The global array [archProjectImages]. *)
Variable gallery : list string.

(** [overlay.keyNavHandler] *)
Definition keyNavHandler (oid : nat) (src : string) (key : string) (s : State) : State :=
  if String.eqb key "ArrowLeft" || String.eqb key "ArrowRight" then
    let direction := if String.eqb key "ArrowLeft" then (-1)%Z else 1%Z in
    let currentIndex := Js.indexOf gallery src in
    let newIndex :=
      Js.rem (Js.Int (currentIndex + direction + Js.len gallery)) (Js.len gallery) in
    setTimeout (TShow newIndex) 300 (closePreview oid s)
  else s.

Definition run_listener (key : string) (s : State) (h : Listener) : State :=
  match h with
  | EscHandler oid => escHandler oid key s
  | KeyNavHandler oid src => keyNavHandler oid src key s
  end.

(** A keydown event on the document: every listener registered when the
    event is dispatched runs, in order of registration. *)
Definition keydown (key : string) (s : State) : State :=
  foldl (run_listener key) s (listeners s).

(** An exception leaving a task is reported, the page goes on. *)
Definition settle_result (r : Result) : State :=
  match r with
  | Ok s => s
  | Throw e s => report_uncaught e s
  end.

Definition run_timer (s : State) (t : nat * TimerAction) : State :=
  match t.2 with
  | TCleanup oid => cleanup oid (set_now (max (now s) t.1) s)
  | TShow newIndex =>
      settle_result (showProjectImages newIndex gallery (set_now (max (now s) t.1) s))
  end.

(** [d] milliseconds pass: the callbacks that are due run in queue order.
    No callback of this script calls [setTimeout], so the callbacks due
    are known when the clock starts to move. *)
Definition advance (d : nat) (s : State) : State :=
  let deadline := now s + d in
  let due := filter (fun t => t.1 ≤ deadline) (timers s) in
  let later := filter (fun t => ¬ (t.1 ≤ deadline)) (timers s) in
  set_now deadline (foldl run_timer (set_timers later s) due).

Definition task (ev : Event) (s : State) : State :=
  match ev with
  | EvDOMContentLoaded => initializeProjectGallery gallery s
  | EvShowArch i => settle_result (showProjectImages (Js.Int i) gallery s)
  | EvKeyDown key => keydown key s
  | EvClick oid onBackdrop =>
      if bool_decide (oid ∈ body s) then overlay_onclick oid onBackdrop s else s
  | EvSignal el sig => fire_signal el sig s
  | EvAdvance d => advance d s
  end.

Definition step (s : State) (ev : Event) : State := checkpoint (task ev s).

Definition run (evs : list Event) (s : State) : State := foldl step s evs.

Inductive reachable : State -> Prop :=
| reach_init : reachable empty_state
| reach_step s ev : reachable s -> reachable (step s ev).

End Gallery.

(** ** The built-in gallery and the entry point *)

Definition archProjectImages : list string := [
  "images/arch1.jpg"; "images/arch2.jpg"; "images/arch3.jpg"; "images/arch4.jpg";
  "images/arch5.jpg"; "images/arch6.jpg"; "images/arch7.jpg"; "images/arch8.jpg";
  "images/arch9.jpg"; "images/arch10.jpg"; "images/arch11.jpg"; "images/arch12.jpg";
  "images/arch13.jpg"; "images/arch14.jpg"; "images/arch15.jpg"; "images/arch16.jpg";
  "images/arch17.jpg"; "images/arch18.jpg"; "images/arch19.jpg"; "images/arch20.jpg";
  "images/arch21.jpg"; "images/arch22.jpg"; "images/arch23.jpg"; "images/arch24.jpg";
  "images/arch25.jpg"; "images/arch26.jpg"; "images/arch27.jpg"; "images/arch28.jpg";
  "images/arch29.jpg"; "images/arch30.jpg"; "images/arch31.jpg"; "images/arch32.jpg";
  "images/arch33.jpg"; "images/arch34.jpg"; "images/arch35.jpg"; "images/arch36.jpg";
  "images/arch37.jpg"; "images/arch38.jpg"; "images/arch39.jpg"; "images/arch40.jpg";
  "images/arch41.jpg"; "images/arch42.jpg"; "images/arch43.jpg"; "images/arch44.jpg";
  "images/arch45.jpg"; "images/arch46.jpg"; "images/arch47.jpg"; "images/arch48.jpg";
  "images/arch49.jpg"; "images/arch50.jpg"; "images/arch51.jpg"; "images/arch52.jpg";
  "images/arch53.jpg"; "images/arch54.jpg"; "images/arch55.jpg"; "images/arch56.jpg";
  "images/arch57.jpg"; "images/arch58.jpg"; "images/arch59.jpg"; "images/arch60.jpg";
  "images/arch61.jpg"; "images/arch62.jpg"; "images/arch63.jpg"; "images/arch64.jpg";
  "images/arch65.jpg"; "images/arch66.jpg"; "images/arch67.jpg"; "images/arch68.jpg";
  "images/arch69.jpg"; "images/arch70.jpg"; "images/arch71.jpg"; "images/arch72.jpg";
  "images/arch73.jpg"; "images/arch74.jpg"; "images/arch75.jpg"; "images/arch76.jpg";
  "images/arch77.jpg"; "images/arch78.jpg"; "images/arch79.jpg"; "images/arch80.jpg";
  "images/arch81.jpg"; "images/arch82.jpg"; "images/arch83.jpg"; "images/arch84.jpg";
  "images/arch85.jpg"; "images/arch86.jpg"; "images/arch87.jpg"; "images/arch88.jpg";
  "images/arch89.jpg"; "images/arch90.jpg"; "images/arch91.jpg"; "images/arch92.jpg";
  "images/arch93.jpg"; "images/arch94.jpg"; "images/arch95.jpg"; "images/arch96.jpg";
  "images/arch97.jpg"; "images/arch98.jpg"; "images/arch99.jpg"; "images/arch100.jpg";
  "images/arch101.jpg"; "images/arch102.jpg"; "images/arch103.jpg"; "images/arch104.jpg";
  "images/arch105.jpg"; "images/arch106.jpg"; "images/arch107.jpg"; "images/arch108.jpg";
  "images/arch109.jpg"; "images/arch110.jpg"; "images/arch111.jpg"; "images/arch112.jpg";
  "images/arch113.jpg"; "images/arch114.jpg"; "images/arch115.jpg"; "images/arch116.jpg";
  "images/arch117.jpg"; "images/arch118.jpg"; "images/arch119.jpg"; "images/arch120.jpg";
  "images/arch121.jpg"; "images/arch122.jpg"; "images/arch123.jpg"; "images/arch124.jpg";
  "images/arch125.jpg"; "images/arch126.jpg"; "images/arch127.jpg"; "images/arch128.jpg";
  "images/arch129.jpg"; "images/arch130.jpg"; "images/arch131.jpg"; "images/arch132.jpg";
  "images/arch133.jpg"; "images/arch134.jpg"; "images/arch135.jpg"; "images/arch136.jpg";
  "images/arch137.jpg"; "images/arch138.jpg"; "images/arch139.jpg"; "images/arch140.jpg";
  "images/arch141.jpg"; "images/arch142.jpg"; "images/arch143.jpg"; "images/arch144.jpg";
  "images/arch145.jpg"; "images/arch146.jpg"; "images/arch147.jpg"; "images/arch148.jpg";
  "images/arch149.jpg"; "images/arch150.jpg"; "images/arch151.jpg"; "images/arch152.jpg";
  "images/arch153.jpg"; "images/arch154.jpg"; "images/arch155.jpg"; "images/arch156.jpg";
  "images/arch157.jpg"; "images/arch158.jpg"; "images/arch159.jpg"; "images/arch160.jpg";
  "images/arch161.jpg"; "images/arch162.jpg"; "images/arch163.jpg"; "images/arch164.jpg";
  "images/arch165.jpg"; "images/arch166.jpg"; "images/arch167.jpg"; "images/arch168.jpg";
  "images/arch169.jpg"; "images/arch170.jpg"; "images/arch171.jpg"; "images/arch172.jpg";
  "images/arch173.jpg"; "images/arch174.jpg"; "images/arch175.jpg"; "images/arch176.jpg";
  "images/arch177.jpg"; "images/arch178.jpg"; "images/arch179.jpg"; "images/arch180.jpg";
  "images/arch181.jpg"; "images/arch182.jpg"; "images/arch183.jpg"; "images/arch184.jpg";
  "images/arch185.jpg"; "images/arch186.jpg"; "images/arch187.jpg"; "images/arch188.jpg";
  "images/arch189.jpg"; "images/arch190.jpg"; "images/arch191.jpg"; "images/arch192.jpg";
  "images/arch193.jpg"; "images/arch194.jpg"; "images/arch195.jpg"; "images/arch196.jpg";
  "images/arch197.jpg"; "images/arch198.jpg"; "images/arch199.jpg"; "images/arch200.jpg"].

(** [window.showArchProjectImages] *)
Definition showArchProjectImages (index : Z) (s : State) : Result :=
  showProjectImages (Js.Int index) archProjectImages s.

(** ** Predicates used in the statements *)

(** [s] ends in [suffix]. *)
Definition ends_in (s suffix : string) : Prop := exists p, s = p +:+ suffix.

(** *** Well-formed states

    What holds of every state the page can be in: identifiers in the
    stores are below [next_id]; a preload element carries the source its
    closures captured; a cached element is stored under its own source; an
    overlay object carries the class and its own two handlers; and the
    document holds no overlay and no listener, or one overlay and exactly
    its two listeners. *)

Definition owner_ok (s : State) (l : Loader) : Prop :=
  match l_owner l with
  | PreloadOf pid src => pid < next_id s /\ el_src (l_elem l) = src
  | ContentOf oid src =>
      exists o, nodes s !! oid = Some o /\ o_keyNavHandler o = KeyNavHandler oid src
  end.

Definition node_ok (oid : nat) (o : Overlay) : Prop :=
  "preview-overlay" ∈ o_classes o /\
  o_escHandler o = EscHandler oid /\
  exists src, o_keyNavHandler o = KeyNavHandler oid src.

Definition dom_ok (s : State) : Prop :=
  (body s = [] /\ listeners s = []) \/
  (exists oid o, body s = [oid] /\ nodes s !! oid = Some o /\
     listeners s = [o_escHandler o; o_keyNavHandler o]).

Record wf (s : State) : Prop := mk_wf {
  wf_promises : forall pid, is_Some (promises s !! pid) -> pid < next_id s;
  wf_catches : forall c, c ∈ catches s -> c.1 < next_id s;
  wf_loaders : forall e l, loaders s !! e = Some l -> e < next_id s /\ owner_ok s l;
  wf_cache : forall src h, cache s !! src = Some h -> el_src h = src;
  wf_nodes : forall oid o, nodes s !! oid = Some o -> oid < next_id s /\ node_ok oid o;
  wf_dom : dom_ok s }.

(** The overlay object and the content element [showPreview] builds. *)
Definition new_overlay (n : nat) (src : string) (isVideo : bool) : Overlay :=
  mkOverlay ["preview-overlay"; "loading"]
    (Children [LoaderDiv; Content (mkElement (S n) (if isVideo then Video else Img) src)])
    (EscHandler n) (KeyNavHandler n src).

Definition new_content (n : nat) (src : string) (isVideo : bool) : Loader :=
  mkLoader (mkElement (S n) (if isVideo then Video else Img) src) (ContentOf n src) Loading.

(** The error [preload] rejects with. *)
Definition load_failure (k : MediaKind) (src : string) : Js.Error :=
  Js.mkError "Error"
    (match k with
     | Video => "Failed to load video: " +:+ src
     | Img => "Failed to load image: " +:+ src
     end).

(** The signal the browser sends on success, by kind of element. *)
Definition success_signal (k : MediaKind) : Signal :=
  match k with Img => SigLoad | Video => SigLoadedData end.

(** [s'] differs from [s] in the document, the timers and the clock only. *)
Definition dom_only (s s' : State) : Prop :=
  cache s' = cache s /\ promises s' = promises s /\ catches s' = catches s /\
  thens s' = thens s /\ loaders s' = loaders s /\ requests s' = requests s /\
  console s' = console s /\ uncaught s' = uncaught s /\ next_id s' = next_id s.

(** [s'] differs from [s] in the cache, the promises, the media elements
    and the logs only. *)
Definition page_kept (s s' : State) : Prop :=
  nodes s' = nodes s /\ body s' = body s /\ listeners s' = listeners s /\
  timers s' = timers s /\ now s' = now s.

(** The state of promise [pid], if it exists. *)
Definition pstate (s : State) (pid : nat) : option Settled :=
  p_state <$> promises s !! pid.

(** [s'] comes after [s] and has neither settled a promise of [s], nor
    touched the cache, nor given a promise of [s] another preload element. *)
Definition promises_kept (s s' : State) : Prop :=
  next_id s <= next_id s' /\
  cache s' = cache s /\
  (forall pid, pid < next_id s -> pstate s' pid = pstate s pid) /\
  (forall e l pid src,
     loaders s' !! e = Some l -> l_owner l = PreloadOf pid src -> pid < next_id s ->
     exists l0, loaders s !! e = Some l0 /\ l_owner l0 = PreloadOf pid src).

(** A promise state that [preload(src)] may be in: pending, fulfilled with
    an element of that source, or rejected with the load failure of that
    source. *)
Definition settles_for (src : string) (st : Settled) : Prop :=
  match st with
  | Pending => True
  | Fulfilled h => el_src h = src
  | Rejected e => exists k, e = load_failure k src
  end.

(** [pid] is a promise returned by [preload(src)]. *)
Definition promise_for (s : State) (pid : nat) (src : string) : Prop :=
  pid < next_id s /\
  (exists st, pstate s pid = Some st /\ settles_for src st) /\
  (forall e l src',
     loaders s !! e = Some l -> l_owner l = PreloadOf pid src' -> src' = src).

(** An entry of the [allSettled] array that belongs to [src]. *)
Definition outcome_for (src : string) (out : Outcome) : Prop :=
  match out with
  | OFulfilled h => el_src h = src
  | ORejected e => exists k, e = load_failure k src
  end.

(** Every promise has a rejection handler. *)
Definition handled_all (s : State) : Prop :=
  forall pid p, promises s !! pid = Some p -> p_handled p = true.

(** Nothing has been thrown, and nothing that is armed can throw: the
    navigation handlers in place captured a source of the gallery, the
    pending navigation timers carry a position of the gallery, and every
    promise is handled. *)
Record quiet (gallery : list string) (s : State) : Prop := mk_quiet {
  q_uncaught : uncaught s = [];
  q_listeners : forall oid src, KeyNavHandler oid src ∈ listeners s -> src ∈ gallery;
  q_timers : forall t i, (t, TShow i) ∈ timers s -> is_Some (Js.index gallery i);
  q_handled : handled_all s }.

(** A document operation that registers no listener and arms no timer
    other than a cleanup or a navigation to a position of the gallery. *)
Definition calm (gallery : list string) (s s' : State) : Prop :=
  dom_only s s' /\
  (forall h, h ∈ listeners s' -> h ∈ listeners s) /\
  (forall t i, (t, TShow i) ∈ timers s' ->
     (t, TShow i) ∈ timers s \/ is_Some (Js.index gallery i)).

(** Every promise but those listed has a rejection handler. *)
Definition handled_but (pids : list nat) (s : State) : Prop :=
  forall pid p, promises s !! pid = Some p -> p_handled p = true \/ pid ∈ pids.

(** Calls of the entry point made with a position of the gallery. *)
Definition in_bounds (gallery : list string) (ev : Event) : Prop :=
  match ev with
  | EvShowArch i => (0 <= i < Js.len gallery)%Z
  | _ => True
  end.

(** An identifier that names a video: it ends in [.mp4] or in [.webm]. *)
Definition is_video_name (src : string) : Prop :=
  ends_in src ".mp4" \/ ends_in src ".webm".

(** The overlay the document shows is the overlay [oid], made for [src]. *)
Definition shows (s : State) (oid : nat) (src : string) : Prop :=
  body s = [oid] /\
  exists isVideo, nodes s !! oid = Some (new_overlay oid src isVideo).

(** [showProjectImages(z, images)] shows [images[z]] and then calls
    [preload] on the item at [(z + 1) mod length], with the logging
    [catch]. *)
Definition preloads_next (images : list string) (z : Z) (s : State) : Prop :=
  exists src nextSrc,
    Js.index images (Js.Int z) = Some src /\
    Js.index images (Js.Int ((z + 1) `mod` Js.len images)) = Some nextSrc /\
    let s1 := showPreview src (Js.endsWith src ".mp4" || Js.endsWith src ".webm") s in
    showProjectImages (Js.Int z) images s =
    Ok (catch_warn (PreloadManager.preload nextSrc s1).1 nextSrc
          (PreloadManager.preload nextSrc s1).2).

(** The timer queue of the page: the callbacks are in order of due time; a
    pending cleanup is the cleanup of an overlay that was created; a
    pending navigation is due within 300 ms. *)
Definition timers_ok (s : State) : Prop :=
  StronglySorted (fun x y : nat * TimerAction => x.1 <= y.1) (timers s) /\
  forall t a, (t, a) ∈ timers s ->
    match a with
    | TCleanup oid => oid < next_id s
    | TShow _ => t <= now s + 300
    end.

(** [s'] comes after [s] and has left the media elements of [s] alone. *)
Definition loaders_kept (s s' : State) : Prop :=
  next_id s <= next_id s' /\
  forall e, e < next_id s -> loaders s' !! e = loaders s !! e.

(** * Properties *)

(** ** JavaScript primitives *)

Lemma append_cons c (a b : string) : String c a +:+ b = String c (a +:+ b).
Proof. reflexivity. Qed.

Lemma append_nil (b : string) : EmptyString +:+ b = b.
Proof. reflexivity. Qed.

Lemma string_length_app (a b : string) :
  String.length (a +:+ b) = String.length a + String.length b.
Proof.
  induction a as [|c a IH]; [reflexivity|].
  rewrite append_cons. simpl. by rewrite IH.
Qed.

Lemma substring_whole (t : string) : substring 0 (String.length t) t = t.
Proof. induction t as [|c t IH]; simpl; [done|by rewrite IH]. Qed.

Lemma substring_skip (p t : string) m :
  substring (String.length p) m (p +:+ t) = substring 0 m t.
Proof.
  induction p as [|c p IH]; [reflexivity|].
  rewrite append_cons. simpl. apply IH.
Qed.

Lemma substring_split (s : string) k :
  k ≤ String.length s ->
  s = substring 0 k s +:+ substring k (String.length s - k) s.
Proof.
  revert k. induction s as [|c s IH]; intros k Hk.
  - simpl in Hk. assert (k = 0) as -> by lia. reflexivity.
  - destruct k as [|k].
    + simpl. rewrite append_nil. by rewrite substring_whole.
    + simpl in *. rewrite append_cons. f_equal. apply IH. lia.
Qed.

Lemma endsWith_spec s t : Js.endsWith s t = true <-> ends_in s t.
Proof.
  unfold Js.endsWith, ends_in. split.
  - destruct (Nat.leb_spec (String.length t) (String.length s)) as [Hle|]; [|done].
    intros Heq%String.eqb_eq.
    exists (substring 0 (String.length s - String.length t) s).
    pose proof (substring_split s (String.length s - String.length t) ltac:(lia)) as Hs.
    replace (String.length s - (String.length s - String.length t))
      with (String.length t) in Hs by lia.
    by rewrite Heq in Hs.
  - intros [p ->]. rewrite string_length_app.
    destruct (Nat.leb_spec (String.length t) (String.length p + String.length t)); [|lia].
    replace (String.length p + String.length t - String.length t)
      with (String.length p) by lia.
    rewrite substring_skip, substring_whole. apply String.eqb_refl.
Qed.

Lemma indexOf_from_bounds arr x i :
  Js.indexOf_from arr x i = (-1)%Z \/
  (i <= Js.indexOf_from arr x i < i + Js.len arr)%Z.
Proof.
  revert i. induction arr as [|y arr IH]; intros i; simpl; [by left|].
  unfold Js.len. simpl length.
  destruct (String.eqb y x); [right; lia|].
  destruct (IH (i + 1)%Z) as [->|H]; [by left|]. unfold Js.len in H. right. lia.
Qed.

Lemma indexOf_from_absent arr x i :
  (0 <= i)%Z -> x ∉ arr <-> Js.indexOf_from arr x i = (-1)%Z.
Proof.
  revert i. induction arr as [|y arr IH]; intros i Hi; simpl.
  - split; [done|]. intros _. apply not_elem_of_nil.
  - destruct (String.eqb_spec y x) as [->|Hne].
    + split; [intros H; exfalso; apply H; left|lia].
    + rewrite <- (IH (i + 1)%Z) by lia. rewrite not_elem_of_cons.
      split; [by intros [_ ?]|by intros ?; split].
Qed.

Lemma indexOf_from_found arr x i :
  (0 <= i)%Z -> Js.indexOf_from arr x i ≠ (-1)%Z ->
  arr !! Z.to_nat (Js.indexOf_from arr x i - i) = Some x.
Proof.
  revert i. induction arr as [|y arr IH]; intros i Hi; simpl; [done|].
  destruct (String.eqb_spec y x) as [->|Hne]; intros Hf.
  - by rewrite Z.sub_diag.
  - destruct (indexOf_from_bounds arr x (i + 1)) as [?|Hb]; [done|].
    specialize (IH (i + 1)%Z ltac:(lia) Hf).
    replace (Z.to_nat (Js.indexOf_from arr x (i + 1) - i))
      with (S (Z.to_nat (Js.indexOf_from arr x (i + 1) - (i + 1)))) by lia.
    exact IH.
Qed.

(** [indexOf] is [-1] exactly when the element is absent; otherwise it is a
    position of the array that holds the element. *)
Lemma indexOf_absent arr x : x ∉ arr <-> Js.indexOf arr x = (-1)%Z.
Proof. apply indexOf_from_absent. lia. Qed.

Lemma indexOf_present arr x :
  x ∈ arr ->
  (0 <= Js.indexOf arr x < Js.len arr)%Z /\
  Js.index arr (Js.Int (Js.indexOf arr x)) = Some x.
Proof.
  intros Hin. unfold Js.indexOf.
  assert (Js.indexOf_from arr x 0 ≠ (-1)%Z) as Hne.
  { intros H. by apply (indexOf_from_absent arr x 0) in H. }
  destruct (indexOf_from_bounds arr x 0) as [?|Hb]; [done|].
  split; [lia|]. simpl.
  destruct (Z.leb_spec 0 (Js.indexOf_from arr x 0)); [|lia].
  pose proof (indexOf_from_found arr x 0 ltac:(lia) Hne) as Hfound.
  by rewrite Z.sub_0_r in Hfound.
Qed.

Lemma index_in_range arr z :
  (0 <= z < Js.len arr)%Z -> exists x, Js.index arr (Js.Int z) = Some x /\ x ∈ arr.
Proof.
  intros H. unfold Js.len in H. simpl.
  destruct (Z.leb_spec 0 z); [|lia].
  destruct (lookup_lt_is_Some_2 arr (Z.to_nat z) ltac:(lia)) as [x Hx].
  exists x. split; [done|]. by eapply list_elem_of_lookup_2.
Qed.

Lemma index_Some_range arr i x :
  Js.index arr i = Some x -> exists z, i = Js.Int z /\ (0 <= z < Js.len arr)%Z /\ x ∈ arr.
Proof.
  destruct i as [z|]; simpl; [|done].
  destruct (Z.leb_spec 0 z); [|done]. intros Hx.
  exists z. split; [done|]. apply lookup_lt_Some in Hx as Hlt.
  unfold Js.len. split; [lia|]. by eapply list_elem_of_lookup_2.
Qed.

(** ** Well-formedness is kept by every operation *)

Lemma wf_empty : wf empty_state.
Proof.
  split; simpl.
  - intros pid [? H]. by rewrite lookup_empty in H.
  - intros c H. by apply elem_of_nil in H.
  - intros e l H. by rewrite lookup_empty in H.
  - intros src h H. by rewrite lookup_empty in H.
  - intros oid o H. by rewrite lookup_empty in H.
  - by left.
Qed.

(** A state that differs only in fields the invariant does not read. *)
Lemma wf_frame s s' :
  promises s' = promises s -> catches s' = catches s -> loaders s' = loaders s ->
  cache s' = cache s -> nodes s' = nodes s -> body s' = body s ->
  listeners s' = listeners s -> next_id s' = next_id s ->
  wf s -> wf s'.
Proof.
  intros Hp Hc Hl Hca Hn Hb Hli Hid [W1 W2 W3 W4 W5 W6].
  split; unfold owner_ok, dom_ok in *; rewrite ?Hp, ?Hc, ?Hl, ?Hca, ?Hn, ?Hb, ?Hli, ?Hid; auto.
Qed.

Lemma wf_console_warn msg s : wf s -> wf (console_warn msg s).
Proof. by apply wf_frame. Qed.

Lemma wf_report_uncaught e s : wf s -> wf (report_uncaught e s).
Proof. by apply wf_frame. Qed.

Lemma wf_setTimeout a d s : wf s -> wf (setTimeout a d s).
Proof. by apply wf_frame. Qed.

Lemma wf_set_now v s : wf s -> wf (set_now v s).
Proof. by apply wf_frame. Qed.

Lemma wf_set_timers v s : wf s -> wf (set_timers v s).
Proof. by apply wf_frame. Qed.

Lemma wf_set_thens v s : wf s -> wf (set_thens v s).
Proof. by apply wf_frame. Qed.

Lemma wf_set_requests v s : wf s -> wf (set_requests v s).
Proof. by apply wf_frame. Qed.

Lemma owner_ok_mono s s' l :
  next_id s <= next_id s' ->
  (forall oid o, nodes s !! oid = Some o ->
     exists o', nodes s' !! oid = Some o' /\ o_keyNavHandler o' = o_keyNavHandler o) ->
  owner_ok s l -> owner_ok s' l.
Proof.
  intros Hid Hn. unfold owner_ok. destruct (l_owner l) as [pid src|oid src].
  - intros [? ?]. split; [lia|done].
  - intros (o & Ho & Hk). destruct (Hn _ _ Ho) as (o' & Ho' & Hk').
    exists o'. split; [done|congruence].
Qed.

(** Fields the invariant reads are unchanged, except that [next_id] may
    grow and promises may be added below it. *)
Lemma wf_grow s s' :
  next_id s <= next_id s' ->
  (forall pid, is_Some (promises s' !! pid) -> pid < next_id s') ->
  catches s' = catches s -> loaders s' = loaders s ->
  cache s' = cache s -> nodes s' = nodes s -> body s' = body s ->
  listeners s' = listeners s ->
  wf s -> wf s'.
Proof.
  intros Hid Hp Hc Hl Hca Hn Hb Hli [W1 W2 W3 W4 W5 W6].
  split; unfold dom_ok in *; rewrite ?Hc, ?Hl, ?Hca, ?Hn, ?Hb, ?Hli; auto.
  - intros c Hin. specialize (W2 c Hin). lia.
  - intros e l H. destruct (W3 e l H) as [? Hok]. split; [lia|].
    eapply owner_ok_mono; [done| |done]. intros oid o Ho. exists o. by rewrite Hn.
  - intros oid o H. destruct (W5 oid o H). split; [lia|done].
Qed.

Lemma wf_alloc_promise p s :
  wf s ->
  wf (set_next_id (S (next_id s)) (set_promises (<[next_id s := p]> (promises s)) s)).
Proof.
  intros W. apply (wf_grow s); [simpl; lia| |reflexivity..|exact W]; simpl.
  intros pid. rewrite lookup_insert_is_Some. intros [->|[_ H]]; [lia|].
  apply (wf_promises _ W) in H. lia.
Qed.

Lemma wf_update_promise pid p s :
  is_Some (promises s !! pid) -> wf s ->
  wf (set_promises (<[pid := p]> (promises s)) s).
Proof.
  intros Hpid W. apply (wf_grow s); [simpl; lia| |reflexivity..|exact W]; simpl.
  intros pid'. rewrite lookup_insert_is_Some. intros [<-|[_ H]]; by apply (wf_promises _ W).
Qed.

Lemma wf_set_catches v s :
  (forall c, c ∈ v -> c.1 < next_id s) -> wf s -> wf (set_catches v s).
Proof.
  intros Hv [W1 W2 W3 W4 W5 W6]. split; auto.
Qed.

Lemma wf_drop_catches pid s : wf s -> wf (drop_catches pid s).
Proof.
  intros W. apply wf_set_catches; [|done].
  intros c [_ Hin]%list_elem_of_filter. by apply (wf_catches _ W).
Qed.

Lemma wf_foldl {A} (f : State -> A -> State) (l : list A) s :
  (forall acc x, wf acc -> wf (f acc x)) -> wf s -> wf (foldl f s l).
Proof.
  intros Hf. revert s. induction l as [|x l IH]; intros s W; simpl; [done|].
  apply IH. by apply Hf.
Qed.

Lemma wf_resolve pid h s : wf s -> wf (resolve pid h s).
Proof.
  intros W. unfold resolve.
  destruct (promises s !! pid) as [[[] hd]|] eqn:E; try done.
  apply wf_drop_catches, wf_update_promise; [by rewrite E|done].
Qed.

Lemma wf_warn_preload src s : wf s -> wf (warn_preload src s).
Proof. apply wf_console_warn. Qed.

Lemma wf_reject pid e s : wf s -> wf (reject pid e s).
Proof.
  intros W. unfold reject.
  destruct (promises s !! pid) as [[[] hd]|] eqn:E; try done.
  assert (wf (foldl (fun acc c => warn_preload c.2 acc)
     (drop_catches pid (set_promises (<[pid:=mkPromise (Rejected e) hd]> (promises s)) s))
     (filter (fun c => c.1 = pid)
        (catches (set_promises (<[pid:=mkPromise (Rejected e) hd]> (promises s)) s))))).
  { apply wf_foldl; [intros; by apply wf_warn_preload|].
    apply wf_drop_catches, wf_update_promise; [by rewrite E|done]. }
  destruct hd; [done|by apply wf_report_uncaught].
Qed.

Lemma wf_mark_handled pid s : wf s -> wf (mark_handled pid s).
Proof.
  intros W. unfold mark_handled. destruct (promises s !! pid) eqn:E; [|done].
  apply wf_update_promise; [by rewrite E|done].
Qed.

Lemma mark_handled_lookup pid s :
  promises (mark_handled pid s) !! pid =
  (fun p => mkPromise (p_state p) true) <$> promises s !! pid.
Proof.
  unfold mark_handled. destruct (promises s !! pid) eqn:E; simpl.
  - by rewrite lookup_insert_eq.
  - by rewrite E.
Qed.

Lemma wf_catch_warn pid src s : wf s -> wf (catch_warn pid src s).
Proof.
  intros W. unfold catch_warn.
  pose proof (wf_mark_handled pid s W) as W1.
  destruct (promises (mark_handled pid s) !! pid) as [[[] hd]|] eqn:E; try done.
  - apply wf_set_catches; [|done]. intros c [Hin| ->%list_elem_of_singleton]%elem_of_app.
    + by apply (wf_catches _ W1).
    + simpl. apply (wf_promises _ W1). by rewrite E.
  - by apply wf_warn_preload.
Qed.

Lemma wf_add_loader l s :
  owner_ok s l -> wf s ->
  wf (set_next_id (S (next_id s)) (set_loaders (<[next_id s := l]> (loaders s)) s)).
Proof.
  intros Hl [W1 W2 W3 W4 W5 W6]. split; simpl; auto.
  - intros pid H. specialize (W1 pid H). lia.
  - intros c H. specialize (W2 c H). lia.
  - intros e l' [[<- <-]|[_ H]]%lookup_insert_Some.
    + split; [lia|]. eapply owner_ok_mono; [| |exact Hl]; simpl; [lia|eauto].
    + destruct (W3 e l' H). split; [lia|].
      eapply owner_ok_mono; [| |done]; simpl; [lia|eauto].
  - intros oid o H. destruct (W5 oid o H). split; [lia|done].
Qed.

Lemma wf_Promise_new s : wf s -> wf (Promise_new s).2.
Proof. apply wf_alloc_promise. Qed.

Lemma wf_Promise_resolve h s : wf s -> wf (Promise_resolve h s).2.
Proof. apply wf_alloc_promise. Qed.

Lemma wf_preload src s : wf s -> wf (PreloadManager.preload src s).2.
Proof.
  intros W. unfold PreloadManager.preload.
  destruct (cache s !! src); [by apply wf_Promise_resolve|].
  simpl. apply (wf_add_loader _ (set_requests _ (Promise_new s).2)).
  - unfold owner_ok. simpl. split; [lia|done].
  - by apply wf_set_requests, wf_Promise_new.
Qed.

Lemma wf_map_preload sources s : wf s -> wf (PreloadManager.map_preload sources s).2.
Proof.
  revert s. induction sources as [|src rest IH]; intros s W; simpl; [done|].
  pose proof (wf_preload src s W) as W1.
  destruct (PreloadManager.preload src s) as [pid s1]. simpl in W1.
  specialize (IH s1 W1). destruct (PreloadManager.map_preload rest s1) as [pids s2].
  exact IH.
Qed.

Lemma wf_foldr_mark_handled pids s : wf s -> wf (foldr mark_handled s pids).
Proof.
  intros W. induction pids as [|pid pids IH]; simpl; [done|]. by apply wf_mark_handled.
Qed.

Lemma wf_preloadAll sources s : wf s -> wf (PreloadManager.preloadAll sources s).2.
Proof.
  intros W. unfold PreloadManager.preloadAll.
  pose proof (wf_map_preload sources s W) as W1.
  destruct (PreloadManager.map_preload sources s) as [pids s1]. simpl in *.
  by apply wf_foldr_mark_handled.
Qed.

(** *** Overlay operations *)

Lemma wf_update_node oid f s :
  (forall o, "preview-overlay" ∈ o_classes o -> "preview-overlay" ∈ o_classes (f o)) ->
  (forall o, o_escHandler (f o) = o_escHandler o) ->
  (forall o, o_keyNavHandler (f o) = o_keyNavHandler o) ->
  wf s -> wf (update_node oid f s).
Proof.
  intros Hc He Hk [W1 W2 W3 W4 W5 W6]. unfold update_node.
  destruct (nodes s !! oid) as [o|] eqn:Eo; [|by split].
  split; simpl; auto.
  - intros e l H. destruct (W3 e l H) as [? Hok]. split; [done|].
    eapply owner_ok_mono; [| |exact Hok]; simpl; [lia|].
    intros oid' o' Ho'. destruct (decide (oid' = oid)) as [->|Hne].
    + exists (f o). rewrite lookup_insert_eq. split; [done|]. rewrite Hk. congruence.
    + exists o'. by rewrite lookup_insert_ne.
  - intros oid' o' [[<- <-]|[_ H]]%lookup_insert_Some; [|by apply W5].
    destruct (W5 oid o Eo) as (? & ? & ? & src & ?). split; [done|].
    unfold node_ok. rewrite He, Hk. eauto.
  - destruct W6 as [?|(oid' & o' & Hb & Ho' & Hl)]; [by left|]. right.
    destruct (decide (oid' = oid)) as [->|Hne].
    + exists oid, (f o). simpl in *. rewrite lookup_insert_eq, He, Hk.
      split_and!; [done..|congruence].
    + exists oid', o'. simpl in *. by rewrite lookup_insert_ne.
Qed.

Lemma classList_remove_keeps c c' o :
  c ≠ c' -> c ∈ o_classes o -> c ∈ o_classes (classList_remove c' o).
Proof. intros Hne Hin. simpl. by apply list_elem_of_filter. Qed.

Lemma classList_add_keeps c c' o :
  c ∈ o_classes o -> c ∈ o_classes (classList_add c' o).
Proof.
  intros Hin. unfold classList_add. case_bool_decide; [done|]. simpl.
  apply elem_of_app. by left.
Qed.

Lemma classList_add_handlers c o :
  o_escHandler (classList_add c o) = o_escHandler o /\
  o_keyNavHandler (classList_add c o) = o_keyNavHandler o.
Proof. unfold classList_add. by case_bool_decide. Qed.

Lemma wf_closePreview oid s : wf s -> wf (closePreview oid s).
Proof.
  intros W. apply wf_setTimeout, wf_update_node; [|done..].
  intros o. by apply classList_remove_keeps.
Qed.

Lemma wf_loadHandler oid s : wf s -> wf (loadHandler oid s).
Proof.
  intros W. apply wf_update_node; [| | |done].
  - intros o H. by apply classList_add_keeps, classList_remove_keeps.
  - intros o. by rewrite (proj1 (classList_add_handlers _ _)).
  - intros o. by rewrite (proj2 (classList_add_handlers _ _)).
Qed.

Lemma wf_content_onerror oid src s : wf s -> wf (content_onerror oid src s).
Proof. intros W. by apply wf_setTimeout, wf_update_node. Qed.

Lemma wf_overlay_onclick oid b s : wf s -> wf (overlay_onclick oid b s).
Proof. intros W. unfold overlay_onclick. destruct b; [by apply wf_closePreview|done]. Qed.

Lemma wf_escHandler oid key s : wf s -> wf (escHandler oid key s).
Proof. intros W. unfold escHandler. case_match; [by apply wf_closePreview|done]. Qed.

Lemma wf_keyNavHandler gallery oid src key s :
  wf s -> wf (keyNavHandler gallery oid src key s).
Proof.
  intros W. unfold keyNavHandler. case_match; [|done].
  by apply wf_setTimeout, wf_closePreview.
Qed.

Lemma wf_keydown gallery key s : wf s -> wf (keydown gallery key s).
Proof.
  intros W. unfold keydown. apply wf_foldl; [|done].
  intros acc [oid|oid src] Wacc; simpl; [by apply wf_escHandler|by apply wf_keyNavHandler].
Qed.


(** *** cleanup and showPreview on a well-formed document *)

(** Two states with the same fields are the same state. *)
Lemma state_eq s s' :
  cache s = cache s' -> promises s = promises s' -> catches s = catches s' ->
  thens s = thens s' -> loaders s = loaders s' -> requests s = requests s' ->
  nodes s = nodes s' -> body s = body s' -> listeners s = listeners s' ->
  timers s = timers s' -> now s = now s' -> console s = console s' ->
  uncaught s = uncaught s' -> next_id s = next_id s' -> s = s'.
Proof. destruct s, s'; simpl; intros; by subst. Qed.

Lemma filter_two_handlers (e k : Listener) :
  e ≠ k ->
  filter (fun x => x ≠ k) (filter (fun x => x ≠ e) [e; k]) = [].
Proof.
  intros Hne.
  rewrite (filter_cons_False _ e) by (intros H; by apply H).
  rewrite (filter_cons_True _ k) by (intros H; by apply Hne).
  rewrite filter_nil.
  rewrite (filter_cons_False _ k) by (intros H; by apply H).
  by rewrite filter_nil.
Qed.

Lemma filter_absent {A} `{EqDecision A} (x : A) (l : list A) :
  x ∉ l -> filter (fun y => y ≠ x) l = l.
Proof.
  intros Hx. induction l as [|y l IH]; [done|].
  apply not_elem_of_cons in Hx as [Hne Hx].
  rewrite filter_cons_True by done. by rewrite IH.
Qed.

Lemma node_handlers_differ oid o : node_ok oid o -> o_escHandler o ≠ o_keyNavHandler o.
Proof. intros (_ & -> & src & ->). done. Qed.

(** The first overlay found in the document: none when the document is
    empty, the only one otherwise. *)
Lemma querySelector_wf s :
  wf s -> querySelector_preview_overlay s = head (body s).
Proof.
  intros W. unfold querySelector_preview_overlay.
  destruct (wf_dom _ W) as [[-> _]|(oid & o & -> & Ho & _)]; [done|].
  simpl. unfold is_preview_overlay. rewrite Ho.
  destruct (wf_nodes _ W oid o Ho) as (_ & Hc & _).
  unfold has_class. by rewrite bool_decide_eq_true_2.
Qed.

(** Removing the overlay [oid] and its listeners: the document is left
    empty when [oid] was the overlay shown, untouched otherwise. *)
Lemma cleanup_wf_fields oid s :
  wf s ->
  (body s = [oid] /\ body (cleanup oid s) = [] /\ listeners (cleanup oid s) = []) \/
  ((oid ∉ body s) /\ body (cleanup oid s) = body s /\ listeners (cleanup oid s) = listeners s).
Proof.
  intros W. unfold cleanup.
  destruct (nodes s !! oid) as [o|] eqn:Eo.
  - destruct (wf_nodes _ W oid o Eo) as (_ & Hok).
    destruct (wf_dom _ W) as [[Hb Hl]|(oid' & o' & Hb & Ho' & Hl)]; simpl.
    + right. rewrite Hb, Hl. split; [apply not_elem_of_nil|done].
    + destruct (decide (oid' = oid)) as [->|Hne].
      * left. rewrite Hb, Hl. assert (o' = o) as -> by congruence.
        split; [done|]. split.
        -- rewrite filter_cons_False by (intros H; by apply H). done.
        -- apply filter_two_handlers. by eapply node_handlers_differ.
      * right. rewrite Hb, Hl.
        destruct (wf_nodes _ W oid' o' Ho') as (_ & _ & He' & src' & Hk').
        destruct Hok as (_ & He & src & Hk). rewrite He, Hk, He', Hk'.
        split; [by intros ->%list_elem_of_singleton|]. split.
        -- by rewrite filter_cons_True by done.
        -- rewrite (filter_cons_True _ (EscHandler oid')) by congruence.
           rewrite (filter_cons_True _ (KeyNavHandler oid' src')) by congruence.
           rewrite filter_nil.
           rewrite (filter_cons_True _ (EscHandler oid')) by congruence.
           by rewrite (filter_cons_True _ (KeyNavHandler oid' src')) by congruence.
  - right. split; [|done]. intros Hin.
    destruct (wf_dom _ W) as [[Hb _]|(oid' & o' & Hb & Ho' & _)]; rewrite Hb in Hin.
    + by apply elem_of_nil in Hin.
    + apply list_elem_of_singleton in Hin as ->. congruence.
Qed.

Lemma cleanup_frame oid s :
  cache (cleanup oid s) = cache s /\ promises (cleanup oid s) = promises s /\
  catches (cleanup oid s) = catches s /\ thens (cleanup oid s) = thens s /\
  loaders (cleanup oid s) = loaders s /\ requests (cleanup oid s) = requests s /\
  nodes (cleanup oid s) = nodes s /\ timers (cleanup oid s) = timers s /\
  now (cleanup oid s) = now s /\ console (cleanup oid s) = console s /\
  uncaught (cleanup oid s) = uncaught s /\ next_id (cleanup oid s) = next_id s.
Proof. unfold cleanup. by destruct (nodes s !! oid). Qed.

Lemma wf_cleanup oid s : wf s -> wf (cleanup oid s).
Proof.
  intros W.
  destruct (cleanup_frame oid s) as (Hca & Hp & Hc & _ & Hl & _ & Hn & _ & _ & _ & _ & Hid).
  pose proof W as [W1 W2 W3 W4 W5 W6].
  split; unfold owner_ok in *; rewrite ?Hca, ?Hp, ?Hc, ?Hl, ?Hn, ?Hid; auto.
  unfold dom_ok. rewrite Hn.
  destruct (cleanup_wf_fields oid s W) as [(_ & -> & ->)|(_ & -> & ->)]; [by left|done].
Qed.

(** [showPreview] on a well-formed state, field by field. *)
Lemma showPreview_wf_eq src isVideo s :
  wf s ->
  showPreview src isVideo s =
  mkState (cache s) (promises s) (catches s) (thens s)
    (<[S (next_id s) := new_content (next_id s) src isVideo]> (loaders s))
    (requests s ++ [src])
    (<[next_id s := new_overlay (next_id s) src isVideo]> (nodes s))
    [next_id s]
    [EscHandler (next_id s); KeyNavHandler (next_id s) src]
    (timers s) (now s) (console s) (uncaught s) (S (S (next_id s))).
Proof.
  intros W. unfold showPreview. rewrite (querySelector_wf s W).
  set (s1 := match head (body s) with Some _ => _ | None => _ end).
  assert (body s1 = [] /\ listeners s1 = [] /\ cache s1 = cache s /\
          promises s1 = promises s /\ catches s1 = catches s /\ thens s1 = thens s /\
          loaders s1 = loaders s /\ requests s1 = requests s /\ nodes s1 = nodes s /\
          timers s1 = timers s /\ now s1 = now s /\ console s1 = console s /\
          uncaught s1 = uncaught s /\ next_id s1 = next_id s) as Hs1.
  { subst s1. destruct (wf_dom _ W) as [[Hb Hl]|(oid & o & Hb & Ho & Hl)].
    - rewrite Hb. simpl. by rewrite Hb, Hl.
    - rewrite Hb. simpl. rewrite Ho. simpl. rewrite Hb, Hl.
      rewrite filter_cons_False by (intros H; by apply H).
      rewrite filter_two_handlers; [done|].
      eapply node_handlers_differ. by apply (wf_nodes _ W oid o Ho). }
  clearbody s1.
  destruct Hs1 as (Hb & Hl & Hca & Hp & Hc & Ht & Hlo & Hr & Hn & Hti & Hnow & Hco & Hu & Hid).
  unfold addEventListener, update_node. simpl. rewrite Hl.
  rewrite (bool_decide_eq_false_2 (EscHandler _ ∈ [])) by apply not_elem_of_nil. simpl.
  rewrite lookup_insert_eq.
  apply state_eq; simpl; rewrite ?insert_insert_eq, ?Hb, ?Hid, ?Hlo, ?Hn, ?Hr; done.
Qed.

Lemma wf_showPreview src isVideo s : wf s -> wf (showPreview src isVideo s).
Proof.
  intros W. rewrite (showPreview_wf_eq src isVideo s W).
  pose proof W as [W1 W2 W3 W4 W5 W6]. split; simpl; auto.
  - intros pid H. specialize (W1 pid H). lia.
  - intros c H. specialize (W2 c H). lia.
  - intros e l [[<- <-]|[_ H]]%lookup_insert_Some.
    + split; [lia|]. unfold owner_ok. simpl. exists (new_overlay (next_id s) src isVideo).
      by rewrite lookup_insert_eq.
    + destruct (W3 e l H) as [Hlt Hok]. split; [lia|].
      eapply owner_ok_mono; [| |exact Hok]; simpl; [lia|].
      intros oid o Ho. exists o. split; [|done].
      rewrite lookup_insert_ne; [done|]. destruct (W5 oid o Ho). lia.
  - intros oid o [[<- <-]|[_ H]]%lookup_insert_Some.
    + split; [lia|]. unfold node_ok. simpl. split; [apply list_elem_of_here|eauto].
    + destruct (W5 oid o H). split; [lia|done].
  - right. exists (next_id s), (new_overlay (next_id s) src isVideo). simpl.
    by rewrite lookup_insert_eq.
Qed.

Lemma wf_settle_result r : (forall s, r = Ok s -> wf s) ->
  (forall e s, r = Throw e s -> wf s) -> wf (settle_result r).
Proof.
  intros H1 H2. destruct r as [s|e s]; simpl; [by apply H1|].
  apply wf_report_uncaught. by eapply H2.
Qed.

Lemma wf_showProjectImages index images s :
  wf s -> wf (settle_result (showProjectImages index images s)).
Proof.
  intros W. unfold showProjectImages.
  destruct (Js.index images index) as [src|]; [|by apply wf_report_uncaught].
  set (v := Js.endsWith src ".mp4" || Js.endsWith src ".webm").
  pose proof (wf_showPreview src v s W) as W1.
  destruct (Js.strict_neq _ _); [|done].
  destruct (Js.index images _) as [nextSrc|]; [|by apply wf_warn_preload].
  pose proof (wf_preload nextSrc _ W1) as W2.
  destruct (PreloadManager.preload nextSrc _) as [p s2]. simpl in *.
  by apply wf_catch_warn.
Qed.

Lemma wf_run_timer gallery s t : wf s -> wf (run_timer gallery s t).
Proof.
  intros W. unfold run_timer. destruct (t.2) as [oid|i].
  - by apply wf_cleanup, wf_set_now.
  - by apply wf_showProjectImages, wf_set_now.
Qed.

Lemma wf_advance gallery d s : wf s -> wf (advance gallery d s).
Proof.
  intros W. unfold advance. apply wf_set_now, wf_foldl.
  - intros acc t. apply wf_run_timer.
  - by apply wf_set_timers.
Qed.

Lemma wf_update_loader e l ph s :
  loaders s !! e = Some l -> wf s ->
  wf (set_loaders (<[e := mkLoader (l_elem l) (l_owner l) ph]> (loaders s)) s).
Proof.
  intros He [W1 W2 W3 W4 W5 W6]. split; simpl; auto.
  intros e' l' [[<- <-]|[_ H]]%lookup_insert_Some; [|by apply W3].
  destruct (W3 e l He) as [? Hok]. split; [done|]. exact Hok.
Qed.

Lemma wf_preload_onload pid src el s :
  el_src el = src -> wf s -> wf (preload_onload pid src el s).
Proof.
  intros Hsrc W. apply wf_resolve.
  pose proof W as [W1 W2 W3 W4 W5 W6]. split; simpl; auto.
  intros src' h [[<- <-]|[_ H]]%lookup_insert_Some; [done|by apply W4].
Qed.

Lemma wf_preload_onerror pid src k s : wf s -> wf (preload_onerror pid src k s).
Proof. apply wf_reject. Qed.

Lemma wf_run_handler l sig s :
  owner_ok s l -> wf s -> wf (run_handler l sig s).
Proof.
  intros Hok W. unfold run_handler. unfold owner_ok in Hok.
  destruct (l_owner l) as [pid src|oid src].
  - destruct Hok as [_ Hsrc].
    destruct (el_kind (l_elem l)), sig;
      first [done | by apply wf_preload_onload | by apply wf_preload_onerror].
  - destruct (el_kind (l_elem l)), sig;
      first [by apply wf_loadHandler | by apply wf_content_onerror].
Qed.

Lemma wf_fire_signal el sig s : wf s -> wf (fire_signal el sig s).
Proof.
  intros W. unfold fire_signal.
  destruct (loaders s !! el) as [l|] eqn:El; [|done].
  destruct (next_phase _ _ _) as [ph|]; [|done].
  pose proof (wf_update_loader el l ph s El W) as W1.
  apply (wf_run_handler l sig); [|done].
  destruct (wf_loaders _ W el l El) as [_ Hok]. exact Hok.
Qed.

Lemma wf_initializeProjectGallery images s :
  wf s -> wf (initializeProjectGallery images s).
Proof.
  intros W. unfold initializeProjectGallery.
  pose proof (wf_preloadAll (take 5 images) s W) as W1.
  destruct (PreloadManager.preloadAll _ s) as [pids s1]. by apply wf_set_thens.
Qed.

Lemma wf_then_callback rest s : wf s -> wf (then_callback rest s).
Proof.
  intros W. unfold then_callback. case_match; [by apply wf_preloadAll|done].
Qed.

Lemma wf_checkpoint s : wf s -> wf (checkpoint s).
Proof.
  intros W. unfold checkpoint. apply wf_foldl.
  - intros acc t. apply wf_then_callback.
  - by apply wf_set_thens.
Qed.

Lemma wf_task gallery ev s : wf s -> wf (task gallery ev s).
Proof.
  intros W. destruct ev; simpl.
  - by apply wf_initializeProjectGallery.
  - by apply wf_showProjectImages.
  - by apply wf_keydown.
  - case_bool_decide; [by apply wf_overlay_onclick|done].
  - by apply wf_fire_signal.
  - by apply wf_advance.
Qed.

Lemma wf_step gallery s ev : wf s -> wf (step gallery s ev).
Proof. intros W. by apply wf_checkpoint, wf_task. Qed.

Lemma wf_run gallery evs s : wf s -> wf (run gallery evs s).
Proof. intros W. apply wf_foldl; [intros; by apply wf_step|done]. Qed.

(** Every state the page can reach is well formed. *)
Lemma reachable_wf gallery s : reachable gallery s -> wf s.
Proof.
  induction 1 as [|s ev _ IH]; [apply wf_empty|by apply wf_step].
Qed.

Lemma reachable_run gallery evs s :
  reachable gallery s -> reachable gallery (run gallery evs s).
Proof.
  revert s. induction evs as [|ev evs IH]; intros s H; simpl; [done|].
  apply IH. by constructor.
Qed.

(** ** preload, field by field *)

Lemma preload_cached_eq src h s :
  cache s !! src = Some h ->
  PreloadManager.preload src s =
  (next_id s,
   mkState (cache s) (<[next_id s := mkPromise (Fulfilled h) false]> (promises s))
     (catches s) (thens s) (loaders s) (requests s) (nodes s) (body s) (listeners s)
     (timers s) (now s) (console s) (uncaught s) (S (next_id s))).
Proof. intros H. unfold PreloadManager.preload. by rewrite H. Qed.

Lemma preload_uncached_eq src s :
  cache s !! src = None ->
  PreloadManager.preload src s =
  (next_id s,
   mkState (cache s) (<[next_id s := mkPromise Pending false]> (promises s))
     (catches s) (thens s)
     (<[S (next_id s) :=
          mkLoader
            (mkElement (S (next_id s))
               (if Js.endsWith src ".mp4" || Js.endsWith src ".webm" then Video else Img) src)
            (PreloadOf (next_id s) src) Loading]> (loaders s))
     (requests s ++ [src]) (nodes s) (body s) (listeners s)
     (timers s) (now s) (console s) (uncaught s) (S (S (next_id s)))).
Proof. intros H. unfold PreloadManager.preload. by rewrite H. Qed.

Lemma preload_fst src s : (PreloadManager.preload src s).1 = next_id s.
Proof.
  destruct (cache s !! src) eqn:E.
  - by rewrite (preload_cached_eq _ _ _ E).
  - by rewrite (preload_uncached_eq _ _ E).
Qed.

Lemma preload_frame src s :
  let s' := (PreloadManager.preload src s).2 in
  cache s' = cache s /\ catches s' = catches s /\ thens s' = thens s /\
  nodes s' = nodes s /\ body s' = body s /\ listeners s' = listeners s /\
  timers s' = timers s /\ now s' = now s /\ console s' = console s /\
  uncaught s' = uncaught s.
Proof.
  destruct (cache s !! src) eqn:E.
  - by rewrite (preload_cached_eq _ _ _ E).
  - by rewrite (preload_uncached_eq _ _ E).
Qed.

Lemma preload_next_id src s :
  next_id s < next_id (PreloadManager.preload src s).2.
Proof.
  destruct (cache s !! src) eqn:E.
  - rewrite (preload_cached_eq _ _ _ E). simpl. lia.
  - rewrite (preload_uncached_eq _ _ E). simpl. lia.
Qed.

(** Promises and elements that exist are not touched by a later [preload]. *)
Lemma preload_old_promise src s pid :
  pid < next_id s ->
  promises (PreloadManager.preload src s).2 !! pid = promises s !! pid.
Proof.
  intros Hlt. destruct (cache s !! src) eqn:E.
  - rewrite (preload_cached_eq _ _ _ E). simpl. rewrite lookup_insert_ne; [done|lia].
  - rewrite (preload_uncached_eq _ _ E). simpl. rewrite lookup_insert_ne; [done|lia].
Qed.

Lemma preload_old_loader src s e :
  e < next_id s ->
  loaders (PreloadManager.preload src s).2 !! e = loaders s !! e.
Proof.
  intros Hlt. destruct (cache s !! src) eqn:E.
  - by rewrite (preload_cached_eq _ _ _ E).
  - rewrite (preload_uncached_eq _ _ E). simpl. rewrite lookup_insert_ne; [done|lia].
Qed.

Lemma mark_handled_frame pid s :
  let s' := mark_handled pid s in
  cache s' = cache s /\ catches s' = catches s /\ thens s' = thens s /\
  loaders s' = loaders s /\ requests s' = requests s /\
  nodes s' = nodes s /\ body s' = body s /\ listeners s' = listeners s /\
  timers s' = timers s /\ now s' = now s /\ console s' = console s /\
  uncaught s' = uncaught s /\ next_id s' = next_id s.
Proof. unfold mark_handled. by destruct (promises s !! pid). Qed.

Lemma mark_handled_lookup_ne pid pid' s :
  pid ≠ pid' -> promises (mark_handled pid s) !! pid' = promises s !! pid'.
Proof.
  intros Hne. unfold mark_handled. destruct (promises s !! pid); [|done].
  simpl. by rewrite lookup_insert_ne.
Qed.

Lemma catch_warn_frame pid src s :
  let s' := catch_warn pid src s in
  cache s' = cache s /\ thens s' = thens s /\
  loaders s' = loaders s /\ requests s' = requests s /\
  nodes s' = nodes s /\ body s' = body s /\ listeners s' = listeners s /\
  timers s' = timers s /\ now s' = now s /\
  uncaught s' = uncaught s /\ next_id s' = next_id s.
Proof.
  unfold catch_warn.
  destruct (mark_handled_frame pid s) as (?&?&?&?&?&?&?&?&?&?&?&?&?).
  destruct (promises (mark_handled pid s) !! pid) as [[[] ?]|]; simpl; by split_and!.
Qed.

(** [catch] on a pending promise: the callback waits, nothing is logged. *)
Lemma catch_warn_pending pid src hd s :
  promises s !! pid = Some (mkPromise Pending hd) ->
  promises (catch_warn pid src s) = <[pid := mkPromise Pending true]> (promises s) /\
  catches (catch_warn pid src s) = catches s ++ [(pid, src)] /\
  console (catch_warn pid src s) = console s.
Proof.
  intros H. unfold catch_warn. rewrite mark_handled_lookup, H. simpl.
  unfold mark_handled. rewrite H. done.
Qed.

(** [catch] on a fulfilled promise: the callback never runs. *)
Lemma catch_warn_fulfilled pid src h hd s :
  promises s !! pid = Some (mkPromise (Fulfilled h) hd) ->
  promises (catch_warn pid src s) = <[pid := mkPromise (Fulfilled h) true]> (promises s) /\
  catches (catch_warn pid src s) = catches s /\
  console (catch_warn pid src s) = console s.
Proof.
  intros H. unfold catch_warn. rewrite mark_handled_lookup, H. simpl.
  unfold mark_handled. rewrite H. done.
Qed.

(** ** showProjectImages *)

Lemma next_index_spec (images : list string) z :
  (0 <= z < Js.len images)%Z ->
  Js.rem (Js.add (Js.Int z) 1) (Js.len images) = Js.Int ((z + 1) `mod` Js.len images) /\
  (0 <= (z + 1) `mod` Js.len images < Js.len images)%Z /\
  (Js.strict_neq (Js.Int ((z + 1) `mod` Js.len images)) (Js.Int z) = true <->
   (2 <= Js.len images)%Z).
Proof.
  intros Hz. simpl.
  destruct (Z.eqb_spec (Js.len images) 0) as [?|_]; [lia|].
  rewrite Z.rem_mod_nonneg by lia. split; [done|].
  split; [apply Z.mod_pos_bound; lia|].
  rewrite negb_true_iff, Z.eqb_neq.
  destruct (decide (z + 1 = Js.len images)%Z) as [He|Hne].
  - rewrite He, Z.mod_same by lia. lia.
  - rewrite Z.mod_small by lia. lia.
Qed.

(** A list of one item: the item is shown and nothing is preloaded. *)
Lemma showProjectImages_single images index src s :
  Js.index images index = Some src -> length images = 1 ->
  showProjectImages index images s =
  Ok (showPreview src (Js.endsWith src ".mp4" || Js.endsWith src ".webm") s).
Proof.
  intros Hsrc Hlen. unfold showProjectImages. rewrite Hsrc.
  destruct (index_Some_range _ _ _ Hsrc) as (z & -> & Hz & _).
  destruct (next_index_spec images z Hz) as (-> & _ & Hneq).
  destruct (Js.strict_neq _ _); [|done].
  unfold Js.len in Hneq. destruct Hneq as [Hneq _]. specialize (Hneq eq_refl). lia.
Qed.

(** A list of two items or more: the item is shown, then the next one
    (wrapping) is preloaded with a [catch] on the promise. *)
Lemma showProjectImages_many images z src s :
  Js.index images (Js.Int z) = Some src -> 2 <= length images ->
  exists nextSrc,
    Js.index images (Js.Int ((z + 1) `mod` Js.len images)) = Some nextSrc /\
    nextSrc ∈ images /\
    showProjectImages (Js.Int z) images s =
    let s1 := showPreview src (Js.endsWith src ".mp4" || Js.endsWith src ".webm") s in
    Ok (catch_warn (PreloadManager.preload nextSrc s1).1 nextSrc
          (PreloadManager.preload nextSrc s1).2).
Proof.
  intros Hsrc Hlen. unfold showProjectImages. rewrite Hsrc.
  destruct (index_Some_range _ _ _ Hsrc) as (z' & [= <-] & Hz & _).
  destruct (next_index_spec images z Hz) as (-> & Hr & Hneq).
  destruct (index_in_range images _ Hr) as (nextSrc & Hnext & Hin).
  exists nextSrc. split; [done|]. split; [done|].
  rewrite (proj2 Hneq) by (unfold Js.len; lia). rewrite Hnext. simpl.
  by destruct (PreloadManager.preload nextSrc _).
Qed.

(** The call returns normally exactly when [images[index]] is defined. *)
Lemma showProjectImages_Ok_iff images index s :
  (exists s', showProjectImages index images s = Ok s') <->
  is_Some (Js.index images index).
Proof.
  unfold showProjectImages. destruct (Js.index images index) as [src|].
  - split; [eauto|]. intros _.
    destruct (Js.strict_neq _ _); [|eauto].
    destruct (Js.index images _); [|eauto].
    destruct (PreloadManager.preload _ _). eauto.
  - split; [by intros [? ?]|by intros [? ?]].
Qed.

(** What the document shows after the call. *)
Lemma showProjectImages_opens images index src s :
  wf s -> Js.index images index = Some src ->
  exists s',
    showProjectImages index images s = Ok s' /\
    body s' = [next_id s] /\
    listeners s' = [EscHandler (next_id s); KeyNavHandler (next_id s) src] /\
    nodes s' !! next_id s =
      Some (new_overlay (next_id s) src (Js.endsWith src ".mp4" || Js.endsWith src ".webm")) /\
    loaders s' !! S (next_id s) =
      Some (new_content (next_id s) src (Js.endsWith src ".mp4" || Js.endsWith src ".webm")) /\
    timers s' = timers s /\ now s' = now s /\ uncaught s' = uncaught s /\
    cache s' = cache s.
Proof.
  intros W Hsrc.
  set (v := Js.endsWith src ".mp4" || Js.endsWith src ".webm").
  pose proof (showPreview_wf_eq src v s W) as Heq.
  destruct (index_Some_range _ _ _ Hsrc) as (z & -> & Hz & _).
  destruct (decide (length images = 1)) as [H1|H1].
  - rewrite (showProjectImages_single _ _ _ s Hsrc H1). fold v. eexists. split; [done|].
    rewrite Heq. simpl. rewrite !lookup_insert_eq. done.
  - unfold Js.len in Hz.
    destruct (showProjectImages_many images z src s Hsrc ltac:(lia))
      as (nextSrc & _ & _ & ->). fold v. simpl. eexists. split; [done|].
    destruct (catch_warn_frame (PreloadManager.preload nextSrc (showPreview src v s)).1
                nextSrc (PreloadManager.preload nextSrc (showPreview src v s)).2)
      as (-> & _ & -> & _ & -> & -> & -> & -> & -> & -> & _).
    destruct (preload_frame nextSrc (showPreview src v s))
      as (-> & _ & _ & -> & -> & -> & -> & -> & _ & ->).
    rewrite preload_old_loader by (rewrite Heq; simpl; lia).
    rewrite Heq. simpl. rewrite !lookup_insert_eq. done.
Qed.

(** ** Settling a promise *)

Lemma foldl_warn_preload (l : list (nat * string)) s :
  foldl (fun acc c => warn_preload c.2 acc) s l =
  set_console (console s ++ ((fun c => "Failed to preload: " +:+ c.2) <$> l)) s.
Proof.
  revert s. induction l as [|c l IH]; intros s; simpl.
  - apply state_eq; simpl; try done. by rewrite app_nil_r.
  - rewrite IH. apply state_eq; simpl; try done. by rewrite <- app_assoc.
Qed.

Lemma resolve_pending pid h hd s :
  promises s !! pid = Some (mkPromise Pending hd) ->
  resolve pid h s =
  set_catches (filter (fun c => c.1 ≠ pid) (catches s))
    (set_promises (<[pid := mkPromise (Fulfilled h) hd]> (promises s)) s).
Proof. intros H. unfold resolve. by rewrite H. Qed.

Lemma resolve_settled pid h s :
  (forall hd, promises s !! pid ≠ Some (mkPromise Pending hd)) -> resolve pid h s = s.
Proof.
  intros H. unfold resolve. destruct (promises s !! pid) as [[[] hd]|] eqn:E; try done.
  by destruct (H hd).
Qed.

Lemma reject_pending pid e hd s :
  promises s !! pid = Some (mkPromise Pending hd) ->
  reject pid e s =
  set_uncaught (if hd then uncaught s else uncaught s ++ [e])
    (set_console
       (console s ++
          ((fun c => "Failed to preload: " +:+ c.2) <$> filter (fun c => c.1 = pid) (catches s)))
       (set_catches (filter (fun c => c.1 ≠ pid) (catches s))
          (set_promises (<[pid := mkPromise (Rejected e) hd]> (promises s)) s))).
Proof.
  intros H. unfold reject. rewrite H. rewrite foldl_warn_preload.
  destruct hd; apply state_eq; done.
Qed.

Lemma reject_settled pid e s :
  (forall hd, promises s !! pid ≠ Some (mkPromise Pending hd)) -> reject pid e s = s.
Proof.
  intros H. unfold reject. destruct (promises s !! pid) as [[[] hd]|] eqn:E; try done.
  by destruct (H hd).
Qed.

Lemma preload_onerror_eq pid src k s :
  preload_onerror pid src k s = reject pid (load_failure k src) s.
Proof. by destruct k. Qed.

(** On an element that is loading, the browser signals success or error,
    nothing else. *)
Lemma next_phase_loading k sig ph :
  next_phase k Loading sig = Some ph ->
  (sig = success_signal k /\ ph = Loaded) \/ (sig = SigError /\ ph = Failed).
Proof. destruct k, sig; simpl; intros [= <-]; auto. Qed.

Lemma fire_signal_preload_success e el pid src s :
  loaders s !! e = Some (mkLoader el (PreloadOf pid src) Loading) ->
  fire_signal e (success_signal (el_kind el)) s =
  resolve pid el
    (set_cache (<[src := el]> (cache s))
       (set_loaders (<[e := mkLoader el (PreloadOf pid src) Loaded]> (loaders s)) s)).
Proof.
  intros H. unfold fire_signal. rewrite H. simpl.
  destruct (el_kind el) eqn:Ek; simpl; unfold run_handler; simpl; by rewrite Ek.
Qed.

Lemma fire_signal_preload_error e el pid src s :
  loaders s !! e = Some (mkLoader el (PreloadOf pid src) Loading) ->
  fire_signal e SigError s =
  reject pid (load_failure (el_kind el) src)
    (set_loaders (<[e := mkLoader el (PreloadOf pid src) Failed]> (loaders s)) s).
Proof.
  intros H. unfold fire_signal. rewrite H. simpl.
  destruct (el_kind el) eqn:Ek; simpl; unfold run_handler; simpl; rewrite Ek;
    by rewrite preload_onerror_eq.
Qed.

(** ** Operations on the document leave the preloader alone, and conversely *)

Lemma dom_only_refl s : dom_only s s.
Proof. by repeat split. Qed.

Lemma dom_only_trans s1 s2 s3 : dom_only s1 s2 -> dom_only s2 s3 -> dom_only s1 s3.
Proof.
  intros (?&?&?&?&?&?&?&?&?) (?&?&?&?&?&?&?&?&?). unfold dom_only. split_and!; congruence.
Qed.

Lemma page_kept_refl s : page_kept s s.
Proof. by repeat split. Qed.

Lemma page_kept_trans s1 s2 s3 : page_kept s1 s2 -> page_kept s2 s3 -> page_kept s1 s3.
Proof.
  intros (?&?&?&?&?) (?&?&?&?&?). unfold page_kept. split_and!; congruence.
Qed.

Lemma dom_only_foldl {A} (f : State -> A -> State) (l : list A) s :
  (forall acc x, dom_only acc (f acc x)) -> dom_only s (foldl f s l).
Proof.
  intros Hf. revert s. induction l as [|x l IH]; intros s; simpl; [apply dom_only_refl|].
  eapply dom_only_trans; [apply Hf|apply IH].
Qed.

Lemma page_kept_foldl {A} (f : State -> A -> State) (l : list A) s :
  (forall acc x, page_kept acc (f acc x)) -> page_kept s (foldl f s l).
Proof.
  intros Hf. revert s. induction l as [|x l IH]; intros s; simpl; [apply page_kept_refl|].
  eapply page_kept_trans; [apply Hf|apply IH].
Qed.

Lemma dom_only_update_node oid f s : dom_only s (update_node oid f s).
Proof. unfold update_node. destruct (nodes s !! oid); by repeat split. Qed.

Lemma dom_only_setTimeout a d s : dom_only s (setTimeout a d s).
Proof. by repeat split. Qed.

Lemma dom_only_cleanup oid s : dom_only s (cleanup oid s).
Proof. unfold cleanup. destruct (nodes s !! oid); by repeat split. Qed.

Lemma dom_only_closePreview oid s : dom_only s (closePreview oid s).
Proof.
  eapply dom_only_trans; [apply dom_only_update_node|apply dom_only_setTimeout].
Qed.

Lemma dom_only_loadHandler oid s : dom_only s (loadHandler oid s).
Proof. apply dom_only_update_node. Qed.

Lemma dom_only_content_onerror oid src s : dom_only s (content_onerror oid src s).
Proof.
  eapply dom_only_trans; [apply dom_only_update_node|apply dom_only_setTimeout].
Qed.

Lemma dom_only_overlay_onclick oid b s : dom_only s (overlay_onclick oid b s).
Proof. destruct b; [apply dom_only_closePreview|apply dom_only_refl]. Qed.

Lemma dom_only_escHandler oid key s : dom_only s (escHandler oid key s).
Proof.
  unfold escHandler. case_match; [apply dom_only_closePreview|apply dom_only_refl].
Qed.

Lemma dom_only_keyNavHandler gallery oid src key s :
  dom_only s (keyNavHandler gallery oid src key s).
Proof.
  unfold keyNavHandler. case_match; [|apply dom_only_refl].
  eapply dom_only_trans; [apply dom_only_closePreview|apply dom_only_setTimeout].
Qed.

Lemma dom_only_keydown gallery key s : dom_only s (keydown gallery key s).
Proof.
  apply dom_only_foldl. intros acc [oid|oid src]; simpl;
    [apply dom_only_escHandler|apply dom_only_keyNavHandler].
Qed.

Lemma page_kept_Promise_new s : page_kept s (Promise_new s).2.
Proof. by repeat split. Qed.

Lemma page_kept_preload src s : page_kept s (PreloadManager.preload src s).2.
Proof.
  destruct (preload_frame src s) as (_ & _ & _ & ? & ? & ? & ? & ? & _).
  by repeat split.
Qed.

Lemma page_kept_mark_handled pid s : page_kept s (mark_handled pid s).
Proof. unfold mark_handled. destruct (promises s !! pid); by repeat split. Qed.

Lemma page_kept_catch_warn pid src s : page_kept s (catch_warn pid src s).
Proof.
  destruct (catch_warn_frame pid src s) as (_ & _ & _ & _ & ? & ? & ? & ? & ? & _).
  by repeat split.
Qed.

Lemma page_kept_resolve pid h s : page_kept s (resolve pid h s).
Proof. unfold resolve. destruct (promises s !! pid) as [[[] ?]|]; by repeat split. Qed.

Lemma page_kept_reject pid e s : page_kept s (reject pid e s).
Proof.
  destruct (promises s !! pid) as [[st hd]|] eqn:E.
  - destruct st; [rewrite (reject_pending _ _ _ _ E); by repeat split|..];
      rewrite reject_settled; try apply page_kept_refl; intros hd'; by rewrite E.
  - rewrite reject_settled; [apply page_kept_refl|]. intros hd'. by rewrite E.
Qed.

Lemma page_kept_map_preload sources s :
  page_kept s (PreloadManager.map_preload sources s).2.
Proof.
  revert s. induction sources as [|src rest IH]; intros s; simpl; [apply page_kept_refl|].
  pose proof (page_kept_preload src s) as H1.
  destruct (PreloadManager.preload src s) as [pid s1]. simpl in H1.
  specialize (IH s1). destruct (PreloadManager.map_preload rest s1) as [pids s2].
  simpl in *. by eapply page_kept_trans.
Qed.

Lemma page_kept_foldr_mark_handled pids s : page_kept s (foldr mark_handled s pids).
Proof.
  induction pids as [|pid pids IH]; simpl; [apply page_kept_refl|].
  eapply page_kept_trans; [exact IH|apply page_kept_mark_handled].
Qed.

Lemma page_kept_preloadAll sources s :
  page_kept s (PreloadManager.preloadAll sources s).2.
Proof.
  unfold PreloadManager.preloadAll.
  pose proof (page_kept_map_preload sources s) as H1.
  destruct (PreloadManager.map_preload sources s) as [pids s1]. simpl in *.
  eapply page_kept_trans; [exact H1|apply page_kept_foldr_mark_handled].
Qed.

Lemma page_kept_then_callback rest s : page_kept s (then_callback rest s).
Proof.
  unfold then_callback. case_match; [apply page_kept_preloadAll|apply page_kept_refl].
Qed.

Lemma page_kept_checkpoint s : page_kept s (checkpoint s).
Proof.
  unfold checkpoint.
  eapply (page_kept_trans _ (set_thens _ s)); [by repeat split|].
  apply page_kept_foldl. intros acc t. apply page_kept_then_callback.
Qed.

Lemma page_kept_initializeProjectGallery images s :
  page_kept s (initializeProjectGallery images s).
Proof.
  unfold initializeProjectGallery.
  pose proof (page_kept_preloadAll (take 5 images) s) as H1.
  destruct (PreloadManager.preloadAll _ s) as [pids s1]. simpl in *.
  eapply page_kept_trans; [exact H1|by repeat split].
Qed.

(** ** Operations that settle no promise *)

Lemma promises_kept_refl s : promises_kept s s.
Proof. split_and!; eauto. Qed.

Lemma promises_kept_trans s1 s2 s3 :
  promises_kept s1 s2 -> promises_kept s2 s3 -> promises_kept s1 s3.
Proof.
  intros (Hid1 & Hc1 & Hp1 & Hl1) (Hid2 & Hc2 & Hp2 & Hl2). split_and!.
  - lia.
  - congruence.
  - intros pid Hlt. rewrite Hp2 by lia. by apply Hp1.
  - intros e l pid src Hl Ho Hlt.
    destruct (Hl2 e l pid src Hl Ho ltac:(lia)) as (l0 & Hl0 & Ho0). eauto.
Qed.

Lemma promises_kept_dom_only s s' : dom_only s s' -> promises_kept s s'.
Proof.
  intros (Hc & Hp & _ & _ & Hl & _ & _ & _ & Hid). unfold promises_kept, pstate.
  rewrite Hc, Hp, Hl, Hid. split_and!; eauto.
Qed.

Lemma promises_kept_foldl {A} (f : State -> A -> State) (l : list A) s :
  (forall acc x, wf acc -> wf (f acc x) /\ promises_kept acc (f acc x)) ->
  wf s -> promises_kept s (foldl f s l).
Proof.
  intros Hf. revert s. induction l as [|x l IH]; intros s W; simpl;
    [apply promises_kept_refl|].
  destruct (Hf s x W) as [W1 H1]. eapply promises_kept_trans; [exact H1|by apply IH].
Qed.

Lemma promises_kept_preload src s :
  wf s -> promises_kept s (PreloadManager.preload src s).2.
Proof.
  intros W. pose proof (preload_next_id src s) as Hid.
  destruct (preload_frame src s) as (Hc & _). split_and!; [lia|done|..].
  - intros pid Hlt. unfold pstate. by rewrite preload_old_promise.
  - intros e l pid src' Hl Ho Hlt. destruct (cache s !! src) eqn:E.
    + rewrite (preload_cached_eq _ _ _ E) in Hl. simpl in Hl. eauto.
    + rewrite (preload_uncached_eq _ _ E) in Hl. simpl in Hl.
      apply lookup_insert_Some in Hl as [[_ <-]|[_ Hl]]; [|eauto].
      simpl in Ho. injection Ho as <- _. lia.
Qed.

Lemma pstate_mark_handled pid pid' s : pstate (mark_handled pid s) pid' = pstate s pid'.
Proof.
  unfold pstate. destruct (decide (pid = pid')) as [<-|Hne].
  - rewrite mark_handled_lookup. by destruct (promises s !! pid).
  - by rewrite mark_handled_lookup_ne.
Qed.

Lemma promises_kept_mark_handled pid s : promises_kept s (mark_handled pid s).
Proof.
  destruct (mark_handled_frame pid s) as (Hc & _ & _ & Hl & _ & _ & _ & _ & _ & _ & _ & _ & Hid).
  split_and!; [lia|done|..].
  - intros pid' _. apply pstate_mark_handled.
  - intros e l pid' src. rewrite Hl. eauto.
Qed.

Lemma pstate_catch_warn pid src pid' s : pstate (catch_warn pid src s) pid' = pstate s pid'.
Proof.
  rewrite <- (pstate_mark_handled pid pid' s). unfold catch_warn.
  by destruct (promises (mark_handled pid s) !! pid) as [[[] ?]|].
Qed.

Lemma promises_kept_catch_warn pid src s : promises_kept s (catch_warn pid src s).
Proof.
  destruct (catch_warn_frame pid src s) as (Hc & _ & Hl & _ & _ & _ & _ & _ & _ & _ & Hid).
  split_and!; [lia|done|..].
  - intros pid' _. apply pstate_catch_warn.
  - intros e l pid' src'. rewrite Hl. eauto.
Qed.

Lemma promises_kept_showPreview src v s : wf s -> promises_kept s (showPreview src v s).
Proof.
  intros W. rewrite (showPreview_wf_eq src v s W). split_and!; simpl; [lia|done|done|].
  intros e l pid src' [[_ <-]|[_ Hl]]%lookup_insert_Some Ho Hlt; [done|eauto].
Qed.

Lemma promises_kept_map_preload sources s :
  wf s -> promises_kept s (PreloadManager.map_preload sources s).2.
Proof.
  revert s. induction sources as [|src rest IH]; intros s W; simpl;
    [apply promises_kept_refl|].
  pose proof (promises_kept_preload src s W) as H1.
  pose proof (wf_preload src s W) as W1.
  destruct (PreloadManager.preload src s) as [pid s1]. simpl in *.
  specialize (IH s1 W1). destruct (PreloadManager.map_preload rest s1) as [pids s2].
  simpl in *. by eapply promises_kept_trans.
Qed.

Lemma promises_kept_foldr_mark_handled pids s :
  promises_kept s (foldr mark_handled s pids).
Proof.
  induction pids as [|pid pids IH]; simpl; [apply promises_kept_refl|].
  eapply promises_kept_trans; [exact IH|apply promises_kept_mark_handled].
Qed.

Lemma promises_kept_preloadAll sources s :
  wf s -> promises_kept s (PreloadManager.preloadAll sources s).2.
Proof.
  intros W. unfold PreloadManager.preloadAll.
  pose proof (promises_kept_map_preload sources s W) as H1.
  destruct (PreloadManager.map_preload sources s) as [pids s1]. simpl in *.
  eapply promises_kept_trans; [exact H1|apply promises_kept_foldr_mark_handled].
Qed.

Lemma promises_kept_then_callback rest s :
  wf s -> promises_kept s (then_callback rest s).
Proof.
  intros W. unfold then_callback.
  case_match; [by apply promises_kept_preloadAll|apply promises_kept_refl].
Qed.

Lemma promises_kept_checkpoint s : wf s -> promises_kept s (checkpoint s).
Proof.
  intros W. unfold checkpoint.
  eapply (promises_kept_trans _ (set_thens _ s)).
  - split_and!; simpl; eauto.
  - apply promises_kept_foldl; [|by apply wf_set_thens].
    intros acc t Wacc. split; [by apply wf_then_callback|by apply promises_kept_then_callback].
Qed.

Lemma promises_kept_initializeProjectGallery images s :
  wf s -> promises_kept s (initializeProjectGallery images s).
Proof.
  intros W. unfold initializeProjectGallery.
  pose proof (promises_kept_preloadAll (take 5 images) s W) as H1.
  destruct (PreloadManager.preloadAll _ s) as [pids s1]. simpl in *.
  eapply promises_kept_trans; [exact H1|]. split_and!; simpl; eauto.
Qed.

Lemma promises_kept_showProjectImages index images s :
  wf s -> promises_kept s (settle_result (showProjectImages index images s)).
Proof.
  intros W. unfold showProjectImages.
  destruct (Js.index images index) as [src|]; [|simpl; split_and!; simpl; eauto].
  set (v := Js.endsWith src ".mp4" || Js.endsWith src ".webm").
  pose proof (promises_kept_showPreview src v s W) as H1.
  pose proof (wf_showPreview src v s W) as W1.
  destruct (Js.strict_neq _ _); [|done].
  destruct (Js.index images _) as [nextSrc|].
  - pose proof (promises_kept_preload nextSrc _ W1) as H2.
    destruct (PreloadManager.preload nextSrc _) as [p s2]. simpl in *.
    eapply promises_kept_trans; [exact H1|].
    eapply promises_kept_trans; [exact H2|apply promises_kept_catch_warn].
  - cbn [settle_result]. eapply promises_kept_trans; [exact H1|].
    generalize (showPreview src v s). intros s1. split_and!; simpl; eauto.
Qed.

Lemma promises_kept_run_timer gallery s t :
  wf s -> promises_kept s (run_timer gallery s t).
Proof.
  intros W. unfold run_timer. destruct (t.2) as [oid|i].
  - eapply (promises_kept_trans _ (set_now _ s)); [split_and!; simpl; eauto|].
    apply promises_kept_dom_only, dom_only_cleanup.
  - eapply (promises_kept_trans _ (set_now _ s)); [split_and!; simpl; eauto|].
    by apply promises_kept_showProjectImages, wf_set_now.
Qed.

Lemma promises_kept_advance gallery d s : wf s -> promises_kept s (advance gallery d s).
Proof.
  intros W. unfold advance.
  eapply (promises_kept_trans _ (set_timers _ s)); [split_and!; simpl; eauto|].
  eapply promises_kept_trans; [|split_and!; simpl; eauto].
  apply promises_kept_foldl; [|by apply wf_set_timers].
  intros acc t Wacc. split; [by apply wf_run_timer|by apply promises_kept_run_timer].
Qed.

(** Every task but a load signal keeps the promises. *)
Lemma promises_kept_task gallery ev s :
  wf s -> (forall e sig, ev ≠ EvSignal e sig) -> promises_kept s (task gallery ev s).
Proof.
  intros W Hev. destruct ev; simpl.
  - by apply promises_kept_initializeProjectGallery.
  - by apply promises_kept_showProjectImages.
  - apply promises_kept_dom_only, dom_only_keydown.
  - case_bool_decide; [|apply promises_kept_refl].
    apply promises_kept_dom_only, dom_only_overlay_onclick.
  - by destruct (Hev el sig).
  - by apply promises_kept_advance.
Qed.

(** ** What a load signal does to the promises *)

Lemma outcome_of_pstate s pid :
  outcome_of s pid =
  match pstate s pid with
  | Some (Fulfilled h) => Some (OFulfilled h)
  | Some (Rejected e) => Some (ORejected e)
  | _ => None
  end.
Proof.
  unfold outcome_of, pstate. by destruct (promises s !! pid) as [[[] ?]|].
Qed.

Lemma pstate_resolve pid' h s pid :
  pstate (resolve pid' h s) pid = pstate s pid \/
  (pid = pid' /\ pstate s pid = Some Pending /\
   pstate (resolve pid' h s) pid = Some (Fulfilled h)).
Proof.
  unfold resolve, pstate.
  destruct (promises s !! pid') as [[[] hd]|] eqn:E; auto. simpl.
  destruct (decide (pid = pid')) as [->|Hne].
  - right. rewrite E, lookup_insert_eq. done.
  - left. by rewrite lookup_insert_ne.
Qed.

Lemma pstate_reject pid' e s pid :
  pstate (reject pid' e s) pid = pstate s pid \/
  (pid = pid' /\ pstate s pid = Some Pending /\
   pstate (reject pid' e s) pid = Some (Rejected e)).
Proof.
  destruct (promises s !! pid') as [[st hd]|] eqn:E.
  - destruct st.
    + rewrite (reject_pending _ _ _ _ E). unfold pstate. simpl.
      destruct (decide (pid = pid')) as [->|Hne].
      * right. rewrite E, lookup_insert_eq. done.
      * left. by rewrite lookup_insert_ne.
    + left. rewrite reject_settled; [done|]. intros ?. by rewrite E.
    + left. rewrite reject_settled; [done|]. intros ?. by rewrite E.
  - left. rewrite reject_settled; [done|]. intros ?. by rewrite E.
Qed.

Lemma resolve_frame pid h s :
  cache (resolve pid h s) = cache s /\ loaders (resolve pid h s) = loaders s /\
  next_id (resolve pid h s) = next_id s /\ uncaught (resolve pid h s) = uncaught s /\
  console (resolve pid h s) = console s /\ requests (resolve pid h s) = requests s /\
  thens (resolve pid h s) = thens s.
Proof. unfold resolve. by destruct (promises s !! pid) as [[[] ?]|]. Qed.

Lemma reject_frame pid e s :
  cache (reject pid e s) = cache s /\ loaders (reject pid e s) = loaders s /\
  next_id (reject pid e s) = next_id s /\ requests (reject pid e s) = requests s /\
  thens (reject pid e s) = thens s.
Proof.
  destruct (promises s !! pid) as [[st hd]|] eqn:E.
  - destruct st; [by rewrite (reject_pending _ _ _ _ E)|..];
      rewrite reject_settled; try done; intros ?; by rewrite E.
  - rewrite reject_settled; [done|]. intros ?. by rewrite E.
Qed.

(** A signal settles at most the promise of the element it is sent to,
    with that element or with its load failure; elements keep their
    handlers. *)
Lemma fire_signal_effect e sig s :
  next_id (fire_signal e sig s) = next_id s /\
  (forall e', (fun l => (l_elem l, l_owner l)) <$> loaders (fire_signal e sig s) !! e' =
              (fun l => (l_elem l, l_owner l)) <$> loaders s !! e') /\
  (forall pid,
     pstate (fire_signal e sig s) pid = pstate s pid \/
     (pstate s pid = Some Pending /\
      exists l src, loaders s !! e = Some l /\ l_owner l = PreloadOf pid src /\
        (pstate (fire_signal e sig s) pid = Some (Fulfilled (l_elem l)) \/
         pstate (fire_signal e sig s) pid =
           Some (Rejected (load_failure (el_kind (l_elem l)) src))))).
Proof.
  unfold fire_signal. destruct (loaders s !! e) as [l|] eqn:El; [|by auto].
  destruct (next_phase _ _ _) as [ph|]; [|by auto].
  set (s1 := set_loaders _ s).
  assert (forall e', (fun l => (l_elem l, l_owner l)) <$> loaders s1 !! e' =
                     (fun l => (l_elem l, l_owner l)) <$> loaders s !! e') as Hl1.
  { intros e'. subst s1. simpl. destruct (decide (e = e')) as [<-|Hne].
    - by rewrite lookup_insert_eq, El.
    - by rewrite lookup_insert_ne. }
  assert (forall pid, pstate s1 pid = pstate s pid) as Hp1 by done.
  assert (next_id s1 = next_id s) as Hid1 by done.
  clearbody s1. unfold run_handler.
  destruct (l_owner l) as [pid' src|oid src] eqn:Eo.
  - assert (forall h,
      let s2 := preload_onload pid' src h s1 in
      next_id s2 = next_id s /\
      (forall e', (fun l => (l_elem l, l_owner l)) <$> loaders s2 !! e' =
                  (fun l => (l_elem l, l_owner l)) <$> loaders s !! e') /\
      (forall pid, pstate s2 pid = pstate s pid \/
         pid = pid' /\ pstate s pid = Some Pending /\ pstate s2 pid = Some (Fulfilled h)))
      as Hload.
    { intros h s2. subst s2. unfold preload_onload.
      destruct (resolve_frame pid' h (set_cache (<[src:=h]> (cache s1)) s1))
        as (_ & -> & -> & _).
      split; [done|]. split; [done|]. intros pid.
      destruct (pstate_resolve pid' h (set_cache (<[src:=h]> (cache s1)) s1) pid)
        as [->|(-> & ? & ->)]; [left; apply Hp1|right].
      split; [done|]. split; [|done]. by rewrite <- Hp1. }
    assert (forall k,
      let s2 := preload_onerror pid' src k s1 in
      next_id s2 = next_id s /\
      (forall e', (fun l => (l_elem l, l_owner l)) <$> loaders s2 !! e' =
                  (fun l => (l_elem l, l_owner l)) <$> loaders s !! e') /\
      (forall pid, pstate s2 pid = pstate s pid \/
         pid = pid' /\ pstate s pid = Some Pending /\
         pstate s2 pid = Some (Rejected (load_failure k src))))
      as Herr.
    { intros k s2. subst s2. rewrite preload_onerror_eq.
      destruct (reject_frame pid' (load_failure k src) s1) as (_ & -> & -> & _).
      split; [done|]. split; [done|]. intros pid.
      destruct (pstate_reject pid' (load_failure k src) s1 pid)
        as [->|(-> & ? & ->)]; [left; apply Hp1|right].
      split; [done|]. split; [|done]. by rewrite <- Hp1. }
    destruct (el_kind (l_elem l)) eqn:Ek, sig;
      try (split; [done|]; split; [done|]; intros pid; left; apply Hp1).
    + destruct (Hload (l_elem l)) as (? & ? & Hp). split; [done|]. split; [done|].
      intros pid. destruct (Hp pid) as [?|(-> & ? & ?)]; [by left|right].
      split; [done|]. exists l, src. auto.
    + destruct (Herr Img) as (? & ? & Hp). split; [done|]. split; [done|].
      intros pid. destruct (Hp pid) as [?|(-> & ? & ?)]; [by left|right].
      split; [done|]. exists l, src. rewrite Ek. auto.
    + destruct (Hload (l_elem l)) as (? & ? & Hp). split; [done|]. split; [done|].
      intros pid. destruct (Hp pid) as [?|(-> & ? & ?)]; [by left|right].
      split; [done|]. exists l, src. auto.
    + destruct (Herr Video) as (? & ? & Hp). split; [done|]. split; [done|].
      intros pid. destruct (Hp pid) as [?|(-> & ? & ?)]; [by left|right].
      split; [done|]. exists l, src. rewrite Ek. auto.
  - assert (forall s2, dom_only s1 s2 ->
      next_id s2 = next_id s /\
      (forall e', (fun l => (l_elem l, l_owner l)) <$> loaders s2 !! e' =
                  (fun l => (l_elem l, l_owner l)) <$> loaders s !! e') /\
      (forall pid, pstate s2 pid = pstate s pid \/
         (pstate s pid = Some Pending /\
          exists l' src', Some l = Some l' /\ l_owner l' = PreloadOf pid src' /\
            (pstate s2 pid = Some (Fulfilled (l_elem l')) \/
             pstate s2 pid = Some (Rejected (load_failure (el_kind (l_elem l')) src'))))))
      as Hdom.
    { intros s2 (_ & Hp & _ & _ & Hl & _ & _ & _ & Hid). unfold pstate in *.
      rewrite Hp, Hl, Hid. split; [done|]. split; [done|]. intros pid. left. apply Hp1. }
    destruct (el_kind (l_elem l)), sig; apply Hdom;
      first [apply dom_only_loadHandler | apply dom_only_content_onerror].
Qed.

(** ** A promise of [preload(src)] settles for [src] only *)

Lemma promise_for_kept s s' pid src :
  promises_kept s s' -> promise_for s pid src -> promise_for s' pid src.
Proof.
  intros (Hid & _ & Hp & Hl) (Hlt & (st & Hst & Hfor) & Hown). split_and!.
  - lia.
  - exists st. by rewrite Hp.
  - intros e l src' Hl' Ho. destruct (Hl e l pid src' Hl' Ho Hlt) as (l0 & Hl0 & Ho0).
    by eapply Hown.
Qed.

Lemma promise_for_fire_signal e sig s pid src :
  wf s -> promise_for s pid src -> promise_for (fire_signal e sig s) pid src.
Proof.
  intros W (Hlt & (st & Hst & Hfor) & Hown).
  destruct (fire_signal_effect e sig s) as (Hid & Hl & Hp). split_and!.
  - lia.
  - destruct (Hp pid) as [->|(_ & l & src' & Hl0 & Ho & Hres)]; [eauto|].
    pose proof (Hown e l src' Hl0 Ho) as ->.
    destruct (wf_loaders _ W e l Hl0) as [_ Hok]. unfold owner_ok in Hok.
    rewrite Ho in Hok. destruct Hok as [_ Hsrc].
    destruct Hres as [->| ->]; eexists; (split; [done|]); simpl; eauto.
  - intros e' l src' Hl' Ho. specialize (Hl e'). rewrite Hl' in Hl. simpl in Hl.
    destruct (loaders s !! e') as [l0|] eqn:El0; [|done]. simpl in Hl.
    injection Hl as _ Ho'. eapply (Hown e' l0). { done. } congruence.
Qed.

Lemma promise_for_step gallery s ev pid src :
  wf s -> promise_for s pid src -> promise_for (step gallery s ev) pid src.
Proof.
  intros W H. unfold step.
  eapply promise_for_kept; [apply promises_kept_checkpoint; by apply wf_task|].
  assert ((exists e sig, ev = EvSignal e sig) \/ (forall e sig, ev ≠ EvSignal e sig))
    as [(e & sig & ->)|Hne] by (destruct ev; eauto).
  - simpl. by apply promise_for_fire_signal.
  - eapply promise_for_kept; [|done]. by apply promises_kept_task.
Qed.

Lemma promise_for_run gallery evs s pid src :
  wf s -> promise_for s pid src -> promise_for (run gallery evs s) pid src.
Proof.
  revert s. induction evs as [|ev evs IH]; intros s W H; simpl; [done|].
  apply IH; [by apply wf_step|by apply promise_for_step].
Qed.

Lemma promise_for_preload src s :
  wf s ->
  promise_for (PreloadManager.preload src s).2 (PreloadManager.preload src s).1 src.
Proof.
  intros W. destruct (cache s !! src) as [h|] eqn:E.
  - rewrite (preload_cached_eq _ _ _ E). unfold promise_for. simpl. split_and!; [lia| |].
    + exists (Fulfilled h). unfold pstate. simpl. rewrite lookup_insert_eq.
      split; [done|]. simpl. by apply (wf_cache _ W).
    + intros e l src' Hl Ho. destruct (wf_loaders _ W e l Hl) as [_ Hok].
      unfold owner_ok in Hok. rewrite Ho in Hok. lia.
  - rewrite (preload_uncached_eq _ _ E). unfold promise_for. simpl. split_and!; [lia| |].
    + exists Pending. unfold pstate. simpl. by rewrite lookup_insert_eq.
    + intros e l src' [[_ <-]|[_ Hl]]%lookup_insert_Some Ho.
      * simpl in Ho. by injection Ho as ->.
      * destruct (wf_loaders _ W e l Hl) as [_ Hok].
        unfold owner_ok in Hok. rewrite Ho in Hok. lia.
Qed.

Lemma promise_for_map_preload sources s :
  wf s ->
  Forall2 (promise_for (PreloadManager.map_preload sources s).2)
    (PreloadManager.map_preload sources s).1 sources.
Proof.
  revert s. induction sources as [|src rest IH]; intros s W; simpl; [constructor|].
  pose proof (promise_for_preload src s W) as H1.
  pose proof (wf_preload src s W) as W1.
  destruct (PreloadManager.preload src s) as [pid s1]. simpl in *.
  specialize (IH s1 W1).
  pose proof (promises_kept_map_preload rest s1 W1) as Hk.
  destruct (PreloadManager.map_preload rest s1) as [pids s2]. simpl in *.
  constructor; [|done]. by eapply promise_for_kept.
Qed.

Lemma promise_for_preloadAll sources s :
  wf s ->
  Forall2 (promise_for (PreloadManager.preloadAll sources s).2)
    (PreloadManager.preloadAll sources s).1 sources.
Proof.
  intros W. unfold PreloadManager.preloadAll.
  pose proof (promise_for_map_preload sources s W) as H.
  destruct (PreloadManager.map_preload sources s) as [pids s1]. simpl in *.
  eapply Forall2_impl; [exact H|]. intros pid src.
  apply promise_for_kept, promises_kept_foldr_mark_handled.
Qed.

(** [preloadAll] starts one load for every input that is not cached, in
    input order; an identifier listed twice is requested twice. *)
Lemma map_preload_requests sources s :
  requests (PreloadManager.map_preload sources s).2 =
  requests s ++ filter (fun src => cache s !! src = None) sources.
Proof.
  revert s. induction sources as [|src rest IH]; intros s; simpl.
  - by rewrite app_nil_r.
  - specialize (IH (PreloadManager.preload src s).2).
    destruct (preload_frame src s) as (Hc & _).
    destruct (PreloadManager.preload src s) as [pid s1] eqn:Ep. simpl in *.
    destruct (PreloadManager.map_preload rest s1) as [pids s2]. simpl in *.
    rewrite IH, Hc.
    destruct (cache s !! src) as [h|] eqn:E.
    + rewrite (preload_cached_eq _ _ _ E) in Ep. injection Ep as _ <-.
      rewrite filter_cons_False by (by rewrite E). done.
    + rewrite (preload_uncached_eq _ _ E) in Ep. injection Ep as _ <-.
      rewrite filter_cons_True by done. simpl. by rewrite <- app_assoc.
Qed.

Lemma foldr_mark_handled_requests pids s :
  requests (foldr mark_handled s pids) = requests s.
Proof.
  induction pids as [|pid pids IH]; simpl; [done|].
  destruct (mark_handled_frame pid (foldr mark_handled s pids))
    as (_ & _ & _ & _ & -> & _). exact IH.
Qed.

Lemma preloadAll_requests sources s :
  requests (PreloadManager.preloadAll sources s).2 =
  requests s ++ filter (fun src => cache s !! src = None) sources.
Proof.
  unfold PreloadManager.preloadAll.
  pose proof (map_preload_requests sources s) as H.
  destruct (PreloadManager.map_preload sources s) as [pids s1]. simpl in *.
  by rewrite foldr_mark_handled_requests.
Qed.

(** The aggregate is unsettled exactly while one of its inputs is pending. *)
Lemma allSettled_pending s pids sources :
  Forall2 (promise_for s) pids sources ->
  allSettled_value s pids = None <-> exists pid, pid ∈ pids /\ pstate s pid = Some Pending.
Proof.
  intros H. unfold allSettled_value. rewrite mapM_None, Exists_exists.
  split.
  - intros (pid & Hin & Hnone). exists pid. split; [done|].
    rewrite outcome_of_pstate in Hnone.
    apply list_elem_of_lookup in Hin as [i Hi].
    destruct (Forall2_lookup_l _ _ _ _ _ H Hi) as (src & _ & (_ & (st & Hst & _) & _)).
    rewrite Hst in Hnone |- *. by destruct st.
  - intros (pid & Hin & Hp). exists pid. split; [done|].
    by rewrite outcome_of_pstate, Hp.
Qed.

(** Once the aggregate has settled, entry [i] belongs to input [i]. *)
Lemma allSettled_outcomes s pids sources outs :
  Forall2 (promise_for s) pids sources ->
  allSettled_value s pids = Some outs ->
  Forall2 outcome_for sources outs.
Proof.
  unfold allSettled_value. rewrite mapM_Some. intros H. revert outs.
  induction H as [|pid src pids sources Hfor _ IH]; intros outs Hm.
  - apply Forall2_nil_inv_l in Hm as ->. constructor.
  - apply Forall2_cons_inv_l in Hm as (out & outs' & Hout & Hm & ->).
    constructor; [|by apply IH].
    destruct Hfor as (_ & (st & Hst & Hs) & _).
    rewrite outcome_of_pstate, Hst in Hout.
    destruct st; simplify_eq; exact Hs.
Qed.

(** ** No exception escapes *)

Lemma elem_of_enqueue x due a q : x ∈ enqueue due a q <-> x = (due, a) \/ x ∈ q.
Proof.
  induction q as [|[t b] q IH]; simpl.
  - rewrite list_elem_of_singleton. split; [auto|]. intros [?|H]; [done|].
    by apply elem_of_nil in H.
  - destruct (t <=? due); rewrite !elem_of_cons; [rewrite IH|]; tauto.
Qed.

Lemma calm_refl gallery s : calm gallery s s.
Proof. split; [apply dom_only_refl|]. split; auto. Qed.

Lemma calm_trans gallery s1 s2 s3 :
  calm gallery s1 s2 -> calm gallery s2 s3 -> calm gallery s1 s3.
Proof.
  intros (Hd1 & Hl1 & Ht1) (Hd2 & Hl2 & Ht2). split; [by eapply dom_only_trans|].
  split; [auto|]. intros t i H. destruct (Ht2 t i H); auto.
Qed.

Lemma quiet_calm gallery s s' : calm gallery s s' -> quiet gallery s -> quiet gallery s'.
Proof.
  intros ((_ & Hp & _ & _ & _ & _ & _ & Hu & _) & Hl & Ht) [Q1 Q2 Q3 Q4]. split.
  - by rewrite Hu.
  - intros oid src H. eapply Q2. by apply Hl.
  - intros t i H. destruct (Ht t i H); eauto.
  - unfold handled_all. by rewrite Hp.
Qed.

Lemma calm_update_node gallery oid f s : calm gallery s (update_node oid f s).
Proof.
  split; [apply dom_only_update_node|].
  unfold update_node. destruct (nodes s !! oid); simpl; auto.
Qed.

Lemma calm_setTimeout_cleanup gallery oid d s :
  calm gallery s (setTimeout (TCleanup oid) d s).
Proof.
  split; [apply dom_only_setTimeout|]. split; [auto|]. simpl.
  intros t i [H|H]%elem_of_enqueue; [done|auto].
Qed.

Lemma calm_setTimeout_show gallery i d s :
  is_Some (Js.index gallery i) -> calm gallery s (setTimeout (TShow i) d s).
Proof.
  intros Hi. split; [apply dom_only_setTimeout|]. split; [auto|]. simpl.
  intros t j [[= _ <-]|H]%elem_of_enqueue; auto.
Qed.

Lemma calm_cleanup gallery oid s : calm gallery s (cleanup oid s).
Proof.
  split; [apply dom_only_cleanup|]. unfold cleanup.
  destruct (nodes s !! oid); simpl; [|auto]. split; [|auto].
  intros h [_ [_ H]%list_elem_of_filter]%list_elem_of_filter. done.
Qed.

Lemma calm_closePreview gallery oid s : calm gallery s (closePreview oid s).
Proof.
  eapply calm_trans; [apply calm_update_node|apply calm_setTimeout_cleanup].
Qed.

Lemma calm_loadHandler gallery oid s : calm gallery s (loadHandler oid s).
Proof. apply calm_update_node. Qed.

Lemma calm_content_onerror gallery oid src s : calm gallery s (content_onerror oid src s).
Proof.
  eapply calm_trans; [apply calm_update_node|apply calm_setTimeout_cleanup].
Qed.

Lemma calm_overlay_onclick gallery oid b s : calm gallery s (overlay_onclick oid b s).
Proof. destruct b; [apply calm_closePreview|apply calm_refl]. Qed.

Lemma calm_escHandler gallery oid key s : calm gallery s (escHandler oid key s).
Proof. unfold escHandler. case_match; [apply calm_closePreview|apply calm_refl]. Qed.

(** The position an arrow key leads to, from a source of the gallery, is a
    position of the gallery. *)
Lemma nav_index_in_range gallery src direction :
  src ∈ gallery -> (direction = -1 \/ direction = 1)%Z ->
  Js.rem (Js.Int (Js.indexOf gallery src + direction + Js.len gallery)) (Js.len gallery) =
    Js.Int ((Js.indexOf gallery src + direction + Js.len gallery) `mod` Js.len gallery) /\
  (0 <= (Js.indexOf gallery src + direction + Js.len gallery) `mod` Js.len gallery
     < Js.len gallery)%Z.
Proof.
  intros Hin Hd. destruct (indexOf_present gallery src Hin) as [Hr _]. simpl.
  destruct (Z.eqb_spec (Js.len gallery) 0) as [?|_]; [lia|].
  rewrite Z.rem_mod_nonneg by lia. split; [done|]. apply Z.mod_pos_bound. lia.
Qed.

Lemma calm_keyNavHandler gallery oid src key s :
  src ∈ gallery -> calm gallery s (keyNavHandler gallery oid src key s).
Proof.
  intros Hin. unfold keyNavHandler. case_match; [|apply calm_refl].
  eapply calm_trans; [apply calm_closePreview|]. apply calm_setTimeout_show.
  destruct (nav_index_in_range gallery src (if String.eqb key "ArrowLeft" then -1 else 1)%Z Hin)
    as [-> Hr]; [case_match; auto|].
  destruct (index_in_range gallery _ Hr) as (x & -> & _). eauto.
Qed.

Lemma calm_foldl gallery {A} (f : State -> A -> State) (l : list A) s :
  (forall acc x, x ∈ l -> calm gallery acc (f acc x)) -> calm gallery s (foldl f s l).
Proof.
  revert s. induction l as [|x l IH]; intros s Hf; simpl; [apply calm_refl|].
  eapply calm_trans; [apply Hf; left|]. apply IH. intros acc y Hy. apply Hf. by right.
Qed.

Lemma calm_keydown gallery key s :
  quiet gallery s -> calm gallery s (keydown gallery key s).
Proof.
  intros Q. unfold keydown. apply calm_foldl.
  intros acc [oid|oid src] Hin; simpl; [apply calm_escHandler|].
  apply calm_keyNavHandler. by eapply (q_listeners _ _ Q).
Qed.

Lemma handled_but_nil s : handled_but [] s <-> handled_all s.
Proof.
  split.
  - intros H pid p Hp. destruct (H pid p Hp) as [?|Hin]; [done|].
    by apply elem_of_nil in Hin.
  - intros H pid p Hp. left. by eapply H.
Qed.

Lemma handled_but_preload src pids s :
  handled_but pids s ->
  handled_but ((PreloadManager.preload src s).1 :: pids) (PreloadManager.preload src s).2.
Proof.
  intros H pid p. destruct (cache s !! src) as [h|] eqn:E.
  - rewrite (preload_cached_eq _ _ _ E). simpl.
    intros [[<- _]|[_ Hp]]%lookup_insert_Some; [right; left|].
    destruct (H pid p Hp); [by left|right; by right].
  - rewrite (preload_uncached_eq _ _ E). simpl.
    intros [[<- _]|[_ Hp]]%lookup_insert_Some; [right; left|].
    destruct (H pid p Hp); [by left|right; by right].
Qed.

Lemma handled_but_mark_handled pid pids s :
  handled_but (pid :: pids) s -> handled_but pids (mark_handled pid s).
Proof.
  intros H pid' p Hp. destruct (decide (pid = pid')) as [<-|Hne].
  - rewrite mark_handled_lookup in Hp. destruct (promises s !! pid); [|done].
    simpl in Hp. injection Hp as <-. by left.
  - rewrite mark_handled_lookup_ne in Hp by done.
    destruct (H pid' p Hp) as [?|[?|?]%elem_of_cons]; [by left|congruence|by right].
Qed.

Lemma handled_but_weaken pids pids' s :
  (forall pid, pid ∈ pids -> pid ∈ pids') -> handled_but pids s -> handled_but pids' s.
Proof. intros Hsub H pid p Hp. destruct (H pid p Hp); auto. Qed.

Lemma handled_all_catch_warn pid src s :
  handled_but [pid] s -> handled_all (catch_warn pid src s).
Proof.
  intros H. apply handled_but_mark_handled, handled_but_nil in H.
  unfold catch_warn. by destruct (promises (mark_handled pid s) !! pid) as [[[] ?]|].
Qed.

Lemma handled_but_map_preload sources pids s :
  handled_but pids s ->
  handled_but ((PreloadManager.map_preload sources s).1 ++ pids)
    (PreloadManager.map_preload sources s).2.
Proof.
  revert s pids. induction sources as [|src rest IH]; intros s pids H; simpl; [done|].
  pose proof (handled_but_preload src pids s H) as H1.
  destruct (PreloadManager.preload src s) as [pid s1]. simpl in *.
  specialize (IH s1 _ H1). destruct (PreloadManager.map_preload rest s1) as [pids' s2].
  simpl in *. eapply handled_but_weaken; [|exact IH].
  intros p. rewrite elem_of_app, !elem_of_cons, elem_of_app. tauto.
Qed.

Lemma handled_but_foldr_mark_handled pids pids' s :
  handled_but (pids ++ pids') s -> handled_but pids' (foldr mark_handled s pids).
Proof.
  revert pids'. induction pids as [|pid pids IH]; intros pids' H; simpl; [done|].
  apply handled_but_mark_handled, IH.
  eapply handled_but_weaken; [|exact H].
  intros x. simpl. rewrite !elem_of_app, !elem_of_cons, elem_of_app. tauto.
Qed.

Lemma handled_all_preloadAll sources s :
  handled_all s -> handled_all (PreloadManager.preloadAll sources s).2.
Proof.
  intros H%handled_but_nil. unfold PreloadManager.preloadAll.
  pose proof (handled_but_map_preload sources [] s H) as H1.
  destruct (PreloadManager.map_preload sources s) as [pids s1]. simpl in *.
  by apply handled_but_nil, handled_but_foldr_mark_handled.
Qed.

(** An operation of the preloader that throws nothing and leaves every
    promise handled. *)
Lemma quiet_page_kept gallery s s' :
  page_kept s s' -> uncaught s' = uncaught s -> handled_all s' ->
  quiet gallery s -> quiet gallery s'.
Proof.
  intros (_ & _ & Hl & Ht & _) Hu Hh [Q1 Q2 Q3 Q4]. split; [congruence| | |done].
  - by rewrite Hl.
  - by rewrite Ht.
Qed.

Lemma uncaught_map_preload sources s :
  uncaught (PreloadManager.map_preload sources s).2 = uncaught s.
Proof.
  revert s. induction sources as [|src rest IH]; intros s; simpl; [done|].
  destruct (preload_frame src s) as (_ & _ & _ & _ & _ & _ & _ & _ & _ & Hu).
  destruct (PreloadManager.preload src s) as [pid s1]. simpl in *.
  specialize (IH s1). destruct (PreloadManager.map_preload rest s1) as [pids s2].
  simpl in *. congruence.
Qed.

Lemma uncaught_foldr_mark_handled pids s :
  uncaught (foldr mark_handled s pids) = uncaught s.
Proof.
  induction pids as [|pid pids IH]; simpl; [done|].
  destruct (mark_handled_frame pid (foldr mark_handled s pids))
    as (_ & _ & _ & _ & _ & _ & _ & _ & _ & _ & _ & -> & _). exact IH.
Qed.

Lemma uncaught_preloadAll sources s :
  uncaught (PreloadManager.preloadAll sources s).2 = uncaught s.
Proof.
  unfold PreloadManager.preloadAll.
  pose proof (uncaught_map_preload sources s) as H.
  destruct (PreloadManager.map_preload sources s) as [pids s1]. simpl in *.
  by rewrite uncaught_foldr_mark_handled.
Qed.

Lemma quiet_preloadAll gallery sources s :
  quiet gallery s -> quiet gallery (PreloadManager.preloadAll sources s).2.
Proof.
  intros Q. eapply quiet_page_kept; [apply page_kept_preloadAll| | |exact Q].
  - apply uncaught_preloadAll.
  - apply handled_all_preloadAll, (q_handled _ _ Q).
Qed.

Lemma quiet_set_thens gallery v s : quiet gallery s -> quiet gallery (set_thens v s).
Proof. intros [Q1 Q2 Q3 Q4]. by split. Qed.

Lemma quiet_foldl gallery {A} (f : State -> A -> State) (l : list A) s :
  (forall acc x, quiet gallery acc -> quiet gallery (f acc x)) ->
  quiet gallery s -> quiet gallery (foldl f s l).
Proof.
  intros Hf. revert s. induction l as [|x l IH]; intros s Q; simpl; [done|].
  apply IH. by apply Hf.
Qed.

Lemma quiet_checkpoint gallery s : quiet gallery s -> quiet gallery (checkpoint s).
Proof.
  intros Q. unfold checkpoint. apply quiet_foldl; [|by apply quiet_set_thens].
  intros acc t Qacc. unfold then_callback. case_match; [by apply quiet_preloadAll|done].
Qed.

Lemma quiet_initializeProjectGallery gallery images s :
  quiet gallery s -> quiet gallery (initializeProjectGallery images s).
Proof.
  intros Q. unfold initializeProjectGallery.
  pose proof (quiet_preloadAll gallery (take 5 images) s Q) as Q1.
  destruct (PreloadManager.preloadAll _ s) as [pids s1]. by apply quiet_set_thens.
Qed.

Lemma quiet_empty gallery : quiet gallery empty_state.
Proof.
  split; simpl; [done| | |].
  - intros oid src H. by apply elem_of_nil in H.
  - intros t i H. by apply elem_of_nil in H.
  - intros pid p H. simpl in H. by rewrite lookup_empty in H.
Qed.

Lemma handled_all_resolve pid h s : handled_all s -> handled_all (resolve pid h s).
Proof.
  intros H. unfold resolve. destruct (promises s !! pid) as [[[] hd]|] eqn:E; try done.
  intros pid' p. simpl. intros [[<- <-]|[_ Hp]]%lookup_insert_Some; [|by eapply H].
  by apply (H pid _ E).
Qed.

Lemma handled_all_reject pid e s :
  handled_all s -> handled_all (reject pid e s) /\ uncaught (reject pid e s) = uncaught s.
Proof.
  intros H. destruct (promises s !! pid) as [[st hd]|] eqn:E.
  - destruct st; [|rewrite reject_settled; [done|intros ?; by rewrite E]..].
    rewrite (reject_pending _ _ _ _ E). simpl.
    pose proof (H pid _ E) as Hhd. simpl in Hhd. subst hd. split; [|done].
    intros pid' p. simpl. intros [[<- <-]|[_ Hp]]%lookup_insert_Some; [done|by eapply H].
  - rewrite reject_settled; [done|]. intros ?. by rewrite E.
Qed.

Lemma quiet_showPreview gallery src v s :
  wf s -> src ∈ gallery -> quiet gallery s -> quiet gallery (showPreview src v s).
Proof.
  intros W Hin [Q1 Q2 Q3 Q4]. rewrite (showPreview_wf_eq src v s W). split; simpl; auto.
  intros oid src' [?|[[= _ <-]|H]%elem_of_cons]%elem_of_cons; [done|done|].
  by apply elem_of_nil in H.
Qed.

Lemma quiet_showProjectImages gallery index s :
  wf s -> is_Some (Js.index gallery index) -> quiet gallery s ->
  quiet gallery (settle_result (showProjectImages index gallery s)).
Proof.
  intros W [src Hsrc] Q.
  destruct (index_Some_range _ _ _ Hsrc) as (z & -> & Hz & Hin).
  set (v := Js.endsWith src ".mp4" || Js.endsWith src ".webm").
  pose proof (quiet_showPreview gallery src v s W Hin Q) as Q1.
  destruct (decide (length gallery = 1)) as [H1|H1].
  - by rewrite (showProjectImages_single _ _ _ s Hsrc H1).
  - unfold Js.len in Hz.
    destruct (showProjectImages_many gallery z src s Hsrc ltac:(lia))
      as (nextSrc & _ & _ & ->). fold v. cbn [settle_result].
    set (s1 := showPreview src v s) in *.
    eapply (quiet_page_kept _ s1); [| | |exact Q1].
    + eapply page_kept_trans; [apply page_kept_preload|apply page_kept_catch_warn].
    + destruct (catch_warn_frame (PreloadManager.preload nextSrc s1).1 nextSrc
                  (PreloadManager.preload nextSrc s1).2) as (_&_&_&_&_&_&_&_&_& -> &_).
      by destruct (preload_frame nextSrc s1) as (_ & _ & _ & _ & _ & _ & _ & _ & _ & ->).
    + apply handled_all_catch_warn, handled_but_preload, handled_but_nil.
      apply (q_handled _ _ Q1).
Qed.

Lemma quiet_set_now gallery v s : quiet gallery s -> quiet gallery (set_now v s).
Proof. intros [Q1 Q2 Q3 Q4]. by split. Qed.

Lemma quiet_run_timer gallery s t :
  wf s -> (forall i, t.2 = TShow i -> is_Some (Js.index gallery i)) ->
  quiet gallery s -> quiet gallery (run_timer gallery s t).
Proof.
  intros W Ht Q. unfold run_timer. destruct (t.2) as [oid|i].
  - eapply quiet_calm; [apply calm_cleanup|by apply quiet_set_now].
  - apply quiet_showProjectImages; [by apply wf_set_now|by apply Ht|by apply quiet_set_now].
Qed.

Lemma quiet_foldl_run_timer gallery due s :
  wf s -> (forall t i, (t, TShow i) ∈ due -> is_Some (Js.index gallery i)) ->
  quiet gallery s -> quiet gallery (foldl (run_timer gallery) s due).
Proof.
  revert s. induction due as [|[t a] due IH]; intros s W Hdue Q; simpl; [done|].
  apply IH.
  - by apply wf_run_timer.
  - intros t' i H. eapply Hdue. by right.
  - apply quiet_run_timer; [done| |done]. simpl. intros i ->. eapply Hdue. left.
Qed.

Lemma quiet_advance gallery d s :
  wf s -> quiet gallery s -> quiet gallery (advance gallery d s).
Proof.
  intros W Q. unfold advance. apply quiet_set_now, quiet_foldl_run_timer.
  - by apply wf_set_timers.
  - intros t i [_ H]%list_elem_of_filter. by eapply (q_timers _ _ Q).
  - destruct Q as [Q1 Q2 Q3 Q4]. split; simpl; auto.
    intros t i [_ H]%list_elem_of_filter. by eapply Q3.
Qed.

Lemma quiet_fire_signal gallery e sig s :
  quiet gallery s -> quiet gallery (fire_signal e sig s).
Proof.
  intros Q. unfold fire_signal. destruct (loaders s !! e) as [l|]; [|done].
  destruct (next_phase _ _ _) as [ph|]; [|done].
  assert (quiet gallery (set_loaders (<[e:=mkLoader (l_elem l) (l_owner l) ph]> (loaders s)) s))
    as Q1 by (destruct Q; by split).
  revert Q1. generalize (set_loaders (<[e:=mkLoader (l_elem l) (l_owner l) ph]> (loaders s)) s).
  intros s1 Q1. unfold run_handler.
  assert (forall pid src h, quiet gallery (preload_onload pid src h s1)) as Hload.
  { intros pid src h. unfold preload_onload.
    eapply (quiet_page_kept _ s1); [| | |exact Q1].
    - eapply (page_kept_trans _ (set_cache _ s1)); [by repeat split|apply page_kept_resolve].
    - by destruct (resolve_frame pid h (set_cache (<[src:=h]> (cache s1)) s1))
        as (_ & _ & _ & -> & _).
    - apply handled_all_resolve. apply (q_handled _ _ Q1). }
  assert (forall pid src k, quiet gallery (preload_onerror pid src k s1)) as Herr.
  { intros pid src k. rewrite preload_onerror_eq.
    destruct (handled_all_reject pid (load_failure k src) s1 (q_handled _ _ Q1)) as [Hh Hu].
    eapply (quiet_page_kept _ s1); [apply page_kept_reject|done|done|exact Q1]. }
  destruct (l_owner l) as [pid src|oid src], (el_kind (l_elem l)), sig; auto;
    (eapply quiet_calm; [|exact Q1]);
    first [apply calm_loadHandler | apply calm_content_onerror].
Qed.

Lemma quiet_task gallery ev s :
  wf s -> in_bounds gallery ev -> quiet gallery s -> quiet gallery (task gallery ev s).
Proof.
  intros W Hev Q. destruct ev; simpl in *.
  - by apply quiet_initializeProjectGallery.
  - apply quiet_showProjectImages; [done| |done].
    destruct (index_in_range gallery index Hev) as (x & -> & _). eauto.
  - eapply quiet_calm; [by apply calm_keydown|done].
  - case_bool_decide; [|done]. eapply quiet_calm; [apply calm_overlay_onclick|done].
  - by apply quiet_fire_signal.
  - by apply quiet_advance.
Qed.

Lemma quiet_step gallery s ev :
  wf s -> in_bounds gallery ev -> quiet gallery s -> quiet gallery (step gallery s ev).
Proof. intros W Hev Q. by apply quiet_checkpoint, quiet_task. Qed.

Lemma quiet_run gallery evs s :
  wf s -> Forall (in_bounds gallery) evs -> quiet gallery s ->
  quiet gallery (run gallery evs s).
Proof.
  revert s. induction evs as [|ev evs IH]; intros s W Hevs Q; simpl; [done|].
  apply Forall_cons in Hevs as [Hev Hevs].
  apply IH; [by apply wf_step|done|by apply quiet_step].
Qed.

(** * The claims *)

(** C1.  At most one overlay node is in the document at any time.  Every
    call of [showPreview] removes the overlay that is there, with its two
    keydown handlers, and leaves exactly the new overlay in the document
    with exactly the new overlay's two handlers registered. *)
Theorem single_overlay gallery src isVideo s :
  reachable gallery s ->
  length (body s) <= 1 /\
  body (showPreview src isVideo s) = [next_id s] /\
  listeners (showPreview src isVideo s) =
    [EscHandler (next_id s); KeyNavHandler (next_id s) src] /\
  (forall old o,
     old ∈ body s -> nodes s !! old = Some o ->
     listeners s = [o_escHandler o; o_keyNavHandler o] /\
     (old ∉ body (showPreview src isVideo s)) /\
     (o_escHandler o ∉ listeners (showPreview src isVideo s)) /\
     o_keyNavHandler o ∉ listeners (showPreview src isVideo s)).
Proof.
  intros W%reachable_wf. rewrite (showPreview_wf_eq src isVideo s W). simpl.
  split; [|split; [done|split; [done|]]].
  - destruct (wf_dom _ W) as [[-> _]|(oid & o & -> & _)]; simpl; lia.
  - intros old o Hin Ho.
    destruct (wf_nodes _ W old o Ho) as (Hlt & _ & He & src' & Hk).
    destruct (wf_dom _ W) as [[Hb _]|(oid & o' & Hb & Ho' & Hl)]; rewrite Hb in Hin.
    + by apply elem_of_nil in Hin.
    + apply list_elem_of_singleton in Hin as ->.
      assert (o' = o) as -> by congruence. split; [done|].
      rewrite He, Hk. split_and!.
      * intros ->%list_elem_of_singleton. lia.
      * intros [[= ?]|[?|H]%elem_of_cons]%elem_of_cons; [lia|done|].
        by apply elem_of_nil in H.
      * intros [?|[[= ? _]|H]%elem_of_cons]%elem_of_cons; [done|lia|].
        by apply elem_of_nil in H.
Qed.

Lemma single_overlay_witness :
  let s := step ["a.jpg"; "b.jpg"] empty_state (EvShowArch 0) in
  body s = [0] /\
  length (body s) <= 1 /\
  body (showPreview "b.jpg" false s) = [next_id s] /\
  listeners (showPreview "b.jpg" false s) =
    [EscHandler (next_id s); KeyNavHandler (next_id s) "b.jpg"].
Proof.
  intros s. split; [reflexivity|].
  destruct (single_overlay ["a.jpg"; "b.jpg"] "b.jpg" false s) as (H1 & H2 & H3 & _).
  - apply reach_step, reach_init.
  - exact (conj H1 (conj H2 H3)).
Defined.

(** C2.  For an identifier that is in the cache, [preload] returns a
    promise that is already fulfilled with the cached handle; it starts no
    load (no element is created, no request is made) and leaves the cache
    and every other promise as they are. *)
Theorem preload_cached src h s :
  cache s !! src = Some h ->
  let pid := (PreloadManager.preload src s).1 in
  let s' := (PreloadManager.preload src s).2 in
  outcome_of s' pid = Some (OFulfilled h) /\
  cache s' = cache s /\
  loaders s' = loaders s /\
  requests s' = requests s /\
  (forall p, p ≠ pid -> promises s' !! p = promises s !! p).
Proof.
  intros H. rewrite (preload_cached_eq _ _ _ H). simpl. split_and!; try done.
  - unfold outcome_of. simpl. by rewrite lookup_insert_eq.
  - intros p Hp. by rewrite lookup_insert_ne.
Qed.

Lemma preload_cached_witness :
  let h := mkElement 1 Img "a.jpg" in
  let s := run ["a.jpg"] [EvDOMContentLoaded; EvSignal 1 SigLoad] empty_state in
  cache s !! "a.jpg" = Some h /\
  outcome_of (PreloadManager.preload "a.jpg" s).2 (PreloadManager.preload "a.jpg" s).1 =
    Some (OFulfilled h) /\
  requests (PreloadManager.preload "a.jpg" s).2 = requests s.
Proof.
  intros h s.
  assert (cache s !! "a.jpg" = Some h) as Hc by (vm_compute; reflexivity).
  split; [exact Hc|].
  destruct (preload_cached "a.jpg" h s Hc) as (H1 & _ & _ & H4 & _).
  exact (conj H1 H4).
Defined.

(** C3.  [preloadAll] calls [preload] once for every input, in order (one
    promise per input, one load started per input that is not cached).
    The aggregate stays unsettled as long as one of these promises is
    pending, whatever has been rejected meanwhile; once it has settled, in
    whatever order the loads completed, its value has one entry per input,
    in input order: fulfilled with an element of that source, or rejected
    with the load failure of that source. *)
Theorem preloadAll_settles_all gallery sources evs s :
  wf s ->
  let pids := (PreloadManager.preloadAll sources s).1 in
  let s1 := (PreloadManager.preloadAll sources s).2 in
  let t := run gallery evs s1 in
  Forall2 (promise_for s1) pids sources /\
  requests s1 = requests s ++ filter (fun src => cache s !! src = None) sources /\
  (allSettled_value t pids = None <->
   exists pid, pid ∈ pids /\ pstate t pid = Some Pending) /\
  (forall outs,
     allSettled_value t pids = Some outs ->
     length outs = length sources /\ Forall2 outcome_for sources outs).
Proof.
  intros W pids s1 t.
  pose proof (promise_for_preloadAll sources s W) as Hfor. fold pids s1 in Hfor.
  assert (Forall2 (promise_for t) pids sources) as Hfor'.
  { eapply Forall2_impl; [exact Hfor|]. intros pid src.
    apply promise_for_run. by apply wf_preloadAll. }
  split_and!.
  - exact Hfor.
  - apply preloadAll_requests.
  - by apply allSettled_pending with sources.
  - intros outs Hs. pose proof (allSettled_outcomes t pids sources outs Hfor' Hs) as Ho.
    split; [|done]. symmetry. by eapply Forall2_length.
Qed.

Lemma preloadAll_settles_all_witness :
  let sources := ["a.jpg"; "b.mp4"; "c.jpg"] in
  let pids := (PreloadManager.preloadAll sources empty_state).1 in
  let s1 := (PreloadManager.preloadAll sources empty_state).2 in
  let t := run [] [EvSignal 5 SigLoad; EvSignal 1 SigLoad; EvSignal 3 SigError] s1 in
  allSettled_value t pids =
    Some [OFulfilled (mkElement 1 Img "a.jpg");
          ORejected (load_failure Video "b.mp4");
          OFulfilled (mkElement 5 Img "c.jpg")] /\
  Forall2 outcome_for sources
    [OFulfilled (mkElement 1 Img "a.jpg");
     ORejected (load_failure Video "b.mp4");
     OFulfilled (mkElement 5 Img "c.jpg")].
Proof.
  intros sources pids s1 t.
  assert (allSettled_value t pids =
    Some [OFulfilled (mkElement 1 Img "a.jpg");
          ORejected (load_failure Video "b.mp4");
          OFulfilled (mkElement 5 Img "c.jpg")]) as Hv by (vm_compute; reflexivity).
  split; [exact Hv|].
  destruct (preloadAll_settles_all []
              sources [EvSignal 5 SigLoad; EvSignal 1 SigLoad; EvSignal 3 SigError]
              empty_state wf_empty) as (_ & _ & _ & H).
  exact (proj2 (H _ Hv)).
Defined.

(** ** The microtask checkpoint logs nothing *)

Lemma logs_map_preload sources s :
  console (PreloadManager.map_preload sources s).2 = console s.
Proof.
  revert s. induction sources as [|src rest IH]; intros s; simpl; [done|].
  destruct (preload_frame src s) as (_ & _ & _ & _ & _ & _ & _ & _ & Hc & _).
  destruct (PreloadManager.preload src s) as [pid s1]. simpl in *.
  specialize (IH s1). destruct (PreloadManager.map_preload rest s1) as [pids s2].
  simpl in *. congruence.
Qed.

Lemma logs_foldr_mark_handled pids s :
  console (foldr mark_handled s pids) = console s.
Proof.
  induction pids as [|pid pids IH]; simpl; [done|].
  destruct (mark_handled_frame pid (foldr mark_handled s pids))
    as (_ & _ & _ & _ & _ & _ & _ & _ & _ & _ & -> & _). exact IH.
Qed.

Lemma logs_preloadAll sources s :
  console (PreloadManager.preloadAll sources s).2 = console s /\
  uncaught (PreloadManager.preloadAll sources s).2 = uncaught s.
Proof.
  split; [|apply uncaught_preloadAll]. unfold PreloadManager.preloadAll.
  pose proof (logs_map_preload sources s) as H.
  destruct (PreloadManager.map_preload sources s) as [pids s1]. simpl in *.
  by rewrite logs_foldr_mark_handled.
Qed.

Lemma logs_checkpoint s :
  console (checkpoint s) = console s /\ uncaught (checkpoint s) = uncaught s.
Proof.
  unfold checkpoint.
  change (console s) with (console (set_thens (filter
    (fun t => forallb (is_settled s) t.1 ≠ true) (thens s)) s)).
  change (uncaught s) with (uncaught (set_thens (filter
    (fun t => forallb (is_settled s) t.1 ≠ true) (thens s)) s)).
  generalize (set_thens (filter (fun t => forallb (is_settled s) t.1 ≠ true) (thens s)) s).
  generalize (filter (fun t => forallb (is_settled s) t.1 = true) (thens s)).
  intros ready. induction ready as [|t ready IH]; intros s0; simpl; [done|].
  destruct (IH (then_callback t.2 s0)) as [-> ->]. unfold then_callback.
  case_match; [apply logs_preloadAll|done].
Qed.

Lemma pstate_Pending s pid :
  pstate s pid = Some Pending -> exists hd, promises s !! pid = Some (mkPromise Pending hd).
Proof.
  unfold pstate. destruct (promises s !! pid) as [[st hd]|]; simpl; [|done].
  intros [= ->]. eauto.
Qed.

Lemma load_failure_names_source k src : ends_in (Js.e_message (load_failure k src)) src.
Proof. destruct k; simpl; eexists; reflexivity. Qed.

(** ** The claims, continued *)

(** C4.  For an identifier that is not in the cache, [preload] returns a
    pending promise and starts a load, without touching the cache.  When
    the load ends, the promise is either fulfilled with the loaded element,
    and then the element is stored in the cache under the identifier, or
    rejected with an error whose message ends in the identifier, and then
    the cache is left as it was. *)
Theorem preload_unseen gallery src s :
  cache s !! src = None ->
  let pid := (PreloadManager.preload src s).1 in
  let s1 := (PreloadManager.preload src s).2 in
  let el :=
    mkElement (S (next_id s))
      (if Js.endsWith src ".mp4" || Js.endsWith src ".webm" then Video else Img) src in
  pstate s1 pid = Some Pending /\
  loaders s1 !! el_id el = Some (mkLoader el (PreloadOf pid src) Loading) /\
  requests s1 = requests s ++ [src] /\
  cache s1 = cache s /\
  forall t sig ph,
    wf t ->
    pstate t pid = Some Pending ->
    loaders t !! el_id el = Some (mkLoader el (PreloadOf pid src) Loading) ->
    next_phase (el_kind el) Loading sig = Some ph ->
    let t' := step gallery t (EvSignal (el_id el) sig) in
    (sig = success_signal (el_kind el) /\
     outcome_of t' pid = Some (OFulfilled el) /\
     cache t' = <[src := el]> (cache t)) \/
    (sig = SigError /\
     outcome_of t' pid = Some (ORejected (load_failure (el_kind el) src)) /\
     ends_in (Js.e_message (load_failure (el_kind el) src)) src /\
     cache t' = cache t).
Proof.
  intros Hc pid s1 el. subst pid s1 el. rewrite (preload_uncached_eq _ _ Hc).
  set (k := if Js.endsWith src ".mp4" || Js.endsWith src ".webm" then Video else Img).
  clearbody k. cbn [fst snd el_id el_kind loaders requests cache].
  split; [unfold pstate; simpl; by rewrite lookup_insert_eq|].
  split; [by rewrite lookup_insert_eq|]. split; [done|]. split; [done|].
  intros t sig ph W Hp Hl Hsig.
  destruct (pstate_Pending _ _ Hp) as [hd Hpr].
  assert (next_id s < next_id t) as Hlt by (apply (wf_promises _ W); by rewrite Hpr).
  pose proof (wf_fire_signal (S (next_id s)) sig t W) as W1.
  destruct (promises_kept_checkpoint _ W1) as (_ & Hck & Hpk & _).
  destruct (fire_signal_effect (S (next_id s)) sig t) as (Hid & _ & _).
  unfold step. simpl task. rewrite !outcome_of_pstate, Hck, Hpk by lia.
  destruct (next_phase_loading _ _ _ Hsig) as [[-> ->]|[-> ->]]; [left|right].
  - split; [done|].
    pose proof (fire_signal_preload_success _ _ _ _ _ Hl) as Hfs.
    cbn [el_kind] in Hfs. rewrite Hfs.
    rewrite (resolve_pending (next_id s) _ hd) by done.
    unfold pstate. simpl. by rewrite lookup_insert_eq.
  - split; [done|].
    pose proof (fire_signal_preload_error _ _ _ _ _ Hl) as Hfs.
    cbn [el_kind] in Hfs. rewrite Hfs.
    rewrite (reject_pending (next_id s) _ hd) by done.
    unfold pstate. simpl. rewrite lookup_insert_eq. simpl.
    split; [done|]. split; [apply load_failure_names_source|done].
Qed.

Lemma preload_unseen_witness :
  let el := mkElement 1 Img "a.jpg" in
  let s1 := (PreloadManager.preload "a.jpg" empty_state).2 in
  pstate s1 0 = Some Pending /\
  (outcome_of (step [] s1 (EvSignal 1 SigError)) 0 =
     Some (ORejected (load_failure Img "a.jpg")) /\
   cache (step [] s1 (EvSignal 1 SigError)) = cache s1) /\
  (outcome_of (step [] s1 (EvSignal 1 SigLoad)) 0 = Some (OFulfilled el) /\
   cache (step [] s1 (EvSignal 1 SigLoad)) = <["a.jpg" := el]> (cache s1)).
Proof.
  intros el s1.
  destruct (preload_unseen [] "a.jpg" empty_state eq_refl) as (H1 & H2 & _ & _ & H).
  assert (wf s1) as W by (apply wf_preload, wf_empty).
  split; [exact H1|]. split.
  - destruct (H s1 SigError Failed W H1 H2 eq_refl) as [(Hs & _)|(_ & Ho & _ & Hc)];
      [discriminate Hs|exact (conj Ho Hc)].
  - destruct (H s1 SigLoad Loaded W H1 H2 eq_refl) as [(_ & Ho & Hc)|(Hs & _)];
      [exact (conj Ho Hc)|discriminate Hs].
Defined.

(** C7.  [preload] and [showProjectImages] classify an identifier in the
    same way, for every identifier: the element they create for it is a
    video exactly when the identifier ends in [.mp4] or [.webm], and an
    image otherwise. *)
Theorem classification_agrees src images index s :
  wf s -> cache s !! src = None -> Js.index images index = Some src ->
  exists k s',
    loaders (PreloadManager.preload src s).2 !! S (next_id s) =
      Some (mkLoader (mkElement (S (next_id s)) k src)
              (PreloadOf (next_id s) src) Loading) /\
    showProjectImages index images s = Ok s' /\
    loaders s' !! S (next_id s) =
      Some (mkLoader (mkElement (S (next_id s)) k src)
              (ContentOf (next_id s) src) Loading) /\
    (k = Video <-> is_video_name src) /\
    (k = Img <-> ~ is_video_name src).
Proof.
  intros W Hc Hsrc.
  destruct (showProjectImages_opens images index src s W Hsrc)
    as (s' & Hs' & _ & _ & _ & Hl & _).
  exists (if Js.endsWith src ".mp4" || Js.endsWith src ".webm" then Video else Img), s'.
  rewrite (preload_uncached_eq _ _ Hc). simpl. rewrite lookup_insert_eq.
  split; [done|]. split; [done|]. split; [exact Hl|].
  assert (Js.endsWith src ".mp4" || Js.endsWith src ".webm" = true <-> is_video_name src)
    as Hv.
  { unfold is_video_name. rewrite orb_true_iff, !endsWith_spec. done. }
  destruct (Js.endsWith src ".mp4" || Js.endsWith src ".webm").
  - split; [tauto|]. split; [done|]. intros Hn. exfalso. apply Hn. by apply Hv.
  - split; [split; [done|]; intros H%Hv; done|]. split; [|done].
    intros _ H%Hv. done.
Qed.

Lemma classification_agrees_witness :
  exists k s',
    loaders (PreloadManager.preload "clip.webm" empty_state).2 !! 1 =
      Some (mkLoader (mkElement 1 k "clip.webm") (PreloadOf 0 "clip.webm") Loading) /\
    showProjectImages (Js.Int 1) ["a.jpg"; "clip.webm"] empty_state = Ok s' /\
    loaders s' !! 1 =
      Some (mkLoader (mkElement 1 k "clip.webm") (ContentOf 0 "clip.webm") Loading) /\
    (k = Video <-> is_video_name "clip.webm") /\
    (k = Img <-> ~ is_video_name "clip.webm").
Proof.
  exact (classification_agrees "clip.webm" ["a.jpg"; "clip.webm"] (Js.Int 1) empty_state
           wf_empty eq_refl eq_refl).
Defined.

(** A navigation timer that fires opens the overlay of its position. *)
Lemma run_timer_show gallery s t i src :
  wf s -> Js.index gallery i = Some src ->
  shows (run_timer gallery s (t, TShow i)) (next_id s) src.
Proof.
  intros W Hsrc. unfold run_timer. simpl.
  destruct (showProjectImages_opens gallery i src (set_now (now s `max` t) s)
              (wf_set_now _ _ W) Hsrc) as (s' & -> & Hb & _ & Hn & _).
  simpl in *. split; [done|]. eauto.
Qed.

(** C9, as stated, fails on a list of one item: the item is shown, and the
    guard [nextIndex !== index] skips the preload (no promise is made, the
    only request is the one of the overlay). *)
Lemma single_item_not_preloaded :
  showProjectImages (Js.Int 0) ["a.jpg"] empty_state =
    Ok (showPreview "a.jpg" false empty_state) /\
  promises (showPreview "a.jpg" false empty_state) = ∅ /\
  requests (showPreview "a.jpg" false empty_state) = ["a.jpg"] /\
  ~ preloads_next ["a.jpg"] 0 empty_state.
Proof.
  split; [reflexivity|]. split; [reflexivity|]. split; [reflexivity|].
  intros (src & nextSrc & Hsrc & Hnext & Heq).
  injection Hsrc as <-. injection Hnext as <-.
  apply (f_equal (fun r => match r with Ok s' => next_id s' | Throw _ s' => next_id s' end))
    in Heq.
  vm_compute in Heq. discriminate Heq.
Qed.

Lemma filter_none {A} (P : A -> Prop) `{forall x, Decision (P x)} (l : list A) :
  (forall x, x ∈ l -> ~ P x) -> filter P l = [].
Proof.
  induction l as [|x l IH]; intros Hl; [done|].
  rewrite filter_cons_False by (apply Hl; left). apply IH.
  intros y Hy. apply Hl. by right.
Qed.

(** C9, amended.  For a list of at least two items and a valid index,
    [showProjectImages] shows the item at the index in the overlay and
    preloads the item at [(index + 1) mod length]; when the load of that
    item fails, the failure is logged as a warning and nothing is thrown. *)
Theorem next_item_preloaded gallery images z src s :
  wf s -> Js.index images (Js.Int z) = Some src -> 2 <= length images ->
  preloads_next images z s /\
  exists nextSrc s',
    Js.index images (Js.Int ((z + 1) `mod` Js.len images)) = Some nextSrc /\
    showProjectImages (Js.Int z) images s = Ok s' /\
    shows s' (next_id s) src /\
    (cache s !! nextSrc = None ->
     let s'' := step gallery s' (EvSignal (next_id s + 3) SigError) in
     console s'' = console s' ++ ["Failed to preload: " +:+ nextSrc] /\
     uncaught s'' = uncaught s').
Proof.
  intros W Hsrc Hlen.
  destruct (showProjectImages_many images z src s Hsrc Hlen) as (nextSrc & Hnext & _ & Heq).
  split; [by exists src, nextSrc|].
  destruct (showProjectImages_opens images (Js.Int z) src s W Hsrc)
    as (s' & Hs' & Hb & _ & Hn & _ & _ & _ & _ & _).
  exists nextSrc, s'. split; [done|]. split; [done|]. split; [split; eauto|].
  intros Hc s''. subst s''.
  rewrite Heq in Hs'. injection Hs' as <-.
  set (v := Js.endsWith src ".mp4" || Js.endsWith src ".webm") in *.
  pose proof (showPreview_wf_eq src v s W) as Hs1.
  set (s1 := showPreview src v s) in *.
  assert (cache s1 !! nextSrc = None) as Hc1 by (by rewrite Hs1).
  assert (next_id s1 = S (S (next_id s))) as Hid1 by (by rewrite Hs1).
  assert (forall c, c ∈ catches s1 -> c.1 < next_id s) as Hcat.
  { rewrite Hs1. simpl. apply (wf_catches _ W). }
  clear Hs1 Heq Hb Hn. clearbody s1.
  rewrite (preload_uncached_eq _ _ Hc1). cbn [fst snd]. rewrite Hid1.
  set (s2 := mkState _ _ _ _ _ _ _ _ _ _ _ _ _ _).
  set (pid := S (S (next_id s))).
  assert (promises s2 !! pid = Some (mkPromise Pending false)) as Hp2
    by (subst s2; simpl; by rewrite lookup_insert_eq).
  destruct (catch_warn_pending pid nextSrc false s2 Hp2) as (Hp3 & Hcat3 & Hcon3).
  destruct (catch_warn_frame pid nextSrc s2) as (_ & _ & Hl3 & _ & _ & _ & _ & _ & _ & Hu3 & _).
  set (s3 := catch_warn pid nextSrc s2) in *.
  destruct (logs_checkpoint (task gallery (EvSignal (next_id s + 3) SigError) s3)) as [Hk1 Hk2].
  unfold step. rewrite Hk1, Hk2. simpl task.
  replace (next_id s + 3) with (S pid) by (subst pid; lia).
  assert (exists el, loaders s3 !! S pid = Some (mkLoader el (PreloadOf pid nextSrc) Loading))
    as [el Hl].
  { rewrite Hl3. subst s2. simpl. rewrite lookup_insert_eq. eauto. }
  rewrite (fire_signal_preload_error _ _ _ _ _ Hl).
  rewrite (reject_pending pid _ true)
    by (simpl; rewrite Hp3; by rewrite lookup_insert_eq).
  simpl. split; [|done]. f_equal. rewrite Hcat3. subst s2. simpl.
  rewrite filter_app, filter_cons_True by done. rewrite filter_nil.
  rewrite filter_none; [done|].
  intros c Hin Heq. specialize (Hcat c Hin). subst pid. lia.
Qed.

Lemma next_item_preloaded_witness :
  preloads_next ["a.jpg"; "b.jpg"] 1 empty_state /\
  exists s',
    showProjectImages (Js.Int 1) ["a.jpg"; "b.jpg"] empty_state = Ok s' /\
    console (step [] s' (EvSignal 3 SigError)) = ["Failed to preload: a.jpg"] /\
    uncaught (step [] s' (EvSignal 3 SigError)) = [].
Proof.
  destruct (next_item_preloaded [] ["a.jpg"; "b.jpg"] 1 "b.jpg" empty_state wf_empty eq_refl)
    as (H1 & nextSrc & s' & Hnext & Hs' & _ & Hfail).
  - simpl. lia.
  - split; [exact H1|]. exists s'. split; [exact Hs'|].
    injection Hnext as <-. destruct (Hfail eq_refl) as [Hc Hu].
    injection Hs' as <-. exact (conj Hc Hu).
Defined.

Lemma index_out_of_range arr z :
  ~ (0 <= z < Js.len arr)%Z -> Js.index arr (Js.Int z) = None.
Proof.
  intros H. simpl. destruct (Z.leb_spec 0 z); [|done].
  apply lookup_ge_None. unfold Js.len in H. lia.
Qed.

(** C6, as stated, fails: with an index outside the gallery (here 200, one
    past the last position) [images[index]] is [undefined], reading
    [endsWith] of it throws a [TypeError], and nothing catches it. *)
Lemma entry_point_out_of_bounds_throws :
  showArchProjectImages 200 empty_state = Throw TypeError_endsWith empty_state /\
  uncaught (step archProjectImages empty_state (EvShowArch 200)) = [TypeError_endsWith] /\
  ~ exists s', showArchProjectImages 200 empty_state = Ok s'.
Proof.
  split; [reflexivity|]. split; [reflexivity|].
  intros [s' H]. discriminate H.
Qed.

(** C6, amended.  As long as the entry point is called with positions of
    the built-in gallery ([0 <= index < 200]), nothing is ever thrown
    uncaught, whatever the user and the network do: each such call returns
    normally, failed loads end in a logged warning or in the message of the
    overlay.  A call with an index outside the gallery throws a
    [TypeError] before anything is shown. *)
Theorem entry_point_in_bounds_never_throws evs index :
  Forall (in_bounds archProjectImages) evs ->
  let s := run archProjectImages evs empty_state in
  uncaught s = [] /\
  ((0 <= index < 200)%Z ->
   exists s', showArchProjectImages index s = Ok s' /\ uncaught s' = []) /\
  (~ (0 <= index < 200)%Z ->
   showArchProjectImages index s = Throw TypeError_endsWith s).
Proof.
  intros Hevs s.
  assert (wf s) as W by apply wf_run, wf_empty.
  assert (quiet archProjectImages s) as Q
    by (apply quiet_run; [apply wf_empty|done|apply quiet_empty]).
  split; [apply (q_uncaught _ _ Q)|]. split.
  - intros Hi.
    assert (is_Some (Js.index archProjectImages (Js.Int index))) as Hsome.
    { destruct (index_in_range archProjectImages index) as (x & -> & _); [|eauto].
      change (Js.len archProjectImages) with 200%Z. lia. }
    pose proof (quiet_showProjectImages archProjectImages (Js.Int index) s W Hsome Q) as Q'.
    destruct (proj2 (showProjectImages_Ok_iff archProjectImages (Js.Int index) s) Hsome)
      as [s' Hs']. exists s'. split; [exact Hs'|].
    rewrite Hs' in Q'. apply (q_uncaught _ _ Q').
  - intros Hi. unfold showArchProjectImages, showProjectImages.
    rewrite index_out_of_range; [done|].
    change (Js.len archProjectImages) with 200%Z. lia.
Qed.

Lemma entry_point_in_bounds_never_throws_witness :
  let evs := [EvDOMContentLoaded; EvShowArch 199; EvSignal 11 SigError;
              EvSignal 13 SigError; EvKeyDown "ArrowRight"; EvAdvance 300] in
  uncaught (run archProjectImages evs empty_state) = [] /\
  console (run archProjectImages evs empty_state) = ["Failed to preload: images/arch1.jpg"].
Proof.
  intros evs. split; [|vm_compute; reflexivity].
  apply (entry_point_in_bounds_never_throws evs 0).
  repeat first [apply Forall_nil_2 | apply Forall_cons_2]; try exact I.
  simpl. change (Js.len archProjectImages) with 200%Z. lia.
Defined.

(** ** An overlay that has been cleaned up stays out of the document *)

Lemma cleanup_removes oid s : wf s -> oid ∉ body (cleanup oid s).
Proof.
  intros W. destruct (cleanup_wf_fields oid s W) as [(_ & -> & _)|(H & -> & _)];
    [apply not_elem_of_nil|done].
Qed.

Lemma cleanup_body_subset oid oid' s : oid ∈ body (cleanup oid' s) -> oid ∈ body s.
Proof.
  unfold cleanup. destruct (nodes s !! oid'); simpl; [|done].
  by intros [_ H]%list_elem_of_filter.
Qed.

Lemma run_timer_keeps_out gallery oid s t :
  wf s -> oid < next_id s -> oid ∉ body s -> oid ∉ body (run_timer gallery s t).
Proof.
  intros W Hlt Hout. unfold run_timer. destruct (t.2) as [oid'|i].
  - intros H%cleanup_body_subset. by apply Hout.
  - destruct (Js.index gallery i) as [src|] eqn:Ei.
    + destruct (showProjectImages_opens gallery i src (set_now (now s `max` t.1) s)
                  (wf_set_now _ _ W) Ei) as (s' & -> & Hb & _).
      simpl in *. rewrite Hb. intros ->%list_elem_of_singleton. lia.
    + unfold showProjectImages. by rewrite Ei.
Qed.

Lemma run_timer_next_id gallery s t : wf s -> next_id s <= next_id (run_timer gallery s t).
Proof. intros W. by destruct (promises_kept_run_timer gallery s t W) as (? & _). Qed.

(** Among the callbacks that run, a cleanup of [oid], or [oid] already out
    of the document: [oid] is out of the document afterwards. *)
Lemma foldl_run_timer_removes gallery oid due s :
  wf s -> oid < next_id s ->
  (oid ∉ body s) \/ (exists t, (t, TCleanup oid) ∈ due) ->
  oid ∉ body (foldl (run_timer gallery) s due).
Proof.
  revert s. induction due as [|[t a] due IH]; intros s W Hlt H; simpl.
  - destruct H as [?|[t Hin]]; [done|]. by apply elem_of_nil in Hin.
  - pose proof (run_timer_next_id gallery s (t, a) W) as Hid.
    apply IH; [by apply wf_run_timer|lia|].
    destruct H as [Hout|[t' [[= <- <-]|Hin]%elem_of_cons]].
    + left. by apply run_timer_keeps_out.
    + left. unfold run_timer. simpl. apply cleanup_removes. by apply wf_set_now.
    + right. eauto.
Qed.

(** In a well-formed document, an overlay that is not shown has no
    listener registered. *)
Lemma not_shown_no_listeners oid s :
  wf s -> oid ∉ body s ->
  (EscHandler oid ∉ listeners s) /\ forall src, KeyNavHandler oid src ∉ listeners s.
Proof.
  intros W Hout. destruct (wf_dom _ W) as [[_ ->]|(oid' & o & Hb & Ho & ->)].
  - split; [|intros src]; apply not_elem_of_nil.
  - destruct (wf_nodes _ W oid' o Ho) as (_ & _ & -> & src' & ->).
    assert (oid ≠ oid') as Hne by (intros ->; apply Hout; rewrite Hb; left).
    split; [|intros src]; intros [?|[?|H]%elem_of_cons]%elem_of_cons;
      try congruence; by apply elem_of_nil in H.
Qed.

(** * Further properties of the preload cache *)

(** What a signal does to the cache: nothing, or one entry written by the
    success handler of the preload element it is sent to. *)
Lemma fire_signal_cache e sig s :
  cache (fire_signal e sig s) = cache s \/
  exists l pid src,
    loaders s !! e = Some l /\ l_owner l = PreloadOf pid src /\
    cache (fire_signal e sig s) = <[src := l_elem l]> (cache s).
Proof.
  unfold fire_signal. destruct (loaders s !! e) as [l|] eqn:El; [|by left].
  destruct (next_phase _ _ _) as [ph|]; [|by left].
  set (s1 := set_loaders _ s).
  assert (cache s1 = cache s) as Hc1 by done. clearbody s1.
  unfold run_handler. destruct (l_owner l) as [pid src|oid src] eqn:Eo.
  - assert (cache (preload_onload pid src (l_elem l) s1) = <[src := l_elem l]> (cache s))
      as Hload.
    { unfold preload_onload.
      destruct (resolve_frame pid (l_elem l) (set_cache (<[src:=l_elem l]> (cache s1)) s1))
        as (-> & _). simpl. by rewrite Hc1. }
    assert (forall k, cache (preload_onerror pid src k s1) = cache s) as Herr.
    { intros k. rewrite preload_onerror_eq.
      destruct (reject_frame pid (load_failure k src) s1) as (-> & _). done. }
    destruct (el_kind (l_elem l)), sig; first [by left | left; apply Herr | idtac];
      right; exists l, pid, src; by rewrite Hload.
  - left. assert (forall s2, dom_only s1 s2 -> cache s2 = cache s) as Hdom.
    { intros s2 (-> & _). done. }
    destruct (el_kind (l_elem l)), sig; apply Hdom;
      first [apply dom_only_loadHandler | apply dom_only_content_onerror].
Qed.

Lemma cache_step_grows gallery s ev src :
  wf s -> is_Some (cache s !! src) -> is_Some (cache (step gallery s ev) !! src).
Proof.
  intros W Hin. unfold step.
  destruct (promises_kept_checkpoint _ (wf_task gallery ev s W)) as (_ & -> & _).
  assert ((exists e sig, ev = EvSignal e sig) \/ (forall e sig, ev ≠ EvSignal e sig))
    as [(e & sig & ->)|Hne] by (destruct ev; eauto).
  - simpl. destruct (fire_signal_cache e sig s) as [->|(l & pid & src' & _ & _ & ->)];
      [done|]. apply lookup_insert_is_Some. destruct (decide (src' = src)); auto.
  - by destruct (promises_kept_task gallery ev s W Hne) as (_ & -> & _).
Qed.

(** X1.  The cache never evicts: an identifier that is cached stays cached
    through every later event, and what [get] returns for it is an element
    whose source is that identifier. *)
Theorem cache_never_evicts gallery evs src s :
  wf s -> PreloadManager.isCached src s = true ->
  let t := run gallery evs s in
  PreloadManager.isCached src t = true /\
  exists h, PreloadManager.get src t = Some h /\ el_src h = src.
Proof.
  intros W Hc t. unfold PreloadManager.isCached, PreloadManager.get in *.
  apply bool_decide_eq_true in Hc.
  assert (wf t /\ is_Some (cache t !! src)) as [Wt [h Hh]].
  { subst t. revert s W Hc. induction evs as [|ev evs IH]; intros s W Hc; simpl; [done|].
    apply IH; [by apply wf_step|by apply cache_step_grows]. }
  split; [apply bool_decide_eq_true; eauto|].
  exists h. split; [done|]. by apply (wf_cache _ Wt).
Qed.

Lemma cache_never_evicts_witness :
  let s := run ["a.jpg"] [EvDOMContentLoaded; EvSignal 1 SigLoad] empty_state in
  let t := run ["a.jpg"] [EvShowArch 0; EvSignal 3 SigError; EvAdvance 2000] s in
  PreloadManager.isCached "a.jpg" s = true /\
  PreloadManager.isCached "a.jpg" t = true.
Proof.
  intros s t.
  assert (PreloadManager.isCached "a.jpg" s = true) as Hc by (vm_compute; reflexivity).
  split; [exact Hc|].
  apply (cache_never_evicts ["a.jpg"] [EvShowArch 0; EvSignal 3 SigError; EvAdvance 2000]
           "a.jpg" s).
  - apply wf_run, wf_empty.
  - exact Hc.
Defined.

(** The success signal on a pending preload, seen from after the task. *)
Lemma step_preload_success gallery e el pid src hd t :
  wf t ->
  promises t !! pid = Some (mkPromise Pending hd) ->
  loaders t !! e = Some (mkLoader el (PreloadOf pid src) Loading) ->
  let t' := step gallery t (EvSignal e (success_signal (el_kind el))) in
  pstate t' pid = Some (Fulfilled el) /\
  cache t' = <[src := el]> (cache t) /\
  requests (fire_signal e (success_signal (el_kind el)) t) = requests t /\
  forall pid', pid' ≠ pid -> pid' < next_id t -> pstate t' pid' = pstate t pid'.
Proof.
  intros W Hp Hl t'. subst t'.
  assert (pid < next_id t) as Hlt by (apply (wf_promises _ W); by rewrite Hp).
  pose proof (wf_fire_signal e (success_signal (el_kind el)) t W) as W1.
  destruct (promises_kept_checkpoint _ W1) as (_ & Hck & Hpk & _).
  destruct (fire_signal_effect e (success_signal (el_kind el)) t) as (Hid & _ & _).
  unfold step. cbn [task]. rewrite Hck.
  rewrite (fire_signal_preload_success _ _ _ _ _ Hl) in *.
  rewrite (resolve_pending pid el hd) in * by done.
  split; [rewrite Hpk by (simpl in *; lia); unfold pstate; simpl; by rewrite lookup_insert_eq|].
  split; [done|]. split; [done|].
  intros pid' Hne Hlt'. rewrite Hpk by (simpl in *; lia).
  unfold pstate. simpl. by rewrite lookup_insert_ne.
Qed.

(** X2.  Round trip through the cache: once the load of an identifier has
    succeeded, [isCached] is true, [get] returns the loaded element, and a
    second [preload] of the identifier is fulfilled at once with that very
    element, without a new request and without a new media element. *)
Theorem preload_then_cached gallery src s :
  wf s -> cache s !! src = None ->
  let s1 := (PreloadManager.preload src s).2 in
  let el :=
    mkElement (S (next_id s))
      (if Js.endsWith src ".mp4" || Js.endsWith src ".webm" then Video else Img) src in
  let t := step gallery s1 (EvSignal (el_id el) (success_signal (el_kind el))) in
  PreloadManager.isCached src s = false /\
  PreloadManager.isCached src t = true /\
  PreloadManager.get src t = Some el /\
  outcome_of (PreloadManager.preload src t).2 (PreloadManager.preload src t).1 =
    Some (OFulfilled el) /\
  requests (PreloadManager.preload src t).2 = requests t /\
  loaders (PreloadManager.preload src t).2 = loaders t.
Proof.
  intros W Hc s1 el t.
  assert (wf s1) as W1 by apply wf_preload, W.
  assert (promises s1 !! next_id s = Some (mkPromise Pending false) /\
          loaders s1 !! el_id el = Some (mkLoader el (PreloadOf (next_id s) src) Loading))
    as [Hp Hl].
  { subst s1. rewrite (preload_uncached_eq _ _ Hc). simpl. by rewrite !lookup_insert_eq. }
  destruct (step_preload_success gallery (el_id el) el (next_id s) src false s1 W1 Hp Hl)
    as (_ & Hcache & _).
  fold t in Hcache.
  assert (cache t !! src = Some el) as Hget by (rewrite Hcache; apply lookup_insert_eq).
  unfold PreloadManager.isCached, PreloadManager.get.
  split; [apply bool_decide_eq_false; rewrite Hc; by intros [? ?]|].
  split; [apply bool_decide_eq_true; by rewrite Hget|]. split; [done|].
  rewrite (preload_cached_eq _ _ _ Hget). simpl.
  unfold outcome_of. simpl. by rewrite lookup_insert_eq.
Qed.

Lemma preload_then_cached_witness :
  let s1 := (PreloadManager.preload "clip.mp4" empty_state).2 in
  let el := mkElement 1 Video "clip.mp4" in
  let t := step [] s1 (EvSignal 1 SigLoadedData) in
  PreloadManager.get "clip.mp4" t = Some el /\
  requests (PreloadManager.preload "clip.mp4" t).2 = ["clip.mp4"].
Proof.
  intros s1 el t.
  destruct (preload_then_cached [] "clip.mp4" empty_state wf_empty eq_refl)
    as (_ & _ & Hget & _ & Hreq & _).
  split; [exact Hget|]. exact Hreq.
Defined.

(** X4.  A settled promise is final: once a promise of [preload] is
    fulfilled or rejected, no later event changes it (a video that fails
    after [loadeddata] does not turn its fulfilled promise into a rejected
    one, and a signal that comes late settles nothing twice). *)
Theorem settled_promise_is_final gallery evs pid st s :
  wf s -> pstate s pid = Some st -> st ≠ Pending ->
  pstate (run gallery evs s) pid = Some st.
Proof.
  revert s. induction evs as [|ev evs IH]; intros s W Hst Hne; simpl; [done|].
  apply IH; [by apply wf_step| |done].
  assert (pid < next_id s) as Hlt.
  { apply (wf_promises _ W). unfold pstate in Hst.
    destruct (promises s !! pid); [eauto|done]. }
  unfold step.
  destruct (promises_kept_checkpoint _ (wf_task gallery ev s W)) as (Hid & _ & Hpk & _).
  assert (next_id s <= next_id (task gallery ev s) /\ pstate (task gallery ev s) pid = Some st)
    as [Hid' Hst'].
  { assert ((exists e sig, ev = EvSignal e sig) \/ (forall e sig, ev ≠ EvSignal e sig))
      as [(e & sig & ->)|Hev] by (destruct ev; eauto).
    - simpl. destruct (fire_signal_effect e sig s) as (-> & _ & Hp). split; [done|].
      destruct (Hp pid) as [->|(Hpend & _)]; [done|]. congruence.
    - destruct (promises_kept_task gallery ev s W Hev) as (? & _ & Hp & _).
      split; [done|]. by rewrite Hp. }
  rewrite Hpk by lia. exact Hst'.
Qed.

Lemma settled_promise_is_final_witness :
  let s := run [] [EvSignal 1 SigLoadedData] (PreloadManager.preload "clip.mp4" empty_state).2 in
  pstate s 0 = Some (Fulfilled (mkElement 1 Video "clip.mp4")) /\
  pstate (run [] [EvSignal 1 SigError] s) 0 = Some (Fulfilled (mkElement 1 Video "clip.mp4")) /\
  console (run [] [EvSignal 1 SigError] s) = [] /\
  uncaught (run [] [EvSignal 1 SigError] s) = [].
Proof.
  intros s.
  assert (pstate s 0 = Some (Fulfilled (mkElement 1 Video "clip.mp4"))) as Hs
    by (vm_compute; reflexivity).
  split; [exact Hs|]. split; [|split; vm_compute; reflexivity].
  apply (settled_promise_is_final [] [EvSignal 1 SigError] 0 _ s).
  - apply wf_run, wf_preload, wf_empty.
  - exact Hs.
  - discriminate.
Defined.

(** ** Media elements are not touched by later preloads *)

Lemma loaders_kept_refl s : loaders_kept s s.
Proof. split; [lia|done]. Qed.

Lemma loaders_kept_trans s1 s2 s3 :
  loaders_kept s1 s2 -> loaders_kept s2 s3 -> loaders_kept s1 s3.
Proof.
  intros [Hid1 Hl1] [Hid2 Hl2]. split; [lia|].
  intros e He. rewrite Hl2 by lia. by apply Hl1.
Qed.

Lemma loaders_kept_preload src s : loaders_kept s (PreloadManager.preload src s).2.
Proof.
  split; [pose proof (preload_next_id src s); lia|].
  intros e He. by apply preload_old_loader.
Qed.

Lemma loaders_kept_mark_handled pid s : loaders_kept s (mark_handled pid s).
Proof.
  destruct (mark_handled_frame pid s) as (_ & _ & _ & Hl & _ & _ & _ & _ & _ & _ & _ & _ & Hid).
  split; [lia|]. intros e _. by rewrite Hl.
Qed.

Lemma loaders_kept_map_preload sources s :
  loaders_kept s (PreloadManager.map_preload sources s).2.
Proof.
  revert s. induction sources as [|src rest IH]; intros s; simpl; [apply loaders_kept_refl|].
  pose proof (loaders_kept_preload src s) as H1.
  destruct (PreloadManager.preload src s) as [pid s1]. simpl in H1.
  specialize (IH s1). destruct (PreloadManager.map_preload rest s1) as [pids s2].
  simpl in *. by eapply loaders_kept_trans.
Qed.

Lemma loaders_kept_foldr_mark_handled pids s : loaders_kept s (foldr mark_handled s pids).
Proof.
  induction pids as [|pid pids IH]; simpl; [apply loaders_kept_refl|].
  eapply loaders_kept_trans; [exact IH|apply loaders_kept_mark_handled].
Qed.

Lemma loaders_kept_preloadAll sources s :
  loaders_kept s (PreloadManager.preloadAll sources s).2.
Proof.
  unfold PreloadManager.preloadAll.
  pose proof (loaders_kept_map_preload sources s) as H1.
  destruct (PreloadManager.map_preload sources s) as [pids s1]. simpl in *.
  eapply loaders_kept_trans; [exact H1|apply loaders_kept_foldr_mark_handled].
Qed.

Lemma loaders_kept_foldl_then (ready : list (list nat * list string)) s :
  loaders_kept s (foldl (fun acc t => then_callback t.2 acc) s ready).
Proof.
  revert s. induction ready as [|t ready IH]; intros s; simpl; [apply loaders_kept_refl|].
  eapply loaders_kept_trans; [|apply IH]. unfold then_callback.
  case_match; [apply loaders_kept_preloadAll|apply loaders_kept_refl].
Qed.

Lemma loaders_kept_checkpoint s : loaders_kept s (checkpoint s).
Proof.
  unfold checkpoint.
  eapply loaders_kept_trans; [|apply loaders_kept_foldl_then]. by split.
Qed.

Lemma run_handler_loaders l sig s :
  loaders (run_handler l sig s) = loaders s /\ next_id (run_handler l sig s) = next_id s.
Proof.
  unfold run_handler. destruct (l_owner l) as [pid src|oid src].
  - assert (forall h, loaders (preload_onload pid src h s) = loaders s /\
                      next_id (preload_onload pid src h s) = next_id s) as Hload.
    { intros h. unfold preload_onload.
      by destruct (resolve_frame pid h (set_cache (<[src:=h]> (cache s)) s))
        as (_ & -> & -> & _). }
    assert (forall k, loaders (preload_onerror pid src k s) = loaders s /\
                      next_id (preload_onerror pid src k s) = next_id s) as Herr.
    { intros k. rewrite preload_onerror_eq.
      by destruct (reject_frame pid (load_failure k src) s) as (_ & -> & -> & _). }
    destruct (el_kind (l_elem l)), sig; auto.
  - assert (forall s2, dom_only s s2 ->
              loaders s2 = loaders s /\ next_id s2 = next_id s) as Hdom.
    { by intros s2 (_ & _ & _ & _ & -> & _ & _ & _ & ->). }
    destruct (el_kind (l_elem l)), sig; apply Hdom;
      first [apply dom_only_loadHandler | apply dom_only_content_onerror].
Qed.

(** A signal changes the element it is sent to, and no other. *)
Lemma step_signal_other_loader gallery e sig e' s :
  e' ≠ e -> e' < next_id s ->
  loaders (step gallery s (EvSignal e sig)) !! e' = loaders s !! e'.
Proof.
  intros Hne Hlt. unfold step. cbn [task].
  destruct (loaders_kept_checkpoint (fire_signal e sig s)) as [_ Hk].
  destruct (fire_signal_effect e sig s) as (Hid & _ & _).
  rewrite Hk by lia. unfold fire_signal.
  destruct (loaders s !! e) as [l|]; [|done].
  destruct (next_phase _ _ _) as [ph|]; [|done].
  destruct (run_handler_loaders l sig
              (set_loaders (<[e:=mkLoader (l_elem l) (l_owner l) ph]> (loaders s)) s))
    as [-> _].
  simpl. by rewrite lookup_insert_ne.
Qed.

(** * Further properties of the overlay *)

(** The document and the listeners of a well-formed state that shows the
    overlay [oid]. *)
Lemma shown_overlay_fields oid s :
  wf s -> body s = [oid] ->
  exists o src,
    nodes s !! oid = Some o /\
    o_escHandler o = EscHandler oid /\ o_keyNavHandler o = KeyNavHandler oid src /\
    listeners s = [EscHandler oid; KeyNavHandler oid src].
Proof.
  intros W Hb. destruct (wf_dom _ W) as [[Hb' _]|(oid' & o & Hb' & Ho & Hl)];
    rewrite Hb in Hb'; [done|]. injection Hb' as <-.
  destruct (wf_nodes _ W oid o Ho) as (_ & _ & He & src & Hk).
  exists o, src. by rewrite Hl, He, Hk.
Qed.

(** X8.  A stale cleanup is harmless: when the cleanup of an overlay runs
    after the overlay has left the document (it was replaced by a newer
    overlay, or already cleaned up), nothing changes; in particular the
    overlay shown now keeps its place and its two listeners. *)
Theorem stale_cleanup_harmless oid s :
  wf s -> oid ∉ body s -> cleanup oid s = s.
Proof.
  intros W Hout. unfold cleanup. destruct (nodes s !! oid) as [o|] eqn:Ho; [|done].
  destruct (wf_nodes _ W oid o Ho) as (_ & _ & He & src & Hk).
  destruct (not_shown_no_listeners oid s W Hout) as [Hne Hnk].
  rewrite He, Hk. apply state_eq; simpl; try done.
  - by apply filter_absent.
  - rewrite (filter_absent (EscHandler oid)) by done. by apply filter_absent.
Qed.

Lemma stale_cleanup_harmless_witness :
  let s := run ["a.jpg"; "b.jpg"] [EvShowArch 0; EvShowArch 1] empty_state in
  body s = [4] /\ cleanup 0 s = s.
Proof.
  intros s. split; [reflexivity|].
  apply stale_cleanup_harmless.
  - apply wf_run, wf_empty.
  - vm_compute. intros H. inversion H as [|? ? ? H']; inversion H'.
Defined.

Lemma foldl_id {A} (f : State -> A -> State) (l : list A) s :
  (forall acc x, f acc x = acc) -> foldl f s l = s.
Proof.
  intros Hf. induction l as [|x l IH]; simpl; [done|]. by rewrite Hf.
Qed.

(** X5.  Keys other than Escape, ArrowLeft and ArrowRight do nothing: the
    two keydown handlers leave the page exactly as it is. *)
Theorem other_keys_ignored gallery key s :
  key ≠ "Escape" -> key ≠ "ArrowLeft" -> key ≠ "ArrowRight" ->
  keydown gallery key s = s.
Proof.
  intros H1 H2 H3. unfold keydown. apply foldl_id.
  intros acc [oid|oid src]; simpl.
  - unfold escHandler. by rewrite (proj2 (String.eqb_neq _ _) H1).
  - unfold keyNavHandler.
    by rewrite (proj2 (String.eqb_neq _ _) H2), (proj2 (String.eqb_neq _ _) H3).
Qed.

Lemma other_keys_ignored_witness :
  let s := run ["a.jpg"; "b.jpg"] [EvShowArch 0] empty_state in
  listeners s = [EscHandler 0; KeyNavHandler 0 "a.jpg"] /\
  keydown ["a.jpg"; "b.jpg"] "Enter" s = s.
Proof.
  intros s. split; [reflexivity|].
  apply other_keys_ignored; discriminate.
Defined.

(** ** Dismissal *)

Lemma closePreview_fields oid o s :
  nodes s !! oid = Some o ->
  closePreview oid s =
  set_timers (enqueue (now s + 300) (TCleanup oid) (timers s))
    (set_nodes (<[oid := classList_remove "active" o]> (nodes s)) s).
Proof. intros Ho. unfold closePreview, setTimeout, update_node. by rewrite Ho. Qed.

(** Escape on the page that shows [oid] runs [closePreview] once. *)
Lemma keydown_Escape gallery oid s :
  wf s -> body s = [oid] -> keydown gallery "Escape" s = closePreview oid s.
Proof.
  intros W Hb. destruct (shown_overlay_fields oid s W Hb) as (o & src & _ & _ & _ & Hl).
  unfold keydown. rewrite Hl. reflexivity.
Qed.

(** Callbacks that are all cleanups bring no overlay into the document. *)
Lemma foldl_cleanups_body gallery due s x :
  (forall t i, (t, TShow i) ∉ due) ->
  x ∈ body (foldl (run_timer gallery) s due) -> x ∈ body s.
Proof.
  revert s. induction due as [|[t a] due IH]; intros s Hdue; simpl; [done|].
  intros H. apply IH in H; [|intros t' i Hin; apply (Hdue t' i); by right].
  destruct a as [oid|i].
  - unfold run_timer in H. simpl in H. by apply cleanup_body_subset in H.
  - exfalso. apply (Hdue t i). left.
Qed.

(** X6.  Dismissal by Escape or by a click on the backdrop: the overlay
    loses the [active] class at once but stays in the document with its
    listeners, and a cleanup is queued 300 ms later; once 300 ms have
    passed the overlay is out of the document and none of its handlers is
    registered, and when no navigation was pending the document holds no
    overlay and no keydown listener at all. *)
Theorem dismiss_overlay gallery oid ev s :
  wf s -> body s = [oid] ->
  ev = EvKeyDown "Escape" \/ ev = EvClick oid true ->
  let s1 := step gallery s ev in
  body s1 = [oid] /\
  listeners s1 = listeners s /\
  (exists o, nodes s1 !! oid = Some o /\ "active" ∉ o_classes o) /\
  timers s1 = enqueue (now s + 300) (TCleanup oid) (timers s) /\
  forall d, 300 <= d ->
    let s2 := step gallery s1 (EvAdvance d) in
    (oid ∉ body s2) /\
    (EscHandler oid ∉ listeners s2) /\
    (forall src, KeyNavHandler oid src ∉ listeners s2) /\
    ((forall t i, (t, TShow i) ∉ timers s) -> body s2 = [] /\ listeners s2 = []).
Proof.
  intros W Hb Hev s1.
  destruct (shown_overlay_fields oid s W Hb) as (o & src & Ho & _ & _ & Hl).
  assert (task gallery ev s = closePreview oid s) as Htask.
  { destruct Hev as [-> | ->]; simpl.
    - by apply keydown_Escape.
    - rewrite bool_decide_eq_true_2; [done|]. rewrite Hb. left. }
  assert (wf s1) as W1 by apply wf_step, W.
  assert (s1 = checkpoint (closePreview oid s)) as Es1
    by (subst s1; unfold step; by rewrite Htask).
  destruct (page_kept_checkpoint (closePreview oid s)) as (Hn & Hbk & Hlk & Htk & Hnowk).
  rewrite <- Es1 in Hn, Hbk, Hlk, Htk, Hnowk.
  rewrite (closePreview_fields _ _ _ Ho) in Hn, Hbk, Hlk, Htk, Hnowk.
  simpl in Hn, Hbk, Hlk, Htk, Hnowk. clearbody s1.
  split; [by rewrite Hbk|]. split; [done|]. split.
  { exists (classList_remove "active" o). rewrite Hn, lookup_insert_eq. split; [done|].
    simpl. intros [Hne _]%list_elem_of_filter. by apply Hne. }
  split; [done|]. intros d Hd s2.
  assert (wf s2) as W2 by apply wf_step, W1.
  assert (body s2 = body (foldl (run_timer gallery)
            (set_timers (filter (fun t => ¬ t.1 <= now s1 + d) (timers s1)) s1)
            (filter (fun t => t.1 <= now s1 + d) (timers s1)))) as Hb2.
  { subst s2. unfold step.
    by destruct (page_kept_checkpoint (task gallery (EvAdvance d) s1)) as (_ & -> & _). }
  assert (oid ∉ body s2) as Hout.
  { rewrite Hb2. apply foldl_run_timer_removes; [by apply wf_set_timers| |].
    - simpl. apply (wf_nodes _ W1 oid (classList_remove "active" o)).
      by rewrite Hn, lookup_insert_eq.
    - right. exists (now s + 300). apply list_elem_of_filter. split; [simpl; lia|].
      rewrite Htk. apply elem_of_enqueue. by left. }
  destruct (not_shown_no_listeners oid s2 W2 Hout) as [He Hk].
  split; [done|]. split; [done|]. split; [done|].
  intros Hnone.
  assert (body s2 = []) as Hb2'.
  { destruct (body s2) as [|x rest] eqn:Eb; [done|]. exfalso.
    assert (x ∈ body s1) as Hx.
    { apply (foldl_cleanups_body gallery
               (filter (fun t => t.1 <= now s1 + d) (timers s1))
               (set_timers (filter (fun t => ¬ t.1 <= now s1 + d) (timers s1)) s1)).
      - intros t i [_ Hin]%list_elem_of_filter. rewrite Htk in Hin.
        apply elem_of_enqueue in Hin as [Heq|Hin]; [done|]. by apply (Hnone t i).
      - rewrite <- Hb2. left. }
    rewrite Hbk, Hb in Hx. apply list_elem_of_singleton in Hx as ->.
    apply Hout. left. }
  split; [done|].
  destruct (wf_dom _ W2) as [[_ ?]|(oid' & o' & Hb' & _)]; [done|congruence].
Qed.

Lemma dismiss_overlay_witness :
  let s := run ["a.jpg"; "b.jpg"] [EvShowArch 0; EvSignal 1 SigLoad] empty_state in
  let s1 := step ["a.jpg"; "b.jpg"] s (EvKeyDown "Escape") in
  let s2 := step ["a.jpg"; "b.jpg"] s1 (EvAdvance 300) in
  body s1 = [0] /\ timers s1 = [(300, TCleanup 0)] /\ body s2 = [] /\ listeners s2 = [].
Proof.
  intros s s1 s2.
  destruct (dismiss_overlay ["a.jpg"; "b.jpg"] 0 (EvKeyDown "Escape") s)
    as (Hb & _ & _ & Ht & H).
  - apply wf_run, wf_empty.
  - reflexivity.
  - by left.
  - split; [exact Hb|]. split; [exact Ht|].
    destruct (H 300 ltac:(lia)) as (_ & _ & _ & Hempty).
    apply Hempty. intros t i Hin. vm_compute in Hin. inversion Hin.
Defined.

(** ** Navigation, from the key press to the new overlay *)

Lemma cleanup_not_shown oid s : wf s -> oid ∉ body s -> cleanup oid s = s.
Proof.
  intros W Hout. unfold cleanup. destruct (nodes s !! oid) as [o|] eqn:Ho; [|done].
  destruct (wf_nodes _ W oid o Ho) as (_ & _ & He & src & Hk).
  destruct (not_shown_no_listeners oid s W Hout) as [Hne Hnk].
  rewrite He, Hk. apply state_eq; simpl; try done.
  - by apply filter_absent.
  - rewrite (filter_absent (EscHandler oid)) by done. by apply filter_absent.
Qed.

Lemma shows_listeners s n src :
  wf s -> shows s n src -> listeners s = [EscHandler n; KeyNavHandler n src].
Proof.
  intros W [Hb [v Hn]]. destruct (wf_dom _ W) as [[Hb' _]|(oid & o & Hb' & Ho & Hl)];
    rewrite Hb in Hb'; [done|]. injection Hb' as <-.
  rewrite Hn in Ho. injection Ho as <-. exact Hl.
Qed.

(** Timers that fire in one go, each a navigation to [j] or the cleanup of
    an overlay that existed before: once a navigation has run, the document
    shows one overlay, made for the item at [j]. *)
Lemma foldl_run_timer_shows gallery j shown bound due s :
  Js.index gallery j = Some shown ->
  wf s -> bound <= next_id s ->
  (forall t a, (t, a) ∈ due ->
     a = TShow j \/ exists oid, a = TCleanup oid /\ oid < bound) ->
  (exists n, bound <= n /\ shows s n shown) \/ (exists t, (t, TShow j) ∈ due) ->
  exists n, bound <= n /\ shows (foldl (run_timer gallery) s due) n shown.
Proof.
  intros Hj. revert s. induction due as [|[t a] due IH]; intros s W Hb Hdue H; simpl.
  - destruct H as [?|[t Hin]]; [done|]. by apply elem_of_nil in Hin.
  - pose proof (run_timer_next_id gallery s (t, a) W) as Hid.
    apply IH; [by apply wf_run_timer|lia|intros t' a' Hin; apply (Hdue t' a'); by right|].
    assert ((t, a) ∈ (t, a) :: due) as Hhere by left.
    destruct (Hdue t a Hhere) as [->|(oid & -> & Hoid)].
    + left. exists (next_id s). split; [done|]. by apply run_timer_show.
    + destruct H as [(n & Hn & Hs)|[t' [[= _ ?]|Hin]%elem_of_cons]]; [|right; eauto].
      left. exists n. split; [done|]. unfold run_timer. simpl.
      rewrite cleanup_not_shown.
      * destruct Hs as [Hbody Hnode]. by split.
      * by apply wf_set_now.
      * simpl. destruct Hs as [-> _]. intros ->%list_elem_of_singleton. lia.
Qed.

Lemma keyNavHandler_arrow gallery oid src key direction s :
  src ∈ gallery ->
  (key = "ArrowLeft" /\ direction = (-1)%Z) \/ (key = "ArrowRight" /\ direction = 1%Z) ->
  keyNavHandler gallery oid src key s =
  setTimeout
    (TShow (Js.Int ((Js.indexOf gallery src + direction + Js.len gallery)
                      `mod` Js.len gallery))) 300
    (closePreview oid s).
Proof.
  intros Hin Hkey.
  destruct (nav_index_in_range gallery src direction Hin ltac:(tauto)) as [Hrem _].
  unfold keyNavHandler.
  destruct Hkey as [[-> ->]|[-> ->]]; simpl (String.eqb _ _); cbn [orb]; by rewrite Hrem.
Qed.

(** One arrow key press on the page that shows [oid]. *)
Lemma step_arrow_key gallery oid src key direction s :
  listeners s = [EscHandler oid; KeyNavHandler oid src] ->
  src ∈ gallery ->
  (key = "ArrowLeft" /\ direction = (-1)%Z) \/ (key = "ArrowRight" /\ direction = 1%Z) ->
  let j := Js.Int ((Js.indexOf gallery src + direction + Js.len gallery)
                     `mod` Js.len gallery) in
  let s1 := step gallery s (EvKeyDown key) in
  body s1 = body s /\ listeners s1 = listeners s /\ now s1 = now s /\
  timers s1 =
    enqueue (now s + 300) (TShow j) (enqueue (now s + 300) (TCleanup oid) (timers s)).
Proof.
  intros Hl Hin Hkey j s1.
  assert (task gallery (EvKeyDown key) s = keyNavHandler gallery oid src key s) as Htask.
  { simpl. unfold keydown. rewrite Hl. simpl. unfold escHandler.
    by destruct Hkey as [[-> _]|[-> _]]. }
  rewrite (keyNavHandler_arrow gallery oid src key direction s Hin Hkey) in Htask.
  fold j in Htask.
  destruct (page_kept_checkpoint (task gallery (EvKeyDown key) s)) as (_ & Hb & Hli & Ht & Hn).
  fold (step gallery s (EvKeyDown key)) in Hb, Hli, Ht, Hn. fold s1 in Hb, Hli, Ht, Hn.
  rewrite Htask in Hb, Hli, Ht, Hn. clearbody s1.
  unfold closePreview, setTimeout, update_node in Hb, Hli, Ht, Hn.
  destruct (nodes s !! oid); simpl in Hb, Hli, Ht, Hn; done.
Qed.

(** * Further properties of the gallery initialisation *)

Lemma thens_map_preload sources s :
  thens (PreloadManager.map_preload sources s).2 = thens s /\
  cache (PreloadManager.map_preload sources s).2 = cache s.
Proof.
  revert s. induction sources as [|src rest IH]; intros s; simpl; [done|].
  destruct (preload_frame src s) as (Hc & _ & Ht & _).
  destruct (PreloadManager.preload src s) as [pid s1]. simpl in *.
  specialize (IH s1). destruct (PreloadManager.map_preload rest s1) as [pids s2].
  simpl in *. destruct IH as [-> ->]. done.
Qed.

Lemma thens_foldr_mark_handled pids s :
  thens (foldr mark_handled s pids) = thens s /\
  cache (foldr mark_handled s pids) = cache s.
Proof.
  induction pids as [|pid pids IH]; simpl; [done|].
  destruct (mark_handled_frame pid (foldr mark_handled s pids)) as (-> & _ & -> & _).
  destruct IH as [-> ->]. done.
Qed.

Lemma thens_preloadAll sources s :
  thens (PreloadManager.preloadAll sources s).2 = thens s /\
  cache (PreloadManager.preloadAll sources s).2 = cache s.
Proof.
  unfold PreloadManager.preloadAll.
  pose proof (thens_map_preload sources s) as H.
  destruct (PreloadManager.map_preload sources s) as [pids s1]. simpl in *.
  destruct (thens_foldr_mark_handled pids s1) as [-> ->]. done.
Qed.

(** The aggregate has settled exactly when the checkpoint finds every input
    settled. *)
Lemma forallb_is_settled s pids :
  forallb (is_settled s) pids = true <-> is_Some (allSettled_value s pids).
Proof.
  unfold allSettled_value. rewrite mapM_is_Some, forallb_forall, Forall_forall.
  split; intros H pid Hin.
  - apply list_elem_of_In in Hin. specialize (H pid Hin). unfold is_settled in H.
    simpl. destruct (outcome_of s pid); [eauto|done].
  - apply list_elem_of_In in Hin. specialize (H pid Hin). simpl in H.
    unfold is_settled. by destruct H as [? ->].
Qed.

(** X9.  The gallery is preloaded in two batches.  [initializeProjectGallery]
    requests the first five items at once (those not cached, in order) and
    keeps the remaining items for later.  As long as one of the first five
    loads is still running, nothing more is requested; as soon as all five
    have settled, failed or not, the remaining items that are not cached
    are requested, in order, and the callback is gone. *)
Theorem gallery_preloaded_in_two_batches images s :
  wf s -> thens s = [] ->
  let s1 := initializeProjectGallery images s in
  requests s1 = requests s ++ filter (fun src => cache s !! src = None) (take 5 images) /\
  exists pids,
    thens s1 = [(pids, drop 5 images)] /\
    Forall2 (promise_for s1) pids (take 5 images) /\
    forall t,
      thens t = [(pids, drop 5 images)] ->
      (allSettled_value t pids = None -> checkpoint t = t) /\
      (forall outs,
         allSettled_value t pids = Some outs ->
         thens (checkpoint t) = [] /\
         requests (checkpoint t) =
           requests t ++ filter (fun src => cache t !! src = None) (drop 5 images)).
Proof.
  intros W Ht s1. subst s1. unfold initializeProjectGallery.
  pose proof (preloadAll_requests (take 5 images) s) as Hreq.
  pose proof (promise_for_preloadAll (take 5 images) s W) as Hfor.
  destruct (thens_preloadAll (take 5 images) s) as [Hth _].
  destruct (PreloadManager.preloadAll (take 5 images) s) as [pids s1]. simpl in *.
  split; [done|]. exists pids. rewrite Hth, Ht. split; [done|]. split.
  { eapply Forall2_impl; [exact Hfor|]. intros pid src (Hlt & Hst & Hown). by split. }
  intros t Htt. unfold checkpoint. rewrite Htt. split.
  - intros Hnone.
    assert (forallb (is_settled t) pids ≠ true) as Hns.
    { intros Hs%forallb_is_settled. rewrite Hnone in Hs. by destruct Hs. }
    rewrite filter_cons_True by exact Hns.
    rewrite filter_cons_False by (simpl; by intros ?).
    rewrite !filter_nil. simpl. apply state_eq; simpl; done.
  - intros outs Hsome.
    assert (forallb (is_settled t) pids = true) as Hs
      by (apply forallb_is_settled; by rewrite Hsome).
    rewrite filter_cons_False by (simpl; by intros Hn; apply Hn).
    rewrite filter_cons_True by exact Hs.
    rewrite !filter_nil. simpl. unfold then_callback.
    destruct (drop 5 images) as [|x rest] eqn:Ed; simpl.
    + by rewrite app_nil_r.
    + destruct (thens_preloadAll (x :: rest) (set_thens [] t)) as [-> _].
      split; [done|]. by rewrite preloadAll_requests.
Qed.

Lemma gallery_preloaded_in_two_batches_witness :
  let images := ["1.jpg"; "2.jpg"; "3.jpg"; "4.jpg"; "5.jpg"; "6.jpg"; "7.mp4"] in
  let evs := [EvDOMContentLoaded; EvSignal 1 SigLoad; EvSignal 3 SigError;
              EvSignal 5 SigLoad; EvSignal 7 SigLoad] in
  requests (run images evs empty_state) = ["1.jpg"; "2.jpg"; "3.jpg"; "4.jpg"; "5.jpg"] /\
  requests (run images (evs ++ [EvSignal 9 SigError]) empty_state) =
    ["1.jpg"; "2.jpg"; "3.jpg"; "4.jpg"; "5.jpg"; "6.jpg"; "7.mp4"] /\
  requests (initializeProjectGallery images empty_state) =
    ["1.jpg"; "2.jpg"; "3.jpg"; "4.jpg"; "5.jpg"].
Proof.
  intros images evs. split; [vm_compute; reflexivity|]. split; [vm_compute; reflexivity|].
  destruct (gallery_preloaded_in_two_batches images empty_state wf_empty eq_refl)
    as (Hreq & _).
  exact Hreq.
Defined.

(** * Further properties of the overlay: the load signal *)

(** X10.  When the content element of an overlay signals that it has
    loaded ([load] for an image, [loadeddata] for a video), the overlay
    gets the class [active] and loses the class [loading]; a fresh overlay
    then carries exactly the classes [preview-overlay] and [active].  The
    document, the listeners and the timers are left as they are, and the
    contents of the overlay are not replaced. *)
Theorem content_load_activates gallery e el oid src s :
  wf s ->
  loaders s !! e = Some (mkLoader el (ContentOf oid src) Loading) ->
  let s1 := step gallery s (EvSignal e (success_signal (el_kind el))) in
  exists o o',
    nodes s !! oid = Some o /\ nodes s1 !! oid = Some o' /\
    ("active" ∈ o_classes o') /\ ("loading" ∉ o_classes o') /\
    (o_classes o = ["preview-overlay"; "loading"] ->
     o_classes o' = ["preview-overlay"; "active"]) /\
    o_inner o' = o_inner o /\
    body s1 = body s /\ listeners s1 = listeners s /\ timers s1 = timers s.
Proof.
  intros W Hl s1.
  destruct (wf_loaders _ W e _ Hl) as [_ (o & Ho & _)].
  assert (fire_signal e (success_signal (el_kind el)) s =
          loadHandler oid
            (set_loaders (<[e := mkLoader el (ContentOf oid src) Loaded]> (loaders s)) s))
    as Hfs.
  { unfold fire_signal. rewrite Hl. cbn [l_elem l_phase l_owner].
    unfold run_handler. cbn [l_elem l_owner el_kind]. by destruct (el_kind el). }
  destruct (page_kept_checkpoint (fire_signal e (success_signal (el_kind el)) s))
    as (Hn & Hb & Hli & Ht & _).
  assert (s1 = checkpoint (fire_signal e (success_signal (el_kind el)) s)) as Es1
    by reflexivity.
  rewrite <- Es1 in Hn, Hb, Hli, Ht. clearbody s1. rewrite Hfs in Hn, Hb, Hli, Ht.
  unfold loadHandler, update_node in Hn, Hb, Hli, Ht. simpl in Hn, Hb, Hli, Ht.
  rewrite Ho in Hn, Hb, Hli, Ht. simpl in Hn, Hb, Hli, Ht.
  exists o, (classList_add "active" (classList_remove "loading" o)).
  split; [done|]. split; [by rewrite Hn, lookup_insert_eq|].
  assert ("loading" ∉ o_classes (classList_remove "loading" o)) as Hnl.
  { simpl. intros [Hne _]%list_elem_of_filter. by apply Hne. }
  assert (filter (fun x : string => x ≠ "loading") ["preview-overlay"; "loading"] =
          ["preview-overlay"]) as Hf by reflexivity.
  unfold classList_add. case_bool_decide as Hact.
  - split; [done|]. split; [done|]. split; [|done].
    intros Hc. exfalso. simpl in Hact. rewrite Hc, Hf in Hact.
    apply list_elem_of_singleton in Hact. discriminate Hact.
  - split; [simpl; apply elem_of_app; right; left|].
    split.
    { simpl. intros [Hin|Hin]%elem_of_app; [by apply Hnl|].
      apply list_elem_of_singleton in Hin. discriminate Hin. }
    split; [|done]. intros Hc. simpl. by rewrite Hc, Hf.
Qed.

Lemma content_load_activates_witness :
  let s := run ["a.jpg"; "b.jpg"] [EvShowArch 0] empty_state in
  let s1 := step ["a.jpg"; "b.jpg"] s (EvSignal 1 SigLoad) in
  exists o', nodes s1 !! 0 = Some o' /\ o_classes o' = ["preview-overlay"; "active"].
Proof.
  intros s s1.
  destruct (content_load_activates ["a.jpg"; "b.jpg"] 1 (mkElement 1 Img "a.jpg") 0 "a.jpg" s)
    as (o & o' & Ho & Ho' & _ & _ & Hc & _).
  - apply wf_run, wf_empty.
  - reflexivity.
  - exists o'. split; [exact Ho'|]. apply Hc.
    vm_compute in Ho. injection Ho as <-. reflexivity.
Defined.

(** * The overlay and the cache *)

(** X11.  The overlay never consults the cache: [showProjectImages] always
    creates a new content element for the item and sets its source, which
    is a new request, whether the item is cached or not.  The cache only
    decides whether the next item is requested as well: it is when it is
    not cached, and only in a list of two items or more. *)
Theorem preview_always_requests images index src s :
  wf s -> Js.index images index = Some src ->
  exists s',
    showProjectImages index images s = Ok s' /\
    loaders s' !! S (next_id s) =
      Some (new_content (next_id s) src
              (Js.endsWith src ".mp4" || Js.endsWith src ".webm")) /\
    (length images = 1 -> requests s' = requests s ++ [src]) /\
    (2 <= length images ->
     exists z nextSrc,
       index = Js.Int z /\
       Js.index images (Js.Int ((z + 1) `mod` Js.len images)) = Some nextSrc /\
       requests s' =
         requests s ++ [src] ++
         (if PreloadManager.isCached nextSrc s then [] else [nextSrc])).
Proof.
  intros W Hsrc.
  destruct (showProjectImages_opens images index src s W Hsrc)
    as (s' & Hs' & _ & _ & _ & Hl & _).
  exists s'. split; [done|]. split; [done|].
  set (v := Js.endsWith src ".mp4" || Js.endsWith src ".webm") in *.
  pose proof (showPreview_wf_eq src v s W) as Heq.
  split.
  - intros H1. rewrite (showProjectImages_single _ _ _ s Hsrc H1) in Hs'.
    injection Hs' as <-. fold v. by rewrite Heq.
  - intros H2. destruct (index_Some_range _ _ _ Hsrc) as (z & -> & _ & _).
    destruct (showProjectImages_many images z src s Hsrc H2) as (nextSrc & Hnext & _ & Hm).
    exists z, nextSrc. split; [done|]. split; [done|].
    rewrite Hm in Hs'. cbn zeta in Hs'. fold v in Hs'. injection Hs' as <-.
    set (s1 := showPreview src v s) in *.
    assert (requests s1 = requests s ++ [src] /\ cache s1 = cache s) as [Hr1 Hc1]
      by (by rewrite Heq).
    clearbody s1.
    destruct (catch_warn_frame (PreloadManager.preload nextSrc s1).1 nextSrc
                (PreloadManager.preload nextSrc s1).2) as (_ & _ & _ & -> & _).
    unfold PreloadManager.isCached. rewrite <- Hc1.
    destruct (cache s1 !! nextSrc) as [h|] eqn:Ec.
    + rewrite (preload_cached_eq _ _ _ Ec). simpl. exact Hr1.
    + rewrite (preload_uncached_eq _ _ Ec). simpl. by rewrite Hr1, <- app_assoc.
Qed.

Lemma preview_always_requests_witness :
  let gallery := ["a.jpg"; "b.jpg"] in
  let s := run gallery [EvDOMContentLoaded; EvSignal 1 SigLoad; EvSignal 3 SigLoad]
             empty_state in
  PreloadManager.isCached "a.jpg" s = true /\
  PreloadManager.isCached "b.jpg" s = true /\
  exists s',
    showProjectImages (Js.Int 0) gallery s = Ok s' /\
    requests s' = requests s ++ ["a.jpg"].
Proof.
  intros gallery s. split; [vm_compute; reflexivity|]. split; [vm_compute; reflexivity|].
  destruct (preview_always_requests gallery (Js.Int 0) "a.jpg" s)
    as (s' & Hs' & _ & _ & Hmany).
  - apply wf_run, wf_empty.
  - reflexivity.
  - exists s'. split; [exact Hs'|].
    destruct Hmany as (z & nextSrc & Hz & Hnext & Hreq); [simpl; lia|].
    injection Hz as <-. vm_compute in Hnext. injection Hnext as <-.
    rewrite Hreq.
    assert (PreloadManager.isCached "b.jpg" s = true) as -> by (vm_compute; reflexivity).
    reflexivity.
Defined.

(** * The timer queue *)

(** [setTimeout] keeps the queue in order of due time. *)
Lemma enqueue_sorted due a q :
  StronglySorted (fun x y : nat * TimerAction => x.1 <= y.1) q ->
  StronglySorted (fun x y : nat * TimerAction => x.1 <= y.1) (enqueue due a q).
Proof.
  induction q as [|[t b] rest IH]; intros Hs; simpl.
  - repeat constructor.
  - apply StronglySorted_cons in Hs as [Hall Hrest]. destruct (Nat.leb_spec t due).
    + apply StronglySorted_cons. split; [|auto].
      apply Forall_forall. intros x [->|Hx]%elem_of_enqueue; [simpl; lia|].
      by apply (proj1 (Forall_forall _ _) Hall).
    + apply StronglySorted_cons. split; [|by apply StronglySorted_cons].
      constructor; [simpl; lia|]. eapply Forall_impl; [exact Hall|]. simpl. intros; lia.
Qed.

(** Where [setTimeout] puts a callback: behind everything that is due no
    later, before everything that is due later. *)
Lemma enqueue_split due a q :
  StronglySorted (fun x y : nat * TimerAction => x.1 <= y.1) q ->
  exists q1 q2,
    q = q1 ++ q2 /\ enqueue due a q = q1 ++ (due, a) :: q2 /\
    (forall x, x ∈ q1 -> x.1 <= due) /\ (forall x, x ∈ q2 -> due < x.1).
Proof.
  induction q as [|[t b] rest IH]; intros Hs; simpl.
  - exists [], []. split; [done|]. split; [done|].
    split; intros x Hx; by apply elem_of_nil in Hx.
  - apply StronglySorted_cons in Hs as [Hall Hrest]. destruct (Nat.leb_spec t due).
    + destruct (IH Hrest) as (q1 & q2 & Hq & -> & H1 & H2).
      exists ((t, b) :: q1), q2. rewrite Hq. split; [done|]. split; [done|]. split; [|done].
      intros x [->|Hx]%elem_of_cons; [simpl; lia|auto].
    + exists [], ((t, b) :: rest). split; [done|]. split; [done|].
      split; [intros x Hx; by apply elem_of_nil in Hx|].
      intros x [->|Hx]%elem_of_cons; [simpl; lia|].
      pose proof (proj1 (Forall_forall _ _) Hall x Hx) as Hle. simpl in Hle. lia.
Qed.

Lemma filter_sorted (P : nat * TimerAction -> Prop) `{forall x, Decision (P x)} q :
  StronglySorted (fun x y : nat * TimerAction => x.1 <= y.1) q ->
  StronglySorted (fun x y : nat * TimerAction => x.1 <= y.1) (filter P q).
Proof.
  induction q as [|x rest IH]; intros Hs; [done|].
  apply StronglySorted_cons in Hs as [Hall Hrest].
  destruct (decide (P x)) as [Hp|Hp].
  - rewrite filter_cons_True by done. apply StronglySorted_cons. split; [|auto].
    apply Forall_forall. intros y [_ Hy]%list_elem_of_filter.
    by apply (proj1 (Forall_forall _ _) Hall).
  - rewrite filter_cons_False by done. auto.
Qed.

Lemma timers_ok_empty : timers_ok empty_state.
Proof. split; [constructor|]. intros t a Hin. by apply elem_of_nil in Hin. Qed.

(** An operation that leaves the queue alone, and moves neither the clock
    nor the identifiers backwards. *)
Lemma timers_ok_frame s s' :
  timers s' = timers s -> now s <= now s' -> next_id s <= next_id s' ->
  timers_ok s -> timers_ok s'.
Proof.
  intros Ht Hn Hi [Hs Hb]. split; rewrite Ht; [done|].
  intros t a Hin. specialize (Hb t a Hin). destruct a; lia.
Qed.

Lemma timers_ok_page_kept s s' :
  page_kept s s' -> next_id s <= next_id s' -> timers_ok s -> timers_ok s'.
Proof. intros (_ & _ & _ & Ht & Hn) Hi. apply timers_ok_frame; [done|lia|done]. Qed.

Lemma timers_ok_setTimeout a delay s :
  timers_ok s ->
  match a with TCleanup oid => oid < next_id s | TShow _ => delay <= 300 end ->
  timers_ok (setTimeout a delay s).
Proof.
  intros [Hs Hb] Ha. unfold setTimeout. split; simpl.
  - by apply enqueue_sorted.
  - intros t b [[= -> ->]|Hin]%elem_of_enqueue; [destruct a; lia|]. apply (Hb t b Hin).
Qed.

Lemma timers_ok_update_node oid f s : timers_ok s -> timers_ok (update_node oid f s).
Proof.
  unfold update_node. destruct (nodes s !! oid); [|done].
  by apply timers_ok_frame.
Qed.

Lemma update_node_next_id oid f s : next_id (update_node oid f s) = next_id s.
Proof. unfold update_node. by destruct (nodes s !! oid). Qed.

Lemma timers_ok_closePreview oid s :
  oid < next_id s -> timers_ok s -> timers_ok (closePreview oid s).
Proof.
  intros Hlt H. unfold closePreview.
  apply timers_ok_setTimeout; [by apply timers_ok_update_node|].
  by rewrite update_node_next_id.
Qed.

Lemma timers_ok_content_onerror oid src s :
  oid < next_id s -> timers_ok s -> timers_ok (content_onerror oid src s).
Proof.
  intros Hlt H. unfold content_onerror.
  apply timers_ok_setTimeout; [by apply timers_ok_update_node|].
  by rewrite update_node_next_id.
Qed.

Lemma closePreview_next_id oid s : next_id (closePreview oid s) = next_id s.
Proof. by destruct (dom_only_closePreview oid s) as (_ & _ & _ & _ & _ & _ & _ & _ & ->). Qed.

Lemma timers_ok_run_listener gallery key h s :
  match h with EscHandler oid | KeyNavHandler oid _ => oid < next_id s end ->
  timers_ok s ->
  timers_ok (run_listener gallery key s h) /\
  next_id (run_listener gallery key s h) = next_id s.
Proof.
  intros Hlt H. destruct h as [oid|oid src]; simpl.
  - unfold escHandler. case_match; [|done].
    split; [by apply timers_ok_closePreview|apply closePreview_next_id].
  - unfold keyNavHandler. case_match; [|done]. split.
    + apply timers_ok_setTimeout; [by apply timers_ok_closePreview|lia].
    + unfold setTimeout. simpl. apply closePreview_next_id.
Qed.

Lemma timers_ok_keydown gallery key s :
  wf s -> timers_ok s -> timers_ok (keydown gallery key s).
Proof.
  intros W H. unfold keydown.
  assert (forall h, h ∈ listeners s ->
            match h with EscHandler oid | KeyNavHandler oid _ => oid < next_id s end) as Hl.
  { destruct (wf_dom _ W) as [[_ ->]|(oid & o & _ & Ho & ->)];
      [intros h Hh; by apply elem_of_nil in Hh|].
    destruct (wf_nodes _ W oid o Ho) as (Hlt & _ & -> & src & ->).
    intros h [->|[->|Hh]%elem_of_cons]%elem_of_cons; [done|done|by apply elem_of_nil in Hh]. }
  revert Hl H. generalize (listeners s) as l. generalize s as acc. clear W.
  intros acc l. revert acc. induction l as [|h l IH]; intros acc Hl H; simpl; [done|].
  destruct (timers_ok_run_listener gallery key h acc) as [H1 Hid]; [apply Hl; left|done|].
  apply IH; [|done]. intros h' Hh'. rewrite Hid. apply Hl. by right.
Qed.

Lemma timers_ok_run_handler l sig s :
  wf s -> owner_ok s l -> timers_ok s -> timers_ok (run_handler l sig s).
Proof.
  intros W Hown H. unfold run_handler. unfold owner_ok in Hown.
  destruct (l_owner l) as [pid src|oid src].
  - assert (forall h, timers_ok (preload_onload pid src h s)) as Hload.
    { intros h. unfold preload_onload.
      apply (timers_ok_page_kept (set_cache (<[src:=h]> (cache s)) s));
        [apply page_kept_resolve| |by apply (timers_ok_frame s)].
      by destruct (resolve_frame pid h (set_cache (<[src:=h]> (cache s)) s))
        as (_ & _ & -> & _). }
    assert (forall k, timers_ok (preload_onerror pid src k s)) as Herr.
    { intros k. rewrite preload_onerror_eq.
      apply (timers_ok_page_kept s); [apply page_kept_reject| |done].
      by destruct (reject_frame pid (load_failure k src) s) as (_ & _ & -> & _). }
    destruct (el_kind (l_elem l)), sig; auto.
  - destruct Hown as (o & Ho & _). destruct (wf_nodes _ W oid o Ho) as [Hlt _].
    assert (timers_ok (loadHandler oid s)) as Hload by (by apply timers_ok_update_node).
    assert (timers_ok (content_onerror oid src s)) as Herr
      by (by apply timers_ok_content_onerror).
    destruct (el_kind (l_elem l)), sig; auto.
Qed.

Lemma timers_ok_fire_signal e sig s :
  wf s -> timers_ok s -> timers_ok (fire_signal e sig s).
Proof.
  intros W H. pose proof (wf_fire_signal e sig s W) as W'. unfold fire_signal in *.
  destruct (loaders s !! e) as [l|] eqn:El; [|done].
  destruct (next_phase _ _ _) as [ph|]; [|done].
  destruct (wf_loaders _ W e l El) as [_ Hown].
  set (s1 := set_loaders (<[e:=mkLoader (l_elem l) (l_owner l) ph]> (loaders s)) s) in *.
  assert (wf s1) as W1.
  { apply wf_update_loader with (l := l); done. }
  apply (timers_ok_run_handler l sig s1 W1); [|by apply (timers_ok_frame s)].
  unfold owner_ok in *. destruct (l_owner l); [done|]. exact Hown.
Qed.

(** Neither [showProjectImages] nor [cleanup] arms a timer. *)
Lemma showProjectImages_timers index images s :
  wf s ->
  timers (settle_result (showProjectImages index images s)) = timers s /\
  now (settle_result (showProjectImages index images s)) = now s.
Proof.
  intros W. destruct (Js.index images index) as [src|] eqn:Ei.
  - destruct (showProjectImages_opens images index src s W Ei)
      as (s' & -> & _ & _ & _ & _ & Ht & Hn & _). done.
  - unfold showProjectImages. rewrite Ei. done.
Qed.

Lemma run_timer_timers gallery s x :
  wf s ->
  timers (run_timer gallery s x) = timers s /\
  next_id s <= next_id (run_timer gallery s x).
Proof.
  intros W. split; [|by apply run_timer_next_id].
  unfold run_timer. destruct (x.2) as [oid|i].
  - by destruct (cleanup_frame oid (set_now (now s `max` x.1) s))
      as (_ & _ & _ & _ & _ & _ & _ & -> & _).
  - by destruct (showProjectImages_timers i gallery (set_now (now s `max` x.1) s)
                   (wf_set_now _ _ W)) as [-> _].
Qed.

Lemma foldl_run_timer_timers gallery due s :
  wf s ->
  wf (foldl (run_timer gallery) s due) /\
  timers (foldl (run_timer gallery) s due) = timers s /\
  next_id s <= next_id (foldl (run_timer gallery) s due).
Proof.
  revert s. induction due as [|x due IH]; intros s W; simpl; [done|].
  destruct (run_timer_timers gallery s x W) as [Ht Hid].
  destruct (IH (run_timer gallery s x) (wf_run_timer gallery s x W)) as (W' & Ht' & Hid').
  split; [done|]. split; [congruence|lia].
Qed.

(** What is left of the queue when [d] milliseconds have passed. *)
Lemma advance_timers gallery d s :
  wf s ->
  timers (advance gallery d s) = filter (fun t => ¬ t.1 <= now s + d) (timers s) /\
  now (advance gallery d s) = now s + d /\
  next_id s <= next_id (advance gallery d s).
Proof.
  intros W. unfold advance. cbn [timers now next_id set_now].
  destruct (foldl_run_timer_timers gallery (filter (fun t => t.1 <= now s + d) (timers s))
              (set_timers (filter (fun t => ¬ t.1 <= now s + d) (timers s)) s)
              (wf_set_timers _ _ W)) as (_ & Ht & Hid).
  auto.
Qed.

Lemma timers_ok_advance gallery d s :
  wf s -> timers_ok s -> timers_ok (advance gallery d s).
Proof.
  intros W [Hs Hb]. destruct (advance_timers gallery d s W) as (Ht & Hn & Hid).
  split; rewrite Ht; [by apply filter_sorted|].
  intros t a [_ Hin]%list_elem_of_filter. specialize (Hb t a Hin). destruct a; lia.
Qed.

Lemma timers_ok_task gallery ev s :
  wf s -> timers_ok s -> timers_ok (task gallery ev s).
Proof.
  intros W H. destruct ev as [|i|key|oid onBackdrop|e sig|d]; cbn [task].
  - apply (timers_ok_page_kept s); [apply page_kept_initializeProjectGallery| |done].
    by destruct (promises_kept_task gallery EvDOMContentLoaded s W ltac:(done)) as [? _].
  - destruct (showProjectImages_timers (Js.Int i) gallery s W) as [Ht Hn].
    apply (timers_ok_frame s); [done|lia| |done].
    by destruct (promises_kept_showProjectImages (Js.Int i) gallery s W) as [? _].
  - by apply timers_ok_keydown.
  - case_bool_decide as Hin; [|done]. unfold overlay_onclick.
    destruct onBackdrop; [|done]. apply timers_ok_closePreview; [|done].
    destruct (wf_dom _ W) as [[Hb _]|(oid' & o & Hb & Ho & _)]; rewrite Hb in Hin.
    + by apply elem_of_nil in Hin.
    + apply list_elem_of_singleton in Hin as ->. apply (wf_nodes _ W oid' o Ho).
  - by apply timers_ok_fire_signal.
  - by apply timers_ok_advance.
Qed.

(** The queue is as described in every state the page can reach. *)
Lemma timers_ok_step gallery s ev : wf s -> timers_ok s -> timers_ok (step gallery s ev).
Proof.
  intros W H. unfold step.
  apply (timers_ok_page_kept (task gallery ev s)); [apply page_kept_checkpoint| |].
  - by destruct (promises_kept_checkpoint _ (wf_task gallery ev s W)) as [? _].
  - by apply timers_ok_task.
Qed.

Lemma timers_ok_run gallery evs s :
  wf s -> timers_ok s -> timers_ok (run gallery evs s).
Proof.
  revert s. induction evs as [|ev evs IH]; intros s W H; simpl; [done|].
  apply IH; [by apply wf_step|by apply timers_ok_step].
Qed.

Lemma reachable_timers_ok gallery s : reachable gallery s -> timers_ok s.
Proof.
  induction 1 as [|s ev Hr IH]; [apply timers_ok_empty|].
  apply timers_ok_step; [by apply (reachable_wf gallery)|done].
Qed.

(** * Navigation with the arrow keys, on the page *)

(** A key that makes the navigation handler of the shown overlay schedule
    position [j]: the page right after the key, and the page once 300 ms
    have passed.  Navigations that were pending before the key are due no
    later than the new one and run before it; what is due later is a
    cleanup of an overlay older than the one the navigation opens. *)
Lemma nav_key_opens gallery oid src key j shown d s :
  wf s -> timers_ok s ->
  body s = [oid] -> listeners s = [EscHandler oid; KeyNavHandler oid src] ->
  key ≠ "Escape" ->
  keyNavHandler gallery oid src key s = setTimeout (TShow j) 300 (closePreview oid s) ->
  Js.index gallery j = Some shown ->
  300 <= d ->
  let s1 := step gallery s (EvKeyDown key) in
  let s2 := step gallery s1 (EvAdvance d) in
  (body s1 = [oid] /\ listeners s1 = listeners s /\
   (exists o, nodes s1 !! oid = Some o /\ "active" ∉ o_classes o) /\
   (forall x, x ∈ timers s1 <->
      x ∈ timers s \/ x = (now s + 300, TCleanup oid) \/ x = (now s + 300, TShow j))) /\
  exists n,
    oid < n /\ shows s2 n shown /\
    listeners s2 = [EscHandler n; KeyNavHandler n shown] /\
    forall t i, (t, TShow i) ∉ timers s2.
Proof.
  intros W Hok Hb Hl Hkey Hnav Hj Hd s1 s2.
  destruct (shown_overlay_fields oid s W Hb) as (o & src' & Ho & _ & _ & _).
  assert (task gallery (EvKeyDown key) s = setTimeout (TShow j) 300 (closePreview oid s))
    as Htask.
  { cbn [task]. unfold keydown. rewrite Hl. cbn [foldl run_listener]. unfold escHandler.
    rewrite (proj2 (String.eqb_neq _ _) Hkey). exact Hnav. }
  assert (wf s1) as W1 by apply wf_step, W.
  assert (timers_ok s1) as Hok1 by (by apply timers_ok_step).
  assert (s1 = checkpoint (setTimeout (TShow j) 300 (closePreview oid s))) as Es1
    by (subst s1; unfold step; by rewrite Htask).
  destruct (page_kept_checkpoint (setTimeout (TShow j) 300 (closePreview oid s)))
    as (Hn & Hbk & Hlk & Htk & Hnowk).
  rewrite <- Es1 in Hn, Hbk, Hlk, Htk, Hnowk.
  rewrite (closePreview_fields _ _ _ Ho) in Hn, Hbk, Hlk, Htk, Hnowk.
  unfold setTimeout in Hn, Hbk, Hlk, Htk, Hnowk.
  simpl in Hn, Hbk, Hlk, Htk, Hnowk.
  assert (wf s2) as W2 by apply wf_step, W1.
  assert (s2 = checkpoint (advance gallery d s1)) as Es2 by reflexivity.
  clearbody s2. clearbody s1.
  split.
  { split; [by rewrite Hbk|]. split; [done|]. split.
    - exists (classList_remove "active" o). rewrite Hn, lookup_insert_eq. split; [done|].
      simpl. intros [Hne _]%list_elem_of_filter. by apply Hne.
    - intros x. rewrite Htk, !elem_of_enqueue. tauto. }
  destruct Hok as [Hsort _]. destruct Hok1 as [_ Hbnd1].
  destruct (enqueue_split (now s + 300) (TShow j)
              (enqueue (now s + 300) (TCleanup oid) (timers s)))
    as (q1 & q2 & _ & Hsplit & _ & Hq2); [by apply enqueue_sorted|].
  rewrite Hsplit in Htk. clear Hsplit.
  assert (forall t a, (t, a) ∈ q2 -> exists o', a = TCleanup o' /\ o' < next_id s1) as Hq2c.
  { intros t a Hin.
    assert ((t, a) ∈ timers s1) as Hin1 by (rewrite Htk; apply elem_of_app; right; by right).
    specialize (Hbnd1 t a Hin1). specialize (Hq2 _ Hin). simpl in Hq2.
    destruct a as [o'|i]; [eauto|]. rewrite Hnowk in Hbnd1. lia. }
  assert (oid < next_id s1) as Hlt.
  { apply (wf_nodes _ W1 oid (classList_remove "active" o)). by rewrite Hn, lookup_insert_eq. }
  set (later := filter (fun t : nat * TimerAction => ¬ t.1 <= now s1 + d) (timers s1)).
  assert (filter (fun t : nat * TimerAction => t.1 <= now s1 + d) (timers s1) =
          filter (fun t : nat * TimerAction => t.1 <= now s1 + d) q1 ++
          (now s + 300, TShow j) ::
          filter (fun t : nat * TimerAction => t.1 <= now s1 + d) q2) as Hdue.
  { rewrite Htk, filter_app, filter_cons_True; [done|]. simpl. lia. }
  set (mid := foldl (run_timer gallery) (set_timers later s1)
                (filter (fun t : nat * TimerAction => t.1 <= now s1 + d) q1)).
  set (fin := foldl (run_timer gallery) mid
                ((now s + 300, TShow j) ::
                 filter (fun t : nat * TimerAction => t.1 <= now s1 + d) q2)).
  assert (advance gallery d s1 = set_now (now s1 + d) fin) as Hadv.
  { unfold advance. fold later. rewrite Hdue, foldl_app. reflexivity. }
  destruct (foldl_run_timer_timers gallery
              (filter (fun t : nat * TimerAction => t.1 <= now s1 + d) q1)
              (set_timers later s1) (wf_set_timers _ _ W1)) as (Wmid & Htmid & Hidmid).
  fold mid in Wmid, Htmid, Hidmid. simpl in Htmid, Hidmid.
  destruct (foldl_run_timer_timers gallery
              ((now s + 300, TShow j) ::
               filter (fun t : nat * TimerAction => t.1 <= now s1 + d) q2) mid Wmid)
    as (_ & Htfin & _).
  fold fin in Htfin.
  destruct (foldl_run_timer_shows gallery j shown (next_id s1)
              ((now s + 300, TShow j) ::
               filter (fun t : nat * TimerAction => t.1 <= now s1 + d) q2) mid Hj Wmid Hidmid)
    as (n & Hn' & Hbn & v & Hnn).
  { intros t a [[= -> ->]|[_ Hin]%list_elem_of_filter]%elem_of_cons; [by left|].
    right. by apply (Hq2c t). }
  { right. exists (now s + 300). left. }
  fold fin in Hbn, Hnn.
  destruct (page_kept_checkpoint (advance gallery d s1)) as (Hn2 & Hb2 & _ & Ht2 & _).
  rewrite <- Es2, Hadv in Hn2, Hb2, Ht2. simpl in Hn2, Hb2, Ht2.
  assert (shows s2 n shown) as Hs2.
  { split; [by rewrite Hb2|]. exists v. by rewrite Hn2. }
  exists n. split; [lia|]. split; [done|]. split; [by apply shows_listeners|].
  intros t i. rewrite Ht2, Htfin, Htmid. subst later.
  intros [Hnd Hin]%list_elem_of_filter. specialize (Hbnd1 t (TShow i) Hin).
  simpl in Hnd, Hbnd1. lia.
Qed.

(** C5.  With the overlay of [src] shown and [src] at position
    [currentIndex] of a gallery of length [N], an arrow key computes
    [(currentIndex + direction + N) mod N], direction [-1] for ArrowLeft
    and [+1] for ArrowRight.  The key closes the shown overlay (it stays
    in the document for now, without the class [active]) and arms two
    callbacks 300 ms ahead, its cleanup and the navigation to the new
    position, and nothing else.  Once 300 ms have passed the document
    shows one overlay, a new one, made for the item at the new position,
    with its two listeners, and no navigation is pending.  From the last
    position ArrowRight opens position 0, from position 0 ArrowLeft opens
    the last position.  The hypotheses on the state hold of every state
    the page can reach in which the overlay of [src] is shown
    ([reachable_wf], [reachable_timers_ok]). *)
Theorem arrow_navigation gallery oid src key direction d s :
  wf s -> timers_ok s ->
  body s = [oid] -> listeners s = [EscHandler oid; KeyNavHandler oid src] ->
  src ∈ gallery ->
  (key = "ArrowLeft" /\ direction = (-1)%Z) \/ (key = "ArrowRight" /\ direction = 1%Z) ->
  300 <= d ->
  let N := Js.len gallery in
  let currentIndex := Js.indexOf gallery src in
  let newIndex := ((currentIndex + direction + N) `mod` N)%Z in
  let s1 := step gallery s (EvKeyDown key) in
  let s2 := step gallery s1 (EvAdvance d) in
  Js.index gallery (Js.Int currentIndex) = Some src /\
  keyNavHandler gallery oid src key s =
    setTimeout (TShow (Js.Int newIndex)) 300 (closePreview oid s) /\
  (body s1 = [oid] /\ listeners s1 = listeners s /\
   (exists o, nodes s1 !! oid = Some o /\ "active" ∉ o_classes o) /\
   (forall x, x ∈ timers s1 <->
      x ∈ timers s \/ x = (now s + 300, TCleanup oid) \/
      x = (now s + 300, TShow (Js.Int newIndex)))) /\
  (exists shown,
     Js.index gallery (Js.Int newIndex) = Some shown /\
     (forall s0 t, wf s0 ->
        shows (run_timer gallery s0 (t, TShow (Js.Int newIndex))) (next_id s0) shown) /\
     exists n,
       oid < n /\ shows s2 n shown /\
       listeners s2 = [EscHandler n; KeyNavHandler n shown] /\
       forall t i, (t, TShow i) ∉ timers s2) /\
  (direction = 1%Z -> currentIndex = (N - 1)%Z -> newIndex = 0%Z) /\
  (direction = (-1)%Z -> currentIndex = 0%Z -> newIndex = (N - 1)%Z).
Proof.
  intros W Hok Hb Hl Hin Hkey Hd N currentIndex newIndex s1 s2.
  destruct (indexOf_present gallery src Hin) as [Hr Hcur]. fold currentIndex N in Hr, Hcur.
  assert (direction = (-1)%Z \/ direction = 1%Z) as Hdir by tauto.
  destruct (nav_index_in_range gallery src direction Hin Hdir) as [_ Hnew].
  fold currentIndex N in Hnew. fold newIndex in Hnew.
  pose proof (keyNavHandler_arrow gallery oid src key direction s Hin Hkey) as Hnav.
  fold currentIndex N in Hnav. fold newIndex in Hnav.
  destruct (index_in_range gallery newIndex Hnew) as (shown & Hshown & _).
  assert (key ≠ "Escape") as Hne by (destruct Hkey as [[-> _]|[-> _]]; discriminate).
  destruct (nav_key_opens gallery oid src key (Js.Int newIndex) shown d s
              W Hok Hb Hl Hne Hnav Hshown Hd) as [Hnow Hlater].
  fold s1 in Hnow, Hlater. fold s2 in Hlater.
  split; [done|]. split; [done|]. split; [done|]. split; [|split].
  - exists shown. split; [done|]. split; [|done].
    intros s0 t W0. by apply run_timer_show.
  - intros -> Hc. subst newIndex. rewrite Hc.
    replace (N - 1 + 1 + N)%Z with (2 * N)%Z by lia.
    apply Z.mod_mul. lia.
  - intros -> Hc. subst newIndex. rewrite Hc.
    replace (0 + -1 + N)%Z with (N - 1)%Z by lia. apply Z.mod_small. lia.
Qed.

Lemma arrow_navigation_witness :
  let gallery := ["a.jpg"; "b.jpg"; "c.jpg"] in
  let onLast := run gallery [EvShowArch 2] empty_state in
  let onFirst := run gallery [EvShowArch 0] empty_state in
  (exists n, shows (run gallery [EvKeyDown "ArrowRight"; EvAdvance 300] onLast) n "a.jpg") /\
  (exists n, shows (run gallery [EvKeyDown "ArrowLeft"; EvAdvance 300] onFirst) n "c.jpg").
Proof.
  intros gallery onLast onFirst. split.
  - destruct (arrow_navigation gallery 0 "c.jpg" "ArrowRight" 1 300 onLast)
      as (_ & _ & _ & (shown & Hshown & _ & n & _ & Hs & _) & _).
    + apply wf_run, wf_empty.
    + apply timers_ok_run; [apply wf_empty|apply timers_ok_empty].
    + reflexivity.
    + reflexivity.
    + vm_compute. do 2 right. left.
    + right. split; reflexivity.
    + lia.
    + injection Hshown as <-. exists n. exact Hs.
  - destruct (arrow_navigation gallery 0 "a.jpg" "ArrowLeft" (-1) 300 onFirst)
      as (_ & _ & _ & (shown & Hshown & _ & n & _ & Hs & _) & _).
    + apply wf_run, wf_empty.
    + apply timers_ok_run; [apply wf_empty|apply timers_ok_empty].
    + reflexivity.
    + reflexivity.
    + vm_compute. left.
    + left. split; reflexivity.
    + lia.
    + injection Hshown as <-. exists n. exact Hs.
Defined.

(** C10.  When the identifier of the shown overlay is not in the gallery,
    [indexOf] is [-1] and the arrow keys are not ignored: in a gallery of
    length [N >= 2], ArrowRight arms the navigation to position 0 and
    ArrowLeft the navigation to position [N - 2] (beside the cleanup of
    the shown overlay, and nothing else), and once 300 ms have passed the
    document shows a new overlay made for the item at that position. *)
Theorem arrow_navigation_absent gallery oid src d s :
  wf s -> timers_ok s ->
  body s = [oid] -> listeners s = [EscHandler oid; KeyNavHandler oid src] ->
  src ∉ gallery -> (2 <= Js.len gallery)%Z -> 300 <= d ->
  let N := Js.len gallery in
  let sR := step gallery s (EvKeyDown "ArrowRight") in
  let sL := step gallery s (EvKeyDown "ArrowLeft") in
  Js.indexOf gallery src = (-1)%Z /\
  keyNavHandler gallery oid src "ArrowRight" s =
    setTimeout (TShow (Js.Int 0)) 300 (closePreview oid s) /\
  keyNavHandler gallery oid src "ArrowLeft" s =
    setTimeout (TShow (Js.Int (N - 2))) 300 (closePreview oid s) /\
  (forall x, x ∈ timers sR <->
     x ∈ timers s \/ x = (now s + 300, TCleanup oid) \/
     x = (now s + 300, TShow (Js.Int 0))) /\
  (forall x, x ∈ timers sL <->
     x ∈ timers s \/ x = (now s + 300, TCleanup oid) \/
     x = (now s + 300, TShow (Js.Int (N - 2)))) /\
  exists first beforeLast,
    Js.index gallery (Js.Int 0) = Some first /\
    Js.index gallery (Js.Int (N - 2)) = Some beforeLast /\
    (forall s0 t, wf s0 ->
       shows (run_timer gallery s0 (t, TShow (Js.Int 0))) (next_id s0) first /\
       shows (run_timer gallery s0 (t, TShow (Js.Int (N - 2)))) (next_id s0) beforeLast) /\
    (exists n,
       oid < n /\ shows (step gallery sR (EvAdvance d)) n first /\
       listeners (step gallery sR (EvAdvance d)) = [EscHandler n; KeyNavHandler n first]) /\
    (exists n,
       oid < n /\ shows (step gallery sL (EvAdvance d)) n beforeLast /\
       listeners (step gallery sL (EvAdvance d)) =
         [EscHandler n; KeyNavHandler n beforeLast]).
Proof.
  intros W Hok Hb Hl Hout HN Hd N sR sL.
  pose proof (proj1 (indexOf_absent gallery src) Hout) as Hi.
  assert (keyNavHandler gallery oid src "ArrowRight" s =
            setTimeout (TShow (Js.Int 0)) 300 (closePreview oid s) /\
          keyNavHandler gallery oid src "ArrowLeft" s =
            setTimeout (TShow (Js.Int (N - 2))) 300 (closePreview oid s)) as [HR HL].
  { unfold keyNavHandler. rewrite Hi. simpl (String.eqb _ _). cbn [orb].
    unfold Js.rem. fold N. destruct (Z.eqb_spec N 0) as [?|_]; [lia|].
    replace (-1 + 1 + N)%Z with N by lia.
    replace (-1 + -1 + N)%Z with (N - 2)%Z by lia.
    rewrite Z.rem_same by lia. rewrite (Z.rem_small (N - 2)) by lia. done. }
  destruct (index_in_range gallery 0 ltac:(lia)) as (first & Hf & _).
  destruct (index_in_range gallery (N - 2) ltac:(subst N; lia)) as (bl & Hbl & _).
  destruct (nav_key_opens gallery oid src "ArrowRight" (Js.Int 0) first d s
              W Hok Hb Hl ltac:(discriminate) HR Hf Hd)
    as [(_ & _ & _ & HtR) (nR & HnR & HsR & HlR & _)].
  destruct (nav_key_opens gallery oid src "ArrowLeft" (Js.Int (N - 2)) bl d s
              W Hok Hb Hl ltac:(discriminate) HL Hbl Hd)
    as [(_ & _ & _ & HtL) (nL & HnL & HsL & HlL & _)].
  split; [done|]. split; [done|]. split; [done|]. split; [done|]. split; [done|].
  exists first, bl. split; [done|]. split; [done|]. split.
  { intros s0 t W0. split; by apply run_timer_show. }
  split; [exists nR|exists nL]; done.
Qed.

Lemma arrow_navigation_absent_witness :
  let gallery := ["a.jpg"; "b.jpg"; "c.jpg"] in
  let s := showPreview "other.jpg" false empty_state in
  body s = [0] /\
  (exists n, shows (run gallery [EvKeyDown "ArrowRight"; EvAdvance 300] s) n "a.jpg") /\
  (exists n, shows (run gallery [EvKeyDown "ArrowLeft"; EvAdvance 300] s) n "b.jpg").
Proof.
  intros gallery s. split; [reflexivity|].
  destruct (arrow_navigation_absent gallery 0 "other.jpg" 300 s)
    as (_ & _ & _ & _ & _ & first & bl & Hf & Hbl & _ & (nR & _ & HsR & _) & (nL & _ & HsL & _)).
  - apply wf_showPreview, wf_empty.
  - apply (timers_ok_frame empty_state); [reflexivity|simpl; lia|simpl; lia|].
    apply timers_ok_empty.
  - reflexivity.
  - reflexivity.
  - apply (proj2 (indexOf_absent gallery "other.jpg")). reflexivity.
  - vm_compute. discriminate.
  - lia.
  - injection Hf as <-. injection Hbl as <-. split; [exists nR|exists nL]; done.
Defined.

(** * A load error in the overlay *)

Lemma filter_whole {A} (P : A -> Prop) `{forall x, Decision (P x)} (l : list A) :
  (forall x, x ∈ l -> P x) -> filter P l = l.
Proof.
  induction l as [|x l IH]; intros Hall; [done|].
  rewrite filter_cons_True by (apply Hall; left).
  rewrite IH; [done|]. intros y Hy. apply Hall. by right.
Qed.

(** Time that passes while nothing is due moves the clock only. *)
Lemma advance_nothing_due gallery d s :
  (forall x, x ∈ timers s -> now s + d < x.1) ->
  advance gallery d s = set_now (now s + d) s.
Proof.
  intros Hnone. unfold advance.
  rewrite (filter_none (fun t : nat * TimerAction => t.1 <= now s + d))
    by (intros x Hx; specialize (Hnone x Hx); lia).
  rewrite (filter_whole (fun t : nat * TimerAction => ¬ t.1 <= now s + d))
    by (intros x Hx; specialize (Hnone x Hx); lia).
  apply state_eq; reflexivity.
Qed.

(** C8.  When the content element of an overlay signals a load error, the
    contents of the overlay are replaced by the fixed two-language message
    with the source identifier in it (the text is written out in the
    statement), and a cleanup is armed 2000 ms ahead, and nothing else:
    the overlay stays in the document with its listeners, and as long as
    no other callback is due it is still there, with the message, at any
    time before the 2000 ms are over.  Once 2000 ms have passed the
    overlay is out of the document and its two keydown handlers are no
    longer registered. *)
Theorem content_load_error gallery e el oid src ph s :
  wf s ->
  loaders s !! e = Some (mkLoader el (ContentOf oid src) ph) ->
  next_phase (el_kind el) ph SigError = Some Failed ->
  let s1 := step gallery s (EvSignal e SigError) in
  let message :=
    nl +:+ "            <div style=" +:+ dq +:+ "color: white; text-align: center;" +:+ dq +:+ ">" +:+
    nl +:+ "                加载失败，请重试<br>" +:+
    nl +:+ "                <small style=" +:+ dq +:+ "opacity: 0.7;" +:+ dq +:+ ">Failed to load: " +:+ src +:+ "</small>" +:+
    nl +:+ "            </div>" +:+
    nl +:+ "        " in
  (exists o, nodes s1 !! oid = Some o /\ o_inner o = Html (error_html src)) /\
  (exists before after, forall x, error_html x = before +:+ x +:+ after) /\
  timers s1 = enqueue (now s + 2000) (TCleanup oid) (timers s) /\
  now s1 = now s /\
  (forall d, 2000 <= d ->
    let s2 := step gallery s1 (EvAdvance d) in
    (oid ∉ body s2) /\
    (EscHandler oid ∉ listeners s2) /\
    (KeyNavHandler oid src ∉ listeners s2)) /\
  (exists o0 o,
     nodes s !! oid = Some o0 /\ nodes s1 !! oid = Some o /\
     o_inner o = Html message /\ o_classes o = o_classes o0) /\
  body s1 = body s /\ listeners s1 = listeners s /\
  (forall x, x ∈ timers s1 <-> x ∈ timers s \/ x = (now s + 2000, TCleanup oid)) /\
  (forall d, d < 2000 -> (forall x, x ∈ timers s -> now s + d < x.1) ->
    let s2 := step gallery s1 (EvAdvance d) in
    body s2 = body s /\ listeners s2 = listeners s /\
    nodes s2 !! oid = nodes s1 !! oid /\ timers s2 = timers s1).
Proof.
  intros W Hl Hph s1 message.
  destruct (wf_loaders _ W e _ Hl) as [_ (o & Ho & _)].
  assert (wf s1) as W1 by (by apply wf_step).
  destruct (page_kept_checkpoint (fire_signal e SigError s))
    as (Hn & Hb & Hli & Ht & Hnow).
  assert (fire_signal e SigError s =
          content_onerror oid src
            (set_loaders (<[e := mkLoader el (ContentOf oid src) Failed]> (loaders s)) s))
    as Hfs.
  { unfold fire_signal. rewrite Hl. cbn [l_elem l_phase l_owner]. rewrite Hph.
    unfold run_handler. cbn [l_elem l_owner]. by destruct (el_kind el). }
  assert (s1 = checkpoint (fire_signal e SigError s)) as Es1 by reflexivity.
  rewrite <- Es1, Hfs in Hn, Hb, Hli, Ht, Hnow. clearbody s1.
  unfold content_onerror, update_node, setTimeout in Hn, Hb, Hli, Ht, Hnow.
  cbn [nodes set_loaders] in Hn, Hb, Hli, Ht, Hnow. rewrite Ho in Hn, Hb, Hli, Ht, Hnow.
  simpl in Hn, Hb, Hli, Ht, Hnow.
  assert (nodes s1 !! oid = Some (set_innerHTML (error_html src) o)) as Hn1
    by (by rewrite Hn, lookup_insert_eq).
  split; [eauto|]. split.
  { exists (nl +:+ "            <div style=" +:+ dq +:+ "color: white; text-align: center;"
              +:+ dq +:+ ">" +:+
            nl +:+ "                加载失败，请重试<br>" +:+
            nl +:+ "                <small style=" +:+ dq +:+ "opacity: 0.7;" +:+ dq
              +:+ ">Failed to load: "),
           ("</small>" +:+ nl +:+ "            </div>" +:+ nl +:+ "        ").
    intros x. reflexivity. }
  split; [done|]. split; [done|]. split.
  { intros d Hd s2.
    assert (wf s2) as W2 by (by apply wf_step).
    assert (oid ∉ body s2) as Hout.
    { subst s2. unfold step.
      destruct (page_kept_checkpoint (task gallery (EvAdvance d) s1)) as (_ & -> & _).
      cbn [task]. unfold advance. cbn [body set_now].
      apply foldl_run_timer_removes; [by apply wf_set_timers| |].
      - cbn [next_id set_timers]. apply (wf_nodes _ W1 oid _ Hn1).
      - right. exists (now s + 2000). apply list_elem_of_filter. split.
        + simpl. lia.
        + rewrite Ht. apply elem_of_enqueue. by left. }
    split; [done|]. destruct (not_shown_no_listeners oid s2 W2 Hout) as [He Hk].
    split; [done|apply Hk]. }
  split.
  { exists o, (set_innerHTML (error_html src) o). split; [done|]. split; [done|].
    split; reflexivity. }
  split; [done|]. split; [done|]. split.
  { intros x. rewrite Ht, elem_of_enqueue. tauto. }
  intros d Hd Hnone s2.
  assert (advance gallery d s1 = set_now (now s1 + d) s1) as Hadv.
  { apply advance_nothing_due. intros x. rewrite Ht.
    intros [->|Hx]%elem_of_enqueue; [simpl; lia|].
    specialize (Hnone x Hx). lia. }
  destruct (page_kept_checkpoint (advance gallery d s1)) as (Hn2 & Hb2 & Hl2 & Ht2 & _).
  assert (s2 = checkpoint (advance gallery d s1)) as Es2 by reflexivity.
  rewrite <- Es2, Hadv in Hn2, Hb2, Hl2, Ht2. simpl in Hn2, Hb2, Hl2, Ht2.
  split; [congruence|]. split; [congruence|]. split; [by rewrite Hn2|done].
Qed.

Lemma content_load_error_witness :
  let s := step ["a.jpg"; "b.jpg"] empty_state (EvShowArch 0) in
  let s1 := step ["a.jpg"; "b.jpg"] s (EvSignal 1 SigError) in
  let s2 := step ["a.jpg"; "b.jpg"] s1 (EvAdvance 2000) in
  body s1 = [0] /\
  listeners s1 = [EscHandler 0; KeyNavHandler 0 "a.jpg"] /\
  timers s1 = [(2000, TCleanup 0)] /\
  body (step ["a.jpg"; "b.jpg"] s1 (EvAdvance 1999)) = [0] /\
  (0 ∉ body s2) /\ (EscHandler 0 ∉ listeners s2) /\ (KeyNavHandler 0 "a.jpg" ∉ listeners s2).
Proof.
  intros s s1 s2.
  destruct (content_load_error ["a.jpg"; "b.jpg"] 1 (mkElement 1 Img "a.jpg") 0 "a.jpg"
              Loading s) as (_ & _ & Ht & _ & Hgone & _ & Hb & Hl & _ & Hstay).
  - apply wf_step, wf_empty.
  - reflexivity.
  - reflexivity.
  - split; [exact Hb|]. split; [exact Hl|]. split; [exact Ht|]. split.
    + destruct (Hstay 1999) as (Hb2 & _); [lia| |exact Hb2].
      intros x Hx. vm_compute in Hx. inversion Hx.
    + apply (Hgone 2000). lia.
Defined.

(** * Concurrent preloads *)

(** Two loads of the same identifier are running; the success signal
    arrives on the element [ela] first and on the element [elb] second. *)
Lemma two_loads_succeed gallery src ea ela pa eb elb pb u :
  wf u -> pa ≠ pb -> ea ≠ eb -> el_kind elb = el_kind ela ->
  pstate u pa = Some Pending -> pstate u pb = Some Pending ->
  loaders u !! ea = Some (mkLoader ela (PreloadOf pa src) Loading) ->
  loaders u !! eb = Some (mkLoader elb (PreloadOf pb src) Loading) ->
  let t1 := step gallery u (EvSignal ea (success_signal (el_kind ela))) in
  let t2 := step gallery t1 (EvSignal eb (success_signal (el_kind ela))) in
  PreloadManager.get src t1 = Some ela /\ pstate t1 pb = Some Pending /\
  PreloadManager.get src t2 = Some elb /\
  pstate t2 pa = Some (Fulfilled ela) /\ pstate t2 pb = Some (Fulfilled elb).
Proof.
  intros W Hp He Hk Hpa Hpb Hla Hlb t1 t2.
  destruct (pstate_Pending _ _ Hpa) as [hda Hpra].
  assert (pb < next_id u) as Hltb.
  { apply (wf_promises _ W). unfold pstate in Hpb. destruct (promises u !! pb); [eauto|done]. }
  assert (eb < next_id u) as Hlteb by apply (wf_loaders _ W eb _ Hlb).
  destruct (step_preload_success gallery ea ela pa src hda u W Hpra Hla)
    as (Hf1 & Hcache1 & _ & Hoth1).
  fold t1 in Hf1, Hcache1, Hoth1.
  assert (wf t1) as Wt1 by apply wf_step, W.
  assert (pstate t1 pb = Some Pending) as Hpbt1 by (rewrite Hoth1 by done; exact Hpb).
  destruct (pstate_Pending _ _ Hpbt1) as [hdb Hprb].
  assert (loaders t1 !! eb = Some (mkLoader elb (PreloadOf pb src) Loading)) as Hlbt1.
  { subst t1. rewrite step_signal_other_loader; [done|by intros ->|done]. }
  destruct (step_preload_success gallery eb elb pb src hdb t1 Wt1 Hprb Hlbt1)
    as (Hf2 & Hcache2 & _ & Hoth2).
  rewrite Hk in Hf2, Hcache2, Hoth2. fold t2 in Hf2, Hcache2, Hoth2.
  assert (pa < next_id t1) as Hlta.
  { apply (wf_promises _ Wt1). unfold pstate in Hf1.
    destruct (promises t1 !! pa); [eauto|done]. }
  unfold PreloadManager.get. rewrite Hcache2, Hcache1, !lookup_insert_eq.
  split; [done|]. split; [done|]. split; [done|]. split; [|done].
  rewrite Hoth2 by done. exact Hf1.
Qed.

(** X3.  Concurrent calls are not deduplicated: two [preload] calls for the
    same uncached identifier, the second made before the first load has
    finished, give two distinct pending promises, two media elements and
    two requests.  When both loads succeed, in either order, each promise
    is fulfilled with its own element, and the cache ends up holding the
    element whose load finished last: the second call's element when the
    first call's load finishes first, the first call's element when the
    second call's load finishes first. *)
Theorem concurrent_preloads_load_twice gallery src s :
  wf s -> cache s !! src = None ->
  let p1 := (PreloadManager.preload src s).1 in
  let s1 := (PreloadManager.preload src s).2 in
  let p2 := (PreloadManager.preload src s1).1 in
  let s2 := (PreloadManager.preload src s1).2 in
  let k := if Js.endsWith src ".mp4" || Js.endsWith src ".webm" then Video else Img in
  let el1 := mkElement (S (next_id s)) k src in
  let el2 := mkElement (S (S (S (next_id s)))) k src in
  let t1 := step gallery s2 (EvSignal (el_id el1) (success_signal k)) in
  let t2 := step gallery t1 (EvSignal (el_id el2) (success_signal k)) in
  let r1 := step gallery s2 (EvSignal (el_id el2) (success_signal k)) in
  let r2 := step gallery r1 (EvSignal (el_id el1) (success_signal k)) in
  p1 ≠ p2 /\
  requests s2 = requests s ++ [src; src] /\
  pstate s2 p1 = Some Pending /\ pstate s2 p2 = Some Pending /\
  PreloadManager.get src t1 = Some el1 /\ pstate t1 p2 = Some Pending /\
  PreloadManager.get src t2 = Some el2 /\
  pstate t2 p1 = Some (Fulfilled el1) /\ pstate t2 p2 = Some (Fulfilled el2) /\
  el1 ≠ el2 /\
  PreloadManager.get src r1 = Some el2 /\ pstate r1 p1 = Some Pending /\
  PreloadManager.get src r2 = Some el1 /\
  pstate r2 p1 = Some (Fulfilled el1) /\ pstate r2 p2 = Some (Fulfilled el2).
Proof.
  intros W Hc p1 s1 p2 s2 k el1 el2 t1 t2 r1 r2.
  assert (wf s1) as W1 by apply wf_preload, W.
  assert (wf s2) as W2 by apply wf_preload, W1.
  assert (p1 = next_id s) as Hp1 by apply preload_fst.
  assert (s1 = (PreloadManager.preload src s).2) as Es1 by done.
  rewrite (preload_uncached_eq _ _ Hc) in Es1. cbn [snd] in Es1. fold k el1 in Es1.
  assert (cache s1 !! src = None) as Hc1 by (by rewrite Es1).
  assert (next_id s1 = S (S (next_id s))) as Hid1 by (by rewrite Es1).
  assert (p2 = S (S (next_id s))) as Hp2 by (subst p2; by rewrite preload_fst).
  assert (s2 = (PreloadManager.preload src s1).2) as Es2 by done.
  rewrite (preload_uncached_eq _ _ Hc1) in Es2. cbn [snd] in Es2.
  rewrite Hid1 in Es2. fold k el2 in Es2.
  assert (requests s2 = requests s ++ [src; src]) as Hreq.
  { rewrite Es2. simpl. rewrite Es1. simpl. by rewrite <- app_assoc. }
  assert (promises s2 !! p1 = Some (mkPromise Pending false)) as Hpr1.
  { rewrite Es2. simpl. rewrite lookup_insert_ne by lia.
    rewrite Es1. simpl. by rewrite Hp1, lookup_insert_eq. }
  assert (promises s2 !! p2 = Some (mkPromise Pending false)) as Hpr2.
  { rewrite Es2. simpl. by rewrite Hp2, lookup_insert_eq. }
  assert (loaders s2 !! el_id el1 = Some (mkLoader el1 (PreloadOf p1 src) Loading)) as Hl1.
  { rewrite Es2. simpl. rewrite lookup_insert_ne by lia.
    rewrite Es1. simpl. by rewrite Hp1, lookup_insert_eq. }
  assert (loaders s2 !! el_id el2 = Some (mkLoader el2 (PreloadOf p2 src) Loading)) as Hl2.
  { rewrite Es2. simpl. by rewrite Hp2, lookup_insert_eq. }
  clearbody s1 s2. clear Es1 Es2.
  assert (pstate s2 p1 = Some Pending) as Hs1 by (unfold pstate; by rewrite Hpr1).
  assert (pstate s2 p2 = Some Pending) as Hs2 by (unfold pstate; by rewrite Hpr2).
  assert (p1 ≠ p2) as Hne by lia.
  assert (el_id el1 ≠ el_id el2) as Hnee by (simpl; lia).
  destruct (two_loads_succeed gallery src (el_id el1) el1 p1 (el_id el2) el2 p2 s2
              W2 Hne Hnee eq_refl Hs1 Hs2 Hl1 Hl2) as (Ha1 & Ha2 & Ha3 & Ha4 & Ha5).
  destruct (two_loads_succeed gallery src (el_id el2) el2 p2 (el_id el1) el1 p1 s2
              W2 ltac:(done) ltac:(done) eq_refl Hs2 Hs1 Hl2 Hl1)
    as (Hb1 & Hb2 & Hb3 & Hb4 & Hb5).
  change (el_kind el1) with k in *. change (el_kind el2) with k in *.
  fold t1 in Ha1, Ha2. fold t2 in Ha3, Ha4, Ha5.
  fold r1 in Hb1, Hb2. fold r2 in Hb3, Hb4, Hb5.
  split_and!; try done.
  intros [= Heq]. lia.
Qed.

Lemma concurrent_preloads_load_twice_witness :
  let s2 := (PreloadManager.preload "a.jpg" (PreloadManager.preload "a.jpg" empty_state).2).2 in
  let t2 := run [] [EvSignal 1 SigLoad; EvSignal 3 SigLoad] s2 in
  let r2 := run [] [EvSignal 3 SigLoad; EvSignal 1 SigLoad] s2 in
  requests s2 = ["a.jpg"; "a.jpg"] /\
  PreloadManager.get "a.jpg" t2 = Some (mkElement 3 Img "a.jpg") /\
  pstate t2 0 = Some (Fulfilled (mkElement 1 Img "a.jpg")) /\
  pstate t2 2 = Some (Fulfilled (mkElement 3 Img "a.jpg")) /\
  PreloadManager.get "a.jpg" r2 = Some (mkElement 1 Img "a.jpg") /\
  pstate r2 0 = Some (Fulfilled (mkElement 1 Img "a.jpg")) /\
  pstate r2 2 = Some (Fulfilled (mkElement 3 Img "a.jpg")).
Proof.
  intros s2 t2 r2.
  destruct (concurrent_preloads_load_twice [] "a.jpg" empty_state wf_empty eq_refl)
    as (_ & Hreq & _ & _ & _ & _ & Hget & Hf1 & Hf2 & _ & _ & _ & Hget' & Hf1' & Hf2').
  exact (conj Hreq (conj Hget (conj Hf1 (conj Hf2 (conj Hget' (conj Hf1' Hf2')))))).
Defined.

(** * Arrow keys pressed several times *)

(** The page after [w] milliseconds, from the callbacks that were due. *)
Lemma step_advance_fields gallery w u :
  wf u ->
  let u' := step gallery u (EvAdvance w) in
  let due := filter (fun t : nat * TimerAction => t.1 <= now u + w) (timers u) in
  let later := filter (fun t : nat * TimerAction => ¬ t.1 <= now u + w) (timers u) in
  now u' = now u + w /\ timers u' = later /\
  body u' = body (foldl (run_timer gallery) (set_timers later u) due) /\
  nodes u' = nodes (foldl (run_timer gallery) (set_timers later u) due).
Proof.
  intros W u' due later.
  destruct (page_kept_checkpoint (advance gallery w u)) as (Hn & Hb & _ & Ht & Hnow).
  destruct (advance_timers gallery w u W) as (Ht' & Hnow' & _).
  assert (u' = checkpoint (advance gallery w u)) as Eu by reflexivity.
  rewrite <- Eu in Hn, Hb, Ht, Hnow. clearbody u'.
  subst due later. rewrite Hnow, Ht, Hn, Hb. split; [done|]. split; [done|]. done.
Qed.

(** Time that passes while nothing is due leaves the page as it is. *)
Lemma step_advance_idle gallery w u :
  (forall x, x ∈ timers u -> now u + w < x.1) ->
  let u' := step gallery u (EvAdvance w) in
  nodes u' = nodes u /\ body u' = body u /\ listeners u' = listeners u /\
  timers u' = timers u /\ now u' = now u + w.
Proof.
  intros Hnone u'.
  destruct (page_kept_checkpoint (advance gallery w u)) as (Hn & Hb & Hl & Ht & Hnow).
  assert (u' = checkpoint (advance gallery w u)) as Eu by reflexivity.
  rewrite <- Eu in Hn, Hb, Hl, Ht, Hnow. clearbody u'.
  rewrite (advance_nothing_due gallery w u Hnone) in Hn, Hb, Hl, Ht, Hnow. done.
Qed.

(** Presses of one arrow key on the overlay [oid], all of them before the
    navigation armed by the first press is due at [T0]: the overlay is
    still the one shown, and every callback armed is its cleanup or the
    navigation to the same position. *)
Lemma presses_keep_overlay gallery oid src key direction T0 gaps u :
  src ∈ gallery ->
  (key = "ArrowLeft" /\ direction = (-1)%Z) \/ (key = "ArrowRight" /\ direction = 1%Z) ->
  let j := Js.Int ((Js.indexOf gallery src + direction + Js.len gallery)
                     `mod` Js.len gallery) in
  wf u -> body u = [oid] -> listeners u = [EscHandler oid; KeyNavHandler oid src] ->
  T0 <= now u + 300 -> now u + sum_list gaps < T0 ->
  now u + 300 = T0 \/ (T0, TShow j) ∈ timers u ->
  (forall t a, (t, a) ∈ timers u ->
     (a = TCleanup oid \/ a = TShow j) /\ T0 <= t /\ t <= now u + 300) ->
  let u' :=
    run gallery
      (EvKeyDown key :: flat_map (fun g => [EvAdvance g; EvKeyDown key]) gaps) u in
  wf u' /\ body u' = [oid] /\ listeners u' = [EscHandler oid; KeyNavHandler oid src] /\
  now u' = now u + sum_list gaps /\
  ((T0, TShow j) ∈ timers u') /\
  (forall t a, (t, a) ∈ timers u' ->
     (a = TCleanup oid \/ a = TShow j) /\ T0 <= t /\ t <= now u' + 300).
Proof.
  intros Hin Hkey j. revert u.
  induction gaps as [|g gaps IH]; intros u W Hb Hl HT0 Hsum Hfirst Htim u'.
  - destruct (step_arrow_key gallery oid src key direction u Hl Hin Hkey)
      as (Hb1 & Hl1 & Hn1 & Ht1).
    fold j in Ht1. subst u'. cbn [run foldl flat_map].
    split; [by apply wf_step|]. split; [congruence|]. split; [congruence|].
    split; [simpl; lia|]. split.
    + rewrite Ht1. apply elem_of_enqueue.
      destruct Hfirst as [<-|Hold]; [by left|]. right. apply elem_of_enqueue. by right.
    + intros t a. rewrite Ht1, Hn1.
      intros [[= -> ->]|[[= -> ->]|Hx]%elem_of_enqueue]%elem_of_enqueue.
      * split; [by right|lia].
      * split; [by left|lia].
      * by apply Htim.
  - change (sum_list (g :: gaps)) with (g + sum_list gaps) in Hsum.
    destruct (step_arrow_key gallery oid src key direction u Hl Hin Hkey)
      as (Hb1 & Hl1 & Hn1 & Ht1).
    fold j in Ht1.
    set (u1 := step gallery u (EvKeyDown key)) in *.
    assert (wf u1) as W1 by apply wf_step, W.
    assert (forall t a, (t, a) ∈ timers u1 ->
              (a = TCleanup oid \/ a = TShow j) /\ T0 <= t /\ t <= now u1 + 300) as Htim1.
    { intros t a. rewrite Ht1, Hn1.
      intros [[= -> ->]|[[= -> ->]|Hx]%elem_of_enqueue]%elem_of_enqueue.
      - split; [by right|lia].
      - split; [by left|lia].
      - by apply Htim. }
    assert ((T0, TShow j) ∈ timers u1) as Hfirst1.
    { rewrite Ht1. apply elem_of_enqueue.
      destruct Hfirst as [<-|Hold]; [by left|]. right. apply elem_of_enqueue. by right. }
    destruct (step_advance_idle gallery g u1) as (_ & Hb2 & Hl2 & Ht2 & Hn2).
    { intros [t a] Hx. destruct (Htim1 t a Hx) as (_ & Hge & _). simpl. lia. }
    set (u2 := step gallery u1 (EvAdvance g)) in *.
    assert (wf u2) as W2 by apply wf_step, W1.
    assert (body u2 = [oid]) as Hbu2 by congruence.
    assert (listeners u2 = [EscHandler oid; KeyNavHandler oid src]) as Hlu2 by congruence.
    assert (T0 <= now u2 + 300) as HT2 by lia.
    assert (now u2 + sum_list gaps < T0) as Hsum2 by lia.
    assert (now u2 + 300 = T0 \/ (T0, TShow j) ∈ timers u2) as Hfirst2
      by (right; by rewrite Ht2).
    assert (forall t a, (t, a) ∈ timers u2 ->
              (a = TCleanup oid \/ a = TShow j) /\ T0 <= t /\ t <= now u2 + 300) as Htim2.
    { intros t a. rewrite Ht2. intros Hx. destruct (Htim1 t a Hx) as (? & ? & ?).
      split; [done|lia]. }
    destruct (IH u2 W2 Hbu2 Hlu2 HT2 Hsum2 Hfirst2 Htim2)
      as (W' & Hb' & Hl' & Hn' & Hf' & Ht').
    assert (u' = run gallery
                   (EvKeyDown key :: flat_map (fun g0 => [EvAdvance g0; EvKeyDown key]) gaps)
                   u2) as -> by reflexivity.
    split; [done|]. split; [done|]. split; [done|]. split; [|done].
    change (sum_list (g :: gaps)) with (g + sum_list gaps). lia.
Qed.

(** Time passes on a page whose pending callbacks are cleanups of the
    overlay [oid] and navigations to position [j], the first of them due
    at [T0]: before [T0] the overlay [oid] is shown; from [T0] on, a newer
    overlay made for the item at [j]. *)
Lemma advance_shows gallery oid j shown T0 w u :
  Js.index gallery j = Some shown ->
  wf u ->
  (forall t a, (t, a) ∈ timers u -> (a = TCleanup oid \/ a = TShow j) /\ T0 <= t) ->
  (now u < T0 /\ body u = [oid] /\ (T0, TShow j) ∈ timers u) \/
  (T0 <= now u /\ exists n, oid < n /\ shows u n shown) ->
  let u' := step gallery u (EvAdvance w) in
  wf u' /\ now u' = now u + w /\
  (forall x, x ∈ timers u' -> x ∈ timers u /\ now u' < x.1) /\
  ((now u' < T0 /\ body u' = [oid] /\ (T0, TShow j) ∈ timers u') \/
   (T0 <= now u' /\ exists n, oid < n /\ shows u' n shown)).
Proof.
  intros Hj W Htim Hcase u'.
  destruct (step_advance_fields gallery w u W) as (Hnow & Ht & Hb & Hn).
  fold u' in Hnow, Ht, Hb, Hn.
  split; [by apply wf_step|]. split; [done|]. split.
  { intros x. rewrite Ht. intros [Hnd Hx]%list_elem_of_filter. split; [done|lia]. }
  destruct Hcase as [(Hlt & Hbu & Hin0)|(Hge & n & Hon & Hs)].
  - destruct (decide (now u + w < T0)) as [Hidle|Hdue].
    + left. destruct (step_advance_idle gallery w u) as (_ & Hb' & _ & Ht' & _).
      { intros [t a] Hx. destruct (Htim t a Hx) as [_ ?]. simpl. lia. }
      fold u' in Hb', Ht'. split; [lia|]. split; [congruence|]. by rewrite Ht'.
    + right. split; [lia|].
      destruct (shown_overlay_fields oid u W Hbu) as (o & src' & Ho & _).
      destruct (wf_nodes _ W oid o Ho) as [Hlto _].
      destruct (foldl_run_timer_shows gallery j shown (next_id u)
                  (filter (fun t : nat * TimerAction => t.1 <= now u + w) (timers u))
                  (set_timers
                     (filter (fun t : nat * TimerAction => ¬ t.1 <= now u + w) (timers u)) u)
                  Hj) as (n & Hn' & Hbn & v & Hnn).
      * by apply wf_set_timers.
      * done.
      * intros t a [_ Hx]%list_elem_of_filter.
        destruct (Htim t a Hx) as [[->| ->] _]; [right; eauto|by left].
      * right. exists T0. apply list_elem_of_filter. split; [simpl; lia|done].
      * exists n. split; [lia|]. split; [congruence|]. exists v. congruence.
  - right. split; [lia|].
    assert (n < next_id u) as Hltn.
    { destruct Hs as [_ [v Hv]]. apply (wf_nodes _ W n _ Hv). }
    destruct (foldl_run_timer_shows gallery j shown (S oid)
                (filter (fun t : nat * TimerAction => t.1 <= now u + w) (timers u))
                (set_timers
                   (filter (fun t : nat * TimerAction => ¬ t.1 <= now u + w) (timers u)) u)
                Hj) as (n' & Hn' & Hbn & v & Hnn).
    + by apply wf_set_timers.
    + simpl. lia.
    + intros t a [_ Hx]%list_elem_of_filter.
      destruct (Htim t a Hx) as [[->| ->] _]; [right; eauto|by left].
    + left. exists n. split; [lia|]. exact Hs.
    + exists n'. split; [lia|]. split; [congruence|]. exists v. congruence.
Qed.

(** X7.  An arrow key pressed once or several times before the 300 ms of
    the first press are over moves by exactly one item, whenever the
    presses come: with the shown source in the gallery and no timer
    pending, let the key be pressed at any instants less than 300 ms apart
    from the first press ([gaps] are the times between the presses), and
    let time pass afterwards in any number of steps ([waits]).  As soon as
    300 ms have passed since the first press, the document shows exactly
    one overlay, a new one, made for the item at
    [(currentIndex + direction + N) mod N], with exactly its two listeners
    registered; whatever navigation is still pending leads to the same
    item, and none is pending once 300 ms have passed since the last
    press.  Repeated presses do not skip items, because every press is
    handled by the overlay that is still shown. *)
Theorem arrow_presses_open_neighbour gallery oid src key direction gaps waits s :
  wf s -> body s = [oid] -> listeners s = [EscHandler oid; KeyNavHandler oid src] ->
  src ∈ gallery -> timers s = [] ->
  (key = "ArrowLeft" /\ direction = (-1)%Z) \/ (key = "ArrowRight" /\ direction = 1%Z) ->
  sum_list gaps < 300 ->
  300 <= sum_list gaps + sum_list waits ->
  let newIndex :=
    ((Js.indexOf gallery src + direction + Js.len gallery) `mod` Js.len gallery)%Z in
  let presses :=
    EvKeyDown key :: flat_map (fun g => [EvAdvance g; EvKeyDown key]) gaps in
  let s1 := run gallery presses s in
  let s2 := run gallery (EvAdvance <$> waits) s1 in
  exists shown n,
    Js.index gallery (Js.Int newIndex) = Some shown /\
    oid < n /\
    shows s2 n shown /\
    listeners s2 = [EscHandler n; KeyNavHandler n shown] /\
    (forall t i, (t, TShow i) ∈ timers s2 -> i = Js.Int newIndex) /\
    (300 <= sum_list waits -> timers s2 = []).
Proof.
  intros W Hb Hl Hin Ht Hkey Hgaps Htotal newIndex presses s1 s2.
  destruct (nav_index_in_range gallery src direction Hin ltac:(tauto)) as [_ Hr].
  fold newIndex in Hr.
  destruct (index_in_range gallery newIndex Hr) as (shown & Hshown & _).
  destruct (presses_keep_overlay gallery oid src key direction (now s + 300) gaps s
              Hin Hkey W Hb Hl) as (W1 & Hb1 & Hl1 & Hn1 & Hf1 & Ht1).
  { lia. }
  { lia. }
  { by left. }
  { intros t a. rewrite Ht. by intros ?%elem_of_nil. }
  fold newIndex presses in W1, Hb1, Hl1, Hn1, Hf1, Ht1.
  fold s1 in W1, Hb1, Hl1, Hn1, Hf1, Ht1. clearbody s1.
  set (j := Js.Int newIndex) in *. set (T0 := now s + 300) in *.
  assert (forall ws u,
            wf u ->
            (forall t a, (t, a) ∈ timers u -> (a = TCleanup oid \/ a = TShow j) /\ T0 <= t) ->
            (now u < T0 /\ body u = [oid] /\ (T0, TShow j) ∈ timers u) \/
            (T0 <= now u /\ exists n, oid < n /\ shows u n shown) ->
            let u' := run gallery (EvAdvance <$> ws) u in
            wf u' /\ now u' = now u + sum_list ws /\
            (forall x, x ∈ timers u' -> x ∈ timers u /\ (now u < now u' -> now u' < x.1)) /\
            ((now u' < T0 /\ body u' = [oid] /\ (T0, TShow j) ∈ timers u') \/
             (T0 <= now u' /\ exists n, oid < n /\ shows u' n shown))) as Hwaits.
  { induction ws as [|w ws IH]; intros u Wu Htu Hcu u'.
    - subst u'. simpl. split; [done|]. split; [lia|]. split; [|done].
      intros x Hx. split; [done|lia].
    - destruct (advance_shows gallery oid j shown T0 w u Hshown Wu Htu Hcu)
        as (Wa & Hna & Hta & Hca).
      set (ua := step gallery u (EvAdvance w)) in *.
      destruct (IH ua Wa) as (W' & Hn' & Ht' & Hc'); [|done|].
      { intros t a Hx. apply Htu. by apply (Hta (t, a)). }
      assert (u' = run gallery (EvAdvance <$> ws) ua) as -> by reflexivity.
      split; [done|]. split; [change (sum_list (w :: ws)) with (w + sum_list ws); lia|].
      split; [|done].
      intros x Hx. destruct (Ht' x Hx) as [Hxa Hfut]. destruct (Hta x Hxa) as [Hxu Hfa].
      split; [done|]. intros _.
      destruct (decide (now ua < now (run gallery (EvAdvance <$> ws) ua))); [auto|lia]. }
  destruct (Hwaits waits s1 W1) as (W2 & Hn2 & Ht2 & Hc2).
  { intros t a Hx. destruct (Ht1 t a Hx) as (? & ? & _). done. }
  { left. split; [lia|]. done. }
  fold s2 in W2, Hn2, Ht2, Hc2. clearbody s2.
  destruct Hc2 as [(Hlt & _)|(_ & n & Hon & Hs)]; [lia|].
  exists shown, n. split; [done|]. split; [done|]. split; [done|].
  split; [by apply shows_listeners|]. split.
  - intros t i Hx. destruct (Ht2 _ Hx) as [Hx1 _].
    destruct (Ht1 t (TShow i) Hx1) as ([[=]|[= ->]] & _). done.
  - intros Hlast. destruct (timers s2) as [|[t a] rest] eqn:Et; [done|]. exfalso.
    destruct (Ht2 (t, a)) as [Hx1 Hfut]; [left|].
    destruct (Ht1 t a Hx1) as (_ & _ & Hle). simpl in Hfut. lia.
Qed.

Lemma arrow_presses_open_neighbour_witness :
  let gallery := ["a.jpg"; "b.jpg"; "c.jpg"] in
  let s := run gallery [EvShowArch 2] empty_state in
  let s1 :=
    run gallery [EvKeyDown "ArrowRight"; EvAdvance 100; EvKeyDown "ArrowRight"] s in
  let s2 := run gallery [EvAdvance 200; EvAdvance 100] s1 in
  exists n, 0 < n /\ shows s2 n "a.jpg" /\
    listeners s2 = [EscHandler n; KeyNavHandler n "a.jpg"] /\ timers s2 = [].
Proof.
  intros gallery s s1 s2.
  destruct (arrow_presses_open_neighbour gallery 0 "c.jpg" "ArrowRight" 1 [100] [200; 100] s)
    as (shown & n & Hshown & Hn & Hs & Hl & _ & Hnone).
  - apply wf_run, wf_empty.
  - reflexivity.
  - reflexivity.
  - vm_compute. do 2 right. left.
  - reflexivity.
  - right. split; reflexivity.
  - simpl. lia.
  - simpl. lia.
  - injection Hshown as <-. exists n.
    split; [exact Hn|]. split; [exact Hs|]. split; [exact Hl|].
    apply Hnone. simpl. lia.
Defined.
